(** * s3tf: the navigation tree and the interaction state machine

    A shallow embedding of [provider.go] and [s3.go].  Go pointers to
    [Node] are indices into an explicit heap, external collaborators
    (the S3 client, the file system, the launcher of viewers and
    editors) are answered by an environment record, and every
    observable effect is appended to a trace.  A computation either
    returns, leaves the process through [os.Exit] / [log.Fatalf], or
    panics on a nil dereference or an index out of range. *)

From Stdlib Require Import ZArith String Ascii List Lia.
From stdpp Require Import base option list gmap strings.

Local Open Scope string_scope.
Local Open Scope list_scope.
Local Open Scope Z_scope.

(** ** Listing entries *)

(** Modelled from the spec: the declaration of [S3Object] and of its
    type tags is absent; the fields are the four arguments every call of
    [NewS3Object] in [s3.go] passes (kind, name, date, size). *)
Inductive S3ObjectType := Bucket | Dir | PreDir | Object.

#[global] Instance S3ObjectType_eq_dec : EqDecision S3ObjectType.
Proof. solve_decision. Defined.

(** Modelled from the spec: the struct behind [NewS3Object]; the spec's
    Entry with kind, name, optional timestamp and optional size. *)
Record S3Object := NewS3Object {
  ObjType : S3ObjectType;
  Name : string;
  Date : option Z;
  Size : option Z
}.

(** ** What the remote store and the operating system answer *)

Inductive Resp (A : Type) :=
| Success (a : A)
| Canceled          (* awserr code = request.CanceledErrorCode *)
| Failed.           (* any other error *)
Arguments Success {A} a.
Arguments Canceled {A}.
Arguments Failed {A}.

Record BucketInfo := { BucketName : string; CreationDate : option Z }.
Record ContentInfo := { ContentKey : string; LastModified : option Z; ContentSize : option Z }.
Record ListObjectsOutput := { CommonPrefixes : list string; Contents : list ContentInfo }.

Definition Metadata := list (string * string).

(** One record answers every external call made while one event is
    dispatched.  [Filename], [Open], [OpenEditor] and [Detail] are
    helpers of the repository whose bodies are absent; they are taken
    as parameters here. *)
Record Env := {
  ListBucketsWithContext : Resp (list BucketInfo);
  ListObjectsWithContext : string -> string -> Resp ListObjectsOutput;
  DownloadWithContext : string -> string -> Resp Z;
  DetailResp : string -> string -> Resp Metadata;
  Getwd : string;
  TempDir : string;
  Create : string -> bool;       (* os.Create returned a nil error *)
  Open : string -> bool;         (* Open returned a nil error *)
  Filename : string -> string
}.

(** ** The trace of observable effects *)

Inductive Effect :=
| LogPrint (msg : string)
| CallListBuckets
| CallListObjects (bucket prefix : string)
| CallDownload (bucket key : string)
| CallDetail (bucket key : string)
| OsCreate (path : string)
| ExecOpen (path : string)
| ExecEditor (path : string)
| TermboxClose
| TermboxInit
| TermboxInterrupt.

#[global] Instance Effect_eq_dec : EqDecision Effect.
Proof. solve_decision. Defined.

Definition isRemoteCall (x : Effect) : bool :=
  match x with
  | CallListBuckets | CallListObjects _ _ | CallDownload _ _ | CallDetail _ _ => true
  | _ => false
  end.

Definition isFetch (x : Effect) : bool :=
  match x with CallDownload _ _ => true | _ => false end.

Definition remoteCalls (t : list Effect) : list Effect := List.filter isRemoteCall t.

(** ** The navigation tree *)

(** A [*Node] is an index into the heap. *)
Abbreviation ptr := nat (only parsing).

(** Modelled from the spec: [Node] and its methods ([NewNode],
    [IsRoot], [IsBucketRoot], [IsExistChildren], [GetChild],
    [AddChild]) are absent; the fields [key], [parent], [objects] and
    [position] are the ones [provider.go] reads and writes, [children]
    is the keyed mapping of the spec's data model. *)
Record Node := mkNode {
  key : string;
  parent : option ptr;
  objects : list S3Object;
  position : Z;
  children : gmap string ptr
}.

(** Modelled from the spec: [IsRoot] is absent; the root is the node
    whose parent is nil. *)
Definition IsRoot (n : Node) : bool :=
  match parent n with None => true | Some _ => false end.

(** Modelled from the spec: [IsBucketRoot] is absent; true when the
    parent of the node is the root. *)
Definition IsBucketRoot (h : list Node) (n : Node) : bool :=
  match parent n with
  | None => false
  | Some q => match h !! q with Some qn => IsRoot qn | None => false end
  end.

(** Modelled from the spec: [IsExistChildren], [GetChild] and
    [AddChild] are absent; they test, read and extend the keyed mapping
    of children. *)
Definition IsExistChildren (n : Node) (k : string) : bool :=
  match children n !! k with Some _ => true | None => false end.

Definition GetChild (n : Node) (k : string) : option ptr := children n !! k.

Definition AddChild (n : Node) (k : string) (c : ptr) : Node :=
  mkNode (key n) (parent n) (objects n) (position n) (<[k := c]> (children n)).

Definition setObjects (objs : list S3Object) (n : Node) : Node :=
  mkNode (key n) (parent n) objs (position n) (children n).

Definition setPosition (i : Z) (n : Node) : Node :=
  mkNode (key n) (parent n) (objects n) i (children n).

(** ** The views *)

(** Modelled from the spec: the view types are absent.  [ListView]
    keeps the listing on screen and the highlighted row; [down] and
    [up] are the spec's [MoveCursor] with delta +1 and -1,
    [getCursorObject] indexes the listing, [updateList] shows a node
    at the cursor the node remembers. *)
Record ListView := mkListView {
  lv_objects : list S3Object;
  lv_key : string;
  cursorPos : Z
}.

(** Modelled from the spec: [down] and [up] of the list view are
    absent; they are [MoveCursor] with delta 1 and -1: the index moves
    by delta, clamped to the rows of the listing, and stays on an empty
    listing. *)
Definition MoveCursor (w : ListView) (delta : Z) : Z :=
  match lv_objects w with
  | [] => cursorPos w
  | _ => Z.max 0 (Z.min (cursorPos w + delta) (Z.of_nat (length (lv_objects w)) - 1))
  end.

Definition lv_move (w : ListView) (delta : Z) : ListView :=
  mkListView (lv_objects w) (lv_key w) (MoveCursor w delta).

Definition lv_setObjects (objs : list S3Object) (w : ListView) : ListView :=
  mkListView objs (lv_key w) (cursorPos w).

(** Modelled from the spec: [updateList] is absent; the view takes the
    listing, the key and the remembered cursor of the node. *)
Definition updateList (n : Node) (w : ListView) : ListView :=
  mkListView (objects n) (key n) (position n).

(** Modelled from the spec: [getCursorObject] is absent; the entry under
    the cursor, none when the index is not a row (where Go's indexing
    panics). *)
Definition cursorObject (w : ListView) : option S3Object :=
  if cursorPos w <? 0 then None else lv_objects w !! Z.to_nat (cursorPos w).

Inductive Command := CommandDownload | CommandOpen | CommandEdit.

Record MenuItem := NewMenuItem {
  mi_name : string;
  mi_shortcut : string;
  mi_description : string;
  command : Command
}.

(** Modelled from the spec: [MenuView] is absent; moving down or up
    cycles through its items. *)
Record MenuView := mkMenuView {
  items : list MenuItem;
  menuCursor : nat
}.

Definition menu_down (v : MenuView) : MenuView :=
  mkMenuView (items v)
    (match length (items v) with O => menuCursor v | n => (S (menuCursor v)) mod n end)%nat.

Definition menu_up (v : MenuView) : MenuView :=
  mkMenuView (items v)
    (match length (items v) with O => menuCursor v | n => (menuCursor v + (n - 1)) mod n end)%nat.

Definition getCursorItem (v : MenuView) : option MenuItem := items v !! menuCursor v.

(** Modelled from the spec: [DetailView] is absent; it holds the
    metadata captured on entry and a scroll offset. *)
Record DetailView := mkDetailView {
  dv_obj : option Metadata;
  dv_key : string;
  dv_scroll : Z
}.

Definition detail_down (v : DetailView) : DetailView :=
  mkDetailView (dv_obj v) (dv_key v) (dv_scroll v + 1).

Definition detail_up (v : DetailView) : DetailView :=
  mkDetailView (dv_obj v) (dv_key v) (Z.max 0 (dv_scroll v - 1)).

Record NavigationView := mkNavigationView { nv_bucket : string; nv_key : string }.

Record StatusView := mkStatusView { msg : string }.

(** ** The provider and the machine it runs on *)

Inductive ProviderStatus := StateList | StateMenu | StateDetail.

#[global] Instance ProviderStatus_eq_dec : EqDecision ProviderStatus.
Proof. solve_decision. Defined.

Record Provider := mkProvider {
  status : ProviderStatus;
  navigator : option ptr;
  bucket : string;
  listView : ListView;
  navigationView : NavigationView;
  statusView : StatusView;
  menuView : MenuView;
  detailView : DetailView
}.

Record Machine := mkMachine {
  prov : Provider;
  heap : list Node;
  trace : list Effect
}.

Inductive Outcome (A : Type) :=
| Ok (a : A) (m : Machine)
| Exit (code : Z) (m : Machine)     (* os.Exit, log.Fatalf *)
| Panic (m : Machine).              (* nil dereference, index out of range *)
Arguments Ok {A} a m.
Arguments Exit {A} code m.
Arguments Panic {A} m.

Definition M (A : Type) : Type := Machine -> Outcome A.

Definition ret {A} (a : A) : M A := fun m => Ok a m.

Definition bind {A B} (c : M A) (k : A -> M B) : M B :=
  fun m => match c m with
           | Ok a m' => k a m'
           | Exit code m' => Exit code m'
           | Panic m' => Panic m'
           end.

Declare Scope go_scope.
Delimit Scope go_scope with go.
Notation "x <- c ;; k" := (bind c (fun x => k))
  (at level 100, c at next level, right associativity) : go_scope.
Notation "c ;; k" := (bind c (fun _ => k))
  (at level 100, right associativity) : go_scope.
Local Open Scope go_scope.

(** *** Primitive steps *)

Definition emit (x : Effect) : M unit :=
  fun m => Ok tt (mkMachine (prov m) (heap m) (trace m ++ [x])).

Definition logPrint (s : string) : M unit := emit (LogPrint s).

Definition osExit {A} (code : Z) : M A := fun m => Exit code m.

Definition logFatal {A} (s : string) : M A := logPrint s ;; osExit 1.

Definition panic {A} : M A := fun m => Panic m.

Definition getProvider : M Provider := fun m => Ok (prov m) m.

Definition modifyProvider (f : Provider -> Provider) : M unit :=
  fun m => Ok tt (mkMachine (f (prov m)) (heap m) (trace m)).

Definition getHeap : M (list Node) := fun m => Ok (heap m) m.

(** Dereferencing a [*Node]: nil (or a pointer to nothing) panics. *)
Definition load (p : option ptr) : M Node :=
  fun m => match p with
           | None => Panic m
           | Some i => match heap m !! i with
                       | Some n => Ok n m
                       | None => Panic m
                       end
           end.

Definition modifyNode (p : option ptr) (f : Node -> Node) : M unit :=
  n <- load p ;;
  fun m => match p with
           | Some i => Ok tt (mkMachine (prov m) (<[i := f n]> (heap m)) (trace m))
           | None => Panic m
           end.

(** Modelled from the spec: [NewNode] is absent; it allocates a node
    with the given key, parent and listing, the cursor on the first row
    and no children. *)
Definition NewNode (k : string) (par : option ptr) (objs : list S3Object) : M ptr :=
  fun m => Ok (length (heap m))
              (mkMachine (prov m) (heap m ++ [mkNode k par objs 0 ∅]) (trace m)).

(** *** Field updates of the provider *)

Definition set_status (st : ProviderStatus) (p : Provider) : Provider :=
  mkProvider st (navigator p) (bucket p) (listView p) (navigationView p)
             (statusView p) (menuView p) (detailView p).

Definition set_navigator (n : option ptr) (p : Provider) : Provider :=
  mkProvider (status p) n (bucket p) (listView p) (navigationView p)
             (statusView p) (menuView p) (detailView p).

Definition set_bucket (b : string) (p : Provider) : Provider :=
  mkProvider (status p) (navigator p) b (listView p) (navigationView p)
             (statusView p) (menuView p) (detailView p).

Definition set_listView (w : ListView) (p : Provider) : Provider :=
  mkProvider (status p) (navigator p) (bucket p) w (navigationView p)
             (statusView p) (menuView p) (detailView p).

Definition set_navigationView (w : NavigationView) (p : Provider) : Provider :=
  mkProvider (status p) (navigator p) (bucket p) (listView p) w
             (statusView p) (menuView p) (detailView p).

Definition set_msg (s : string) (p : Provider) : Provider :=
  mkProvider (status p) (navigator p) (bucket p) (listView p) (navigationView p)
             (mkStatusView s) (menuView p) (detailView p).

Definition set_menuView (w : MenuView) (p : Provider) : Provider :=
  mkProvider (status p) (navigator p) (bucket p) (listView p) (navigationView p)
             (statusView p) w (detailView p).

Definition set_detailView (w : DetailView) (p : Provider) : Provider :=
  mkProvider (status p) (navigator p) (bucket p) (listView p) (navigationView p)
             (statusView p) (menuView p) w.

(** ** s3.go *)

(** The two log lines of the error branch shared by the remote calls
    (the formatted error value is dropped). *)
Definition logRemoteError {A} (r : Resp A) : M unit :=
  match r with
  | Canceled => logPrint "upload canceled due to timeout"
  | _ => logPrint "failed to upload object"
  end.

Definition ListBuckets (e : Env) : M (list S3Object) :=
  emit CallListBuckets ;;
  match ListBucketsWithContext e with
  | Success buckets =>
      ret (map (fun b => NewS3Object Bucket (BucketName b) (CreationDate b) None) buckets)
  | r => logRemoteError r ;; osExit 1
  end.

Definition listing (result : ListObjectsOutput) : list S3Object :=
  [NewS3Object PreDir ".." None None]
    ++ map (fun cp => NewS3Object Dir cp None None) (CommonPrefixes result)
    ++ map (fun c => NewS3Object Object (ContentKey c) (LastModified c) (ContentSize c))
           (Contents result).

Definition ListObjects (e : Env) (bkt prefix : string) : M (list S3Object) :=
  emit (CallListObjects bkt prefix) ;;
  match ListObjectsWithContext e bkt prefix with
  | Success result => ret (listing result)
  | r => logRemoteError r ;; osExit 1
  end.

Definition Join (dir name : string) : string := dir +:+ "/" +:+ name.

Definition osCreate (e : Env) (path : string) : M bool :=
  emit (OsCreate path) ;; ret (Create e path).

(** [DownloadObject] as [s3.go] has it: it creates the file it writes
    to, named by the key, in the working directory (the file handle the
    callers in [provider.go] pass as well is not a parameter of it). *)
Definition DownloadObject (e : Env) (bkt k : string) : M unit :=
  ok <- osCreate e (Join (Getwd e) k) ;;
  if negb ok then logFatal "donwload file create failed" else
  emit (CallDownload bkt k) ;;
  match DownloadWithContext e bkt k with
  | Success n => logPrint "download success"
  | r => logRemoteError r ;; osExit 1
  end.

(** Modelled from the spec: [Detail] is absent; it is the spec's
    [GetMetadata], and like the three remote calls of [s3.go] it has no
    error result to hand back, so a failure ends the process. *)
Definition Detail (e : Env) (bkt k : string) : M Metadata :=
  emit (CallDetail bkt k) ;;
  match DetailResp e bkt k with
  | Success md => ret md
  | r => logRemoteError r ;; osExit 1
  end.

(** ** provider.go *)

Definition menuItems : list MenuItem :=
  [ NewMenuItem "download" "w" "download file." CommandDownload;
    NewMenuItem "open" "o" "open file." CommandOpen;
    NewMenuItem "edit" "e" "open editor by file." CommandEdit ].

(** The zero value [&Provider{}] on an empty heap. *)
Definition zeroProvider : Provider :=
  mkProvider StateList None "" (mkListView [] "" 0) (mkNavigationView "" "")
             (mkStatusView "") (mkMenuView [] 0) (mkDetailView None "" 0).

Definition zeroMachine : Machine := mkMachine zeroProvider [] [].

Definition Init (e : Env) : M unit :=
  objs <- ListBuckets e ;;
  rootNode <- NewNode "" None objs ;;
  modifyProvider (set_status StateList) ;;
  modifyProvider (set_navigator (Some rootNode)) ;;
  n <- load (Some rootNode) ;;
  modifyProvider (set_listView (mkListView (objects n) (key n) 0)) ;;
  modifyProvider (set_navigationView (mkNavigationView "" "")) ;;
  modifyProvider (set_msg "") ;;
  modifyProvider (set_menuView (mkMenuView menuItems 0)) ;;
  modifyProvider (set_detailView (mkDetailView None "" 0)).

Definition Update : M unit :=
  p <- getProvider ;;
  n <- load (navigator p) ;;
  modifyProvider (set_navigationView (mkNavigationView (bucket p) (key n))).

Definition NewProvider (e : Env) : M unit := Init e ;; Update.

Definition getCursorObject : M S3Object :=
  p <- getProvider ;;
  match cursorObject (listView p) with
  | Some obj => ret obj
  | None => panic
  end.

Definition reloadWith (objs : list S3Object) : M unit :=
  p <- getProvider ;;
  modifyNode (navigator p) (setObjects objs) ;;
  n <- load (navigator p) ;;
  modifyProvider (fun q => set_listView (lv_setObjects (objects n) (listView q)) q).

Definition reload (e : Env) : M unit :=
  p <- getProvider ;;
  n <- load (navigator p) ;;
  h <- getHeap ;;
  if IsRoot n then
    objs <- ListBuckets e ;; reloadWith objs
  else if IsBucketRoot h n then
    objs <- ListObjects e (bucket p) "" ;; reloadWith objs
  else
    objs <- ListObjects e (bucket p) (key n) ;; reloadWith objs.

Definition s3path (bucketName name : string) : string :=
  "s3://" +:+ bucketName +:+ "/" +:+ name.

Definition download (e : Env) : M unit :=
  obj <- getCursorObject ;;
  p <- getProvider ;;
  let bucketName := bucket p in
  match ObjType obj with
  | Object =>
      ok <- osCreate e (Join (Getwd e) (Filename e (Name obj))) ;;
      if negb ok then logFatal "failed create donwload reader" else
      DownloadObject e bucketName (Name obj) ;;
      modifyProvider (set_msg ("download complate. " +:+ s3path bucketName (Name obj)))
  | _ => logPrint "Invalid s3 object type"
  end.

Definition open (e : Env) : M unit :=
  obj <- getCursorObject ;;
  p <- getProvider ;;
  let bucketName := bucket p in
  match ObjType obj with
  | Object =>
      let f := Join (TempDir e) (Filename e (Name obj)) in
      ok <- osCreate e f ;;
      if negb ok then logFatal "failed create donwload reader" else
      DownloadObject e bucketName (Name obj) ;;
      emit (ExecOpen f) ;;
      if negb (Open e f) then logFatal "failed open file" else
      modifyProvider (set_msg ("open. " +:+ s3path bucketName (Name obj)))
  | _ => logPrint "Invalid s3 object type"
  end.

Definition edit (e : Env) : M unit :=
  obj <- getCursorObject ;;
  p <- getProvider ;;
  let bucketName := bucket p in
  match ObjType obj with
  | Object =>
      let f := Join (TempDir e) (Filename e (Name obj)) in
      ok <- osCreate e f ;;
      if negb ok then logFatal "failed create donwload reader" else
      DownloadObject e bucketName (Name obj) ;;
      emit TermboxClose ;;
      emit (ExecEditor f) ;;
      modifyProvider (set_msg ("edit. " +:+ s3path bucketName (Name obj))) ;;
      emit TermboxInit
  | _ => logPrint "Invalid s3 object type"
  end.

Definition showNode (child : option ptr) : M Node :=
  modifyProvider (set_navigator child) ;;
  n <- load child ;;
  modifyProvider (fun q => set_listView (updateList n (listView q)) q) ;;
  ret n.

Definition moveNext (k : string) : M unit :=
  p <- getProvider ;;
  n <- load (navigator p) ;;
  child <- showNode (GetChild n k) ;;
  logPrint ("Move next. child:" +:+ key child).

Definition loadNext (k : string) (objs : list S3Object) : M unit :=
  p <- getProvider ;;
  let parent := navigator p in
  c <- NewNode k parent objs ;;
  modifyNode parent (fun n => AddChild n k c) ;;
  child <- showNode (Some c) ;;
  pn <- load parent ;;
  logPrint ("Load next. parent:" +:+ key pn +:+ ", child:" +:+ key child).

Definition loadPrev : M unit :=
  p <- getProvider ;;
  n <- load (navigator p) ;;
  par <- showNode (parent n) ;;
  logPrint ("Load prev. parent:" +:+ key par).

Definition show (e : Env) (obj : S3Object) : M unit :=
  match ObjType obj with
  | Bucket =>
      let bucketName := Name obj in
      modifyProvider (set_bucket bucketName) ;;
      p <- getProvider ;;
      n <- load (navigator p) ;;
      if IsExistChildren n bucketName then moveNext bucketName else
      objs <- ListObjects e bucketName "" ;;
      loadNext bucketName objs
  | Dir =>
      p <- getProvider ;;
      let bucketName := bucket p in
      let objectKey := Name obj in
      n <- load (navigator p) ;;
      if IsExistChildren n objectKey then moveNext objectKey else
      objs <- ListObjects e bucketName objectKey ;;
      loadNext objectKey objs
  | PreDir => loadPrev
  | Object => ret tt
  end.

Definition menu : M unit := modifyProvider (set_status StateMenu).

Definition detail (e : Env) (obj : S3Object) : M unit :=
  modifyProvider (set_status StateDetail) ;;
  p <- getProvider ;;
  md <- Detail e (bucket p) (Name obj) ;;
  modifyProvider (fun q => set_detailView (mkDetailView (Some md) (Name obj) (dv_scroll (detailView q))) q).

(** *** Events *)

(** The keys of termbox the handlers compare with; every other key is
    [KeyOther]. *)
Inductive Key :=
| KeyEsc | KeyEnter
| KeyArrowUp | KeyArrowDown | KeyArrowLeft | KeyArrowRight
| KeyCtrlN | KeyCtrlP
| KeyOther.

#[global] Instance Key_eq_dec : EqDecision Key.
Proof. solve_decision. Defined.

Definition rune := Z.

(** The code point of an ASCII character, as a Go rune. *)
Definition runeOf (c : ascii) : rune := Z.of_N (N_of_ascii c).

Record Event := mkEvent { EvKey : Key; Ch : rune }.

Definition isKey (ev : Event) (k : Key) : bool := bool_decide (EvKey ev = k).
Definition isCh (ev : Event) (c : ascii) : bool := Ch ev =? runeOf c.

Definition isDown (ev : Event) : bool :=
  isCh ev "j" || isKey ev KeyArrowDown || isKey ev KeyCtrlN.

Definition isUp (ev : Event) : bool :=
  isCh ev "k" || isKey ev KeyArrowUp || isKey ev KeyCtrlP.

Definition moveList (delta : Z) : M unit :=
  modifyProvider (fun q => set_listView (lv_move (listView q) delta) q) ;;
  p <- getProvider ;;
  modifyNode (navigator p) (setPosition (cursorPos (listView p))).

(** On quit the handler starts a goroutine that raises the termbox
    interrupt, which makes [Loop] return; here the handler emits
    [TermboxInterrupt].  (The goroutine's one-second sleep before its
    panic is real time and is not modelled.) *)
Definition listEvent (e : Env) (ev : Event) : M unit :=
  if isKey ev KeyEsc || isCh ev "q" then
    emit TermboxInterrupt
  else if isDown ev then
    moveList 1
  else if isUp ev then
    moveList (-1)
  else if isCh ev "m" then
    menu
  else if isCh ev "d" then
    obj <- getCursorObject ;; detail e obj
  else if isCh ev "h" || isKey ev KeyArrowLeft then
    p <- getProvider ;;
    n <- load (navigator p) ;;
    if negb (IsRoot n) then loadPrev else ret tt
  else if isCh ev "r" then
    reload e
  else if isCh ev "w" then
    download e
  else if isCh ev "o" then
    open e
  else if isCh ev "e" then
    edit e
  else if isCh ev "l" || isKey ev KeyArrowRight || isKey ev KeyEnter then
    obj <- getCursorObject ;; show e obj
  else ret tt.

Definition menuEvent (e : Env) (ev : Event) : M unit :=
  if isDown ev then
    modifyProvider (fun q => set_menuView (menu_down (menuView q)) q)
  else if isUp ev then
    modifyProvider (fun q => set_menuView (menu_up (menuView q)) q)
  else if isCh ev "q" then
    modifyProvider (set_status StateList)
  else if isKey ev KeyEnter then
    p <- getProvider ;;
    match getCursorItem (menuView p) with
    | None => panic
    | Some item =>
        match command item with
        | CommandDownload => download e
        | CommandOpen => open e
        | CommandEdit => edit e
        end ;;
        modifyProvider (set_status StateList)
    end
  else ret tt.

Definition detailEvent (ev : Event) : M unit :=
  if isDown ev then
    modifyProvider (fun q => set_detailView (detail_down (detailView q)) q)
  else if isUp ev then
    modifyProvider (fun q => set_detailView (detail_up (detailView q)) q)
  else if isCh ev "q" then
    modifyProvider (set_status StateList)
  else ret tt.

Definition Handle (e : Env) (ev : Event) : M unit :=
  p <- getProvider ;;
  match status p with
  | StateList => listEvent e ev
  | StateMenu => menuEvent e ev
  | StateDetail => detailEvent ev
  end.

(** One turn of [Loop] on a key event: [Handle], then [Update]. *)
Definition turn (e : Env) (ev : Event) : M unit := Handle e ev ;; Update.

(** The states a session passes through: the one [NewProvider] builds,
    and every state a key event leads to while the process lives. *)
Inductive reachable : Machine -> Prop :=
| reachable_start e m :
    NewProvider e zeroMachine = Ok tt m -> reachable m
| reachable_turn e ev m m' :
    reachable m -> turn e ev m = Ok tt m' -> reachable m'.

(** ** Concrete environments and sessions used in examples *)

Definition env0 : Env :=
  {| ListBucketsWithContext := Success [ {| BucketName := "alpha"; CreationDate := Some 1 |};
                                         {| BucketName := "beta"; CreationDate := Some 2 |} ];
     ListObjectsWithContext := fun _ _ =>
       Success {| CommonPrefixes := ["logs/"];
                  Contents := [ {| ContentKey := "readme.txt"; LastModified := Some 3;
                                   ContentSize := Some 42 |} ] |};
     DownloadWithContext := fun _ _ => Success 42;
     DetailResp := fun _ _ => Success [];
     Getwd := "/home/u";
     TempDir := "/tmp/1";
     Create := fun _ => true;
     Open := fun _ => true;
     Filename := fun s => s |}.

Definition run (c : M unit) (m : Machine) : Machine :=
  match c m with Ok _ m' => m' | Exit _ m' => m' | Panic m' => m' end.

Definition enter : Event := mkEvent KeyEnter 0.
Definition press (c : ascii) : Event := mkEvent KeyOther (runeOf c).

Definition m_root : Machine := run (NewProvider env0) zeroMachine.
Definition m_alpha : Machine := run (turn env0 enter) m_root.

(** ** Vocabulary of the statements *)

Definition isOk {A} (o : Outcome A) : bool :=
  match o with Ok _ _ => true | _ => false end.

Definition exitCode {A} (o : Outcome A) : option Z :=
  match o with Exit c _ => Some c | _ => None end.

Definition failure {A} (x : Resp A) : Prop :=
  match x with Success _ => False | _ => True end.

Definition errorLog {A} (x : Resp A) : string :=
  match x with
  | Canceled => "upload canceled due to timeout"
  | _ => "failed to upload object"
  end.

(** [preserves R c]: every run of [c] that returns relates the state
    before to the state after by [R]. *)
Definition preserves {A} (R : Machine -> Machine -> Prop) (c : M A) : Prop :=
  forall m a m', c m = Ok a m' -> R m m'.

(** ** The invariant of the navigation tree *)

Definition onlyBuckets (objs : list S3Object) : Prop :=
  Forall (fun o => ObjType o = Bucket) objs.

Record wf_heap (h : list Node) : Prop := {
  wf_parent : forall i n q, h !! i = Some n -> parent n = Some q -> is_Some (h !! q);
  wf_child : forall i n k c, h !! i = Some n -> children n !! k = Some c ->
             exists cn, h !! c = Some cn /\ parent cn = Some i;
  wf_root : forall i n, h !! i = Some n -> parent n = None -> onlyBuckets (objects n)
}.

(** The list view shows the node the navigator points to. *)
Definition wf_nav (m : Machine) : Prop :=
  exists i n, navigator (prov m) = Some i /\ heap m !! i = Some n /\
              listView (prov m) = mkListView (objects n) (key n) (position n).

Definition wf (m : Machine) : Prop := wf_heap (heap m) /\ wf_nav m.

(** What an event handler may touch without moving the user: the
    navigator, the list view (and so the cursor), the bucket and the
    whole tree stay as they are. *)
Definition sameNavigation (m m' : Machine) : Prop :=
  navigator (prov m') = navigator (prov m) /\
  listView (prov m') = listView (prov m) /\
  bucket (prov m') = bucket (prov m) /\
  heap m' = heap m.

(** Only the status line and the trace change. *)
Definition onlyStatusLine (m m' : Machine) : Prop :=
  sameNavigation m m' /\ status (prov m') = status (prov m) /\
  menuView (prov m') = menuView (prov m) /\ detailView (prov m') = detailView (prov m) /\
  navigationView (prov m') = navigationView (prov m).

(** The cache of children is never emptied: a binding of a key stays. *)
Definition childrenKept (m m' : Machine) : Prop :=
  forall i n k c, heap m !! i = Some n -> children n !! k = Some c ->
  exists n', heap m' !! i = Some n' /\ children n' !! k = Some c.

Definition addLog (s : string) (m : Machine) : Machine :=
  mkMachine (prov m) (heap m) (trace m ++ [LogPrint s]).

(** Relations between the state before and the state after that are
    closed under sequencing and blind to the trace. *)
Class Frame (R : Machine -> Machine -> Prop) : Prop := {
  frame_refl : forall m, R m m;
  frame_trans : forall m1 m2 m3, R m1 m2 -> R m2 m3 -> R m1 m3;
  frame_trace : forall m t, R m (mkMachine (prov m) (heap m) t)
}.

(** A step from a well-formed state ends in a well-formed state that
    has kept every cached child. *)
Definition goodStep (m m' : Machine) : Prop := wf m -> wf m' /\ childrenKept m m'.

(** [always R c]: whatever the outcome of [c] (return, exit or panic),
    the state it ends in is related to the state before by [R]. *)
Definition outcomeMachine {A} (o : Outcome A) : Machine :=
  match o with Ok _ m => m | Exit _ m => m | Panic m => m end.

Definition always {A} (R : Machine -> Machine -> Prop) (c : M A) : Prop :=
  forall m, R m (outcomeMachine (c m)).

(** The trace grew by effects that all satisfy [P]. *)
Definition emitsOnly (P : Effect -> bool) (m m' : Machine) : Prop :=
  exists t, trace m' = trace m ++ t /\ forallb P t = true.




(** Several turns of the loop, each returning. *)
Inductive turns : Machine -> Machine -> Prop :=
| turns_refl m : turns m m
| turns_step e ev m m' m'' : turn e ev m = Ok tt m' -> turns m' m'' -> turns m m''.

(** ** Further environments and sessions used in examples *)

Definition withListObjects (f : string -> string -> Resp ListObjectsOutput) (e : Env) : Env :=
  {| ListBucketsWithContext := ListBucketsWithContext e;
     ListObjectsWithContext := f;
     DownloadWithContext := DownloadWithContext e;
     DetailResp := DetailResp e;
     Getwd := Getwd e; TempDir := TempDir e;
     Create := Create e; Open := Open e; Filename := Filename e |}.

Definition withDownload (f : string -> string -> Resp Z) (e : Env) : Env :=
  {| ListBucketsWithContext := ListBucketsWithContext e;
     ListObjectsWithContext := ListObjectsWithContext e;
     DownloadWithContext := f;
     DetailResp := DetailResp e;
     Getwd := Getwd e; TempDir := TempDir e;
     Create := Create e; Open := Open e; Filename := Filename e |}.

Definition withCreate (f : string -> bool) (e : Env) : Env :=
  {| ListBucketsWithContext := ListBucketsWithContext e;
     ListObjectsWithContext := ListObjectsWithContext e;
     DownloadWithContext := DownloadWithContext e;
     DetailResp := DetailResp e;
     Getwd := Getwd e; TempDir := TempDir e;
     Create := f; Open := Open e; Filename := Filename e |}.

(** The listing of [alpha] on screen, the cursor on [logs/] ... *)
Definition m_dir : Machine := run (turn env0 (press "j")) m_alpha.
(** ... on [readme.txt] ... *)
Definition m_leaf : Machine := run (turn env0 (press "j")) m_dir.
(** ... and the menu opened over it. *)
Definition m_menu : Machine := run (turn env0 (press "m")) m_leaf.

Definition isUpDir (o : S3Object) : bool := bool_decide (ObjType o = PreDir).

Definition hasUpDir (objs : list S3Object) : bool := existsb isUpDir objs.

Definition upDir : S3Object := NewS3Object PreDir ".." None None.
Definition group (cp : string) : S3Object := NewS3Object Dir cp None None.
Definition leaf (c : ContentInfo) : S3Object :=
  NewS3Object Object (ContentKey c) (LastModified c) (ContentSize c).

(** A remote store that fails every listing, one that times out on
    every download, one that lists nothing, and a file system that
    refuses to create files. *)
Definition env_listFailed : Env := withListObjects (fun _ _ => Failed) env0.
Definition env_downloadCanceled : Env := withDownload (fun _ _ => Canceled) env0.
Definition env_emptyListing : Env :=
  withListObjects (fun _ _ => Success {| CommonPrefixes := []; Contents := [] |}) env0.
Definition env_createFailed : Env := withCreate (fun _ => false) env0.

(** A store where every remote call fails. *)
Definition env_down : Env :=
  {| ListBucketsWithContext := Failed;
     ListObjectsWithContext := fun _ _ => Canceled;
     DownloadWithContext := fun _ _ => Canceled;
     DetailResp := fun _ _ => Failed;
     Getwd := "/home/u";
     TempDir := "/tmp/1";
     Create := fun _ => true;
     Open := fun _ => true;
     Filename := fun s => s |}.

Definition nodeAt (m : Machine) (i : nat) : Node :=
  default (mkNode "" None [] 0 ∅) (heap m !! i).

(** The Menu-mode inputs, as [menuEvent] tells them apart. *)
Definition isCancel (ev : Event) : bool :=
  negb (isDown ev) && negb (isUp ev) && isCh ev "q".

Definition isActivate (ev : Event) : bool :=
  negb (isDown ev) && negb (isUp ev) && negb (isCh ev "q") && isKey ev KeyEnter.

(** The menu opened over the Group [logs/]. *)
Definition m_menu_dir : Machine := run (turn env0 (press "m")) m_dir.

(** What [reload] asks the store for, by the place of the node in the
    tree: all buckets at the root, the top level of the bucket at a
    bucket root, the node's own key below. *)
Definition freshEntries (e : Env) (m : Machine) (n : Node) : Resp (list S3Object) :=
  if IsRoot n then
    match ListBucketsWithContext e with
    | Success buckets =>
        Success (map (fun b => NewS3Object Bucket (BucketName b) (CreationDate b) None) buckets)
    | Canceled => Canceled
    | Failed => Failed
    end
  else
    match ListObjectsWithContext e (bucket (prov m))
            (if IsBucketRoot (heap m) n then "" else key n) with
    | Success result => Success (listing result)
    | Canceled => Canceled
    | Failed => Failed
    end.

(** The cursor index the spec asks of [Refresh]. *)
Definition clampedCursor (cursor : Z) (fresh : list S3Object) : Z :=
  match fresh with
  | [] => 0
  | _ => Z.min cursor (Z.of_nat (length fresh) - 1)
  end.

(** Back at the root, the child [alpha] cached. *)
Definition m_back : Machine := run (turn env0 (press "h")) m_alpha.

(** Where [show] starts its descent from, and the listing it asks for
    on a miss: a Bucket entry first becomes the current bucket and is
    listed at its top level, a Dir entry is listed in the current
    bucket under its own key. *)
Definition descentStart (obj : S3Object) (m : Machine) : Machine :=
  match ObjType obj with
  | Bucket => mkMachine (set_bucket (Name obj) (prov m)) (heap m) (trace m)
  | _ => m
  end.

Definition descentCall (obj : S3Object) (m : Machine) : Effect :=
  match ObjType obj with
  | Bucket => CallListObjects (Name obj) ""
  | _ => CallListObjects (bucket (prov m)) (Name obj)
  end.

Definition alphaEntry : S3Object := NewS3Object Bucket "alpha" (Some 1) None.

(** The first descent into [alpha], before [Update], and the state
    after going back up from there. *)
Definition m_first : Machine := run (show env0 alphaEntry) m_root.
Definition m_again : Machine := run (turn env0 (press "h")) m_first.

(** ** Further vocabulary: what a run keeps *)

(** A field of the provider is the same before and after. *)
Definition keepsField {A} (f : Provider -> A) (m m' : Machine) : Prop :=
  f (prov m') = f (prov m).

(** Every node is still there, under the same index, with the key and
    the parent it was created with. *)
Definition nodesKept (m m' : Machine) : Prop :=
  forall (i : nat) n, heap m !! i = Some n ->
  exists n', heap m' !! i = Some n' /\ key n' = key n /\ parent n' = parent n.

(** The mode a key leads to, by the mode it is pressed in. *)
Definition nextStatus (st : ProviderStatus) (ev : Event) : ProviderStatus :=
  match st with
  | StateList =>
      if isKey ev KeyEsc || isCh ev "q" then StateList
      else if isDown ev then StateList
      else if isUp ev then StateList
      else if isCh ev "m" then StateMenu
      else if isCh ev "d" then StateDetail
      else StateList
  | StateMenu => if isCancel ev || isActivate ev then StateList else StateMenu
  | StateDetail =>
      if isDown ev then StateDetail
      else if isUp ev then StateDetail
      else if isCh ev "q" then StateList
      else StateDetail
  end.

(** What a level of the tree lists, by its place: Bucket entries only
    at the root; below the root the [..] entry first, then Dir and
    Object entries.  A size is carried by Object entries only. *)
Definition belowRootListing (objs : list S3Object) : Prop :=
  exists rest, objs = upDir :: rest /\
               Forall (fun o => ObjType o = Dir \/ ObjType o = Object) rest.

Definition sizeOnlyOnLeaf (objs : list S3Object) : Prop :=
  Forall (fun o => Size o <> None -> ObjType o = Object) objs.

Definition listingOK (n : Node) : Prop :=
  match parent n with
  | None => onlyBuckets (objects n)
  | Some _ => belowRootListing (objects n)
  end /\ sizeOnlyOnLeaf (objects n).

Definition kindsOK (m : Machine) : Prop :=
  forall (i : nat) n, heap m !! i = Some n -> listingOK n.

Definition kindsStep (m m' : Machine) : Prop := kindsOK m -> kindsOK m'.

(** A child is cached under its own key. *)
Definition keysOK (h : list Node) : Prop :=
  forall (i : nat) n k (c : nat), h !! i = Some n -> children n !! k = Some c ->
  exists cn, h !! c = Some cn /\ key cn = k.

Definition keysStep (m m' : Machine) : Prop := keysOK (heap m) -> keysOK (heap m').

(** Node [i] lies in bucket [b]: it is the child of the root with key
    [b], or it lies below that child. *)
Inductive inBucket (h : list Node) : nat -> string -> Prop :=
| inBucket_top (i : nat) n (q : nat) qn :
    h !! i = Some n -> parent n = Some q -> h !! q = Some qn -> parent qn = None ->
    inBucket h i (key n)
| inBucket_below (i : nat) n (q : nat) b :
    h !! i = Some n -> parent n = Some q -> inBucket h q b -> inBucket h i b.

(** Below the root the navigator is inside the current bucket. *)
Definition navScoped (m : Machine) : Prop :=
  forall (i : nat) n, navigator (prov m) = Some i -> heap m !! i = Some n ->
  parent n <> None -> inBucket (heap m) i (bucket (prov m)).

(** The listing [reload] asks for at a node below the root. *)
Definition reloadCall (m : Machine) (n : Node) : Effect :=
  CallListObjects (bucket (prov m)) (if IsBucketRoot (heap m) n then "" else key n).

(** The shape of the tree: node 0 is the root and the only node without
    a parent; a parent was created before its children and holds each
    of them under the child's key. *)
Definition treeShape (h : list Node) : Prop :=
  forall (i : nat) n, h !! i = Some n ->
    (parent n = None <-> i = 0%nat) /\
    (forall q : nat, parent n = Some q ->
       (q < i)%nat /\ exists qn, h !! q = Some qn /\ children qn !! key n = Some i).

Definition isPanic {A} (o : Outcome A) : bool :=
  match o with Panic _ => true | _ => false end.

(** [neverPanics c]: from no state does [c] dereference nil or index
    out of range. *)
Definition neverPanics {A} (c : M A) : Prop := forall m, isPanic (c m) = false.

(** What a transfer that succeeds adds to the trace. *)
Definition fetchTrace (e : Env) (bkt k : string) : list Effect :=
  [OsCreate (Join (Getwd e) k); CallDownload bkt k; LogPrint "download success"].

(** ** The event loop *)

(** The events [PollEvent] hands to [Loop]: a key, an error, the
    interrupt, or an event of a type the loop does nothing on. *)
Inductive TermboxEvent :=
| EventKey (ev : Event)
| EventError
| EventInterrupt
| EventOther.

(** [Loop] over the events polled so far, each with what the world
    answers while it is handled.  It returns [true] when it has
    returned (on the interrupt) and [false] when it is waiting in
    [PollEvent] for the next event.  Drawing is not modelled. *)
Fixpoint Loop (evs : list (Env * TermboxEvent)) : M bool :=
  match evs with
  | [] => ret false
  | (e, EventKey ev) :: rest => turn e ev ;; Loop rest
  | (_, EventError) :: _ => panic
  | (_, EventInterrupt) :: _ => ret true
  | (_, EventOther) :: rest => Loop rest
  end.

(** ** Remote calls per turn *)

Definition notRemote (x : Effect) : bool := negb (isRemoteCall x).

(** [c] makes no remote call, whatever its outcome. *)
Definition silent {A} (c : M A) : Prop := always (emitsOnly notRemote) c.

(** [c] makes at most one remote call, whatever its outcome. *)
Definition atMostOne {A} (c : M A) : Prop :=
  forall m, exists t, trace (outcomeMachine (c m)) = trace m ++ t /\
                      (length (remoteCalls t) <= 1)%nat.

(** ** The action a menu item stands for *)

Definition actionOf (c : Command) (e : Env) : M unit :=
  match c with
  | CommandDownload => download e
  | CommandOpen => open e
  | CommandEdit => edit e
  end.

(** The local file an action creates before the transfer: in the
    working directory for download, in the temporary directory for open
    and edit. *)
Definition destination (c : Command) (e : Env) (obj : S3Object) : string :=
  Join (match c with CommandDownload => Getwd e | _ => TempDir e end)
       (Filename e (Name obj)).


(** ** What [Loop] does with the events *)

(** The key events [Loop] handles: those before the first interrupt or
    error, in the order polled. *)
Fixpoint handled (evs : list (Env * TermboxEvent)) : list (Env * Event) :=
  match evs with
  | [] => []
  | (e, EventKey ev) :: rest => (e, ev) :: handled rest
  | (_, EventOther) :: rest => handled rest
  | (_, EventError) :: _ => []
  | (_, EventInterrupt) :: _ => []
  end.

(** How the polled events end: the loop is waiting for more, has
    returned on an interrupt, or has panicked on an error. *)
Inductive LoopEnd := Waiting | Returned | Failing.

Fixpoint ending (evs : list (Env * TermboxEvent)) : LoopEnd :=
  match evs with
  | [] => Waiting
  | (_, EventKey _) :: rest => ending rest
  | (_, EventOther) :: rest => ending rest
  | (_, EventError) :: _ => Failing
  | (_, EventInterrupt) :: _ => Returned
  end.

(** One turn per key event, in order. *)
Fixpoint turnsOf (kevs : list (Env * Event)) : M unit :=
  match kevs with
  | [] => ret tt
  | (e, ev) :: rest => turn e ev ;; turnsOf rest
  end.

Definition finish (x : LoopEnd) : M bool :=
  match x with
  | Waiting => ret false
  | Returned => ret true
  | Failing => panic
  end.

(** * Reasoning about computations *)

Lemma bind_Ok {A B} (c : M A) (k : A -> M B) m b m' :
  bind c k m = Ok b m' -> exists a m1, c m = Ok a m1 /\ k a m1 = Ok b m'.
Proof.
unfold bind. destruct (c m) as [a m1| |]; try discriminate. eauto.
Qed.

Lemma bind_step {A B} (c : M A) (k : A -> M B) m a m1 :
  c m = Ok a m1 -> bind c k m = k a m1.
Proof. unfold bind. now intros ->. Qed.

Lemma bind_Exit {A B} (c : M A) (k : A -> M B) m code m1 :
  c m = Exit code m1 -> bind c k m = Exit code m1.
Proof. unfold bind. now intros ->. Qed.

Lemma bind_Panic {A B} (c : M A) (k : A -> M B) m m1 :
  c m = Panic m1 -> bind c k m = Panic m1.
Proof. unfold bind. now intros ->. Qed.

Section Preserves.
Context (R : Machine -> Machine -> Prop) `{!Frame R}.

Lemma preserves_ret {A} (a : A) : preserves R (ret a).
Proof. intros m a' m' H. inversion H; subst. apply frame_refl. Qed.

Lemma preserves_bind {A B} (c : M A) (k : A -> M B) :
  preserves R c -> (forall a, preserves R (k a)) -> preserves R (bind c k).
Proof.
  intros Hc Hk m b m' H. apply bind_Ok in H as (a & m1 & H1 & H2).
  eapply frame_trans; [eapply Hc | eapply Hk]; eauto.
Qed.

Lemma preserves_getProvider : preserves R getProvider.
Proof. intros m a m' H. inversion H; subst. apply frame_refl. Qed.

Lemma preserves_getHeap : preserves R getHeap.
Proof. intros m a m' H. inversion H; subst. apply frame_refl. Qed.

Lemma preserves_load p : preserves R (load p).
Proof.
  intros m a m' H. unfold load in H.
  destruct p as [i|]; [destruct (heap m !! i)|]; inversion H; subst. apply frame_refl.
Qed.

Lemma preserves_osExit {A} code : preserves R (@osExit A code).
Proof. intros m a m' H. discriminate. Qed.

Lemma preserves_panic {A} : preserves R (@panic A).
Proof. intros m a m' H. discriminate. Qed.

Lemma preserves_emit x : preserves R (emit x).
Proof. intros m a m' H. inversion H; subst. apply frame_trace. Qed.

Lemma preserves_if {A} (b : bool) (c1 c2 : M A) :
  preserves R c1 -> preserves R c2 -> preserves R (if b then c1 else c2).
Proof. now destruct b. Qed.

Lemma preserves_modifyProvider f :
  (forall m, R m (mkMachine (f (prov m)) (heap m) (trace m))) ->
  preserves R (modifyProvider f).
Proof. intros Hf m a m' H. inversion H; subst. apply Hf. Qed.
End Preserves.

Ltac frame_side := try solve [typeclasses eauto | assumption].

Ltac pres_step :=
  first
    [ apply preserves_ret; frame_side
    | apply preserves_getProvider; frame_side
    | apply preserves_getHeap; frame_side
    | apply preserves_load; frame_side
    | apply preserves_osExit
    | apply preserves_panic
    | apply preserves_emit; frame_side
    | apply preserves_bind; frame_side; [ | intros ? ]
    | apply preserves_if
    | match goal with
      | |- preserves _ (match ?x with _ => _ end) => destruct x
      end ].

Ltac pres := cbv zeta; repeat (pres_step; cbv zeta).

Section TraceOnly.
Context (R : Machine -> Machine -> Prop) `{!Frame R}.

Lemma preserves_logPrint s : preserves R (logPrint s).
Proof. unfold logPrint. pres. Qed.

Lemma preserves_logFatal {A} s : preserves R (@logFatal A s).
Proof. unfold logFatal, logPrint. pres. Qed.

Lemma preserves_osCreate e path : preserves R (osCreate e path).
Proof. unfold osCreate. pres. Qed.

Lemma preserves_ListBuckets e : preserves R (ListBuckets e).
Proof. unfold ListBuckets, logRemoteError, logPrint. pres. Qed.

Lemma preserves_ListObjects e b p : preserves R (ListObjects e b p).
Proof. unfold ListObjects, logRemoteError, logPrint. pres. Qed.

Lemma preserves_DownloadObject e b k : preserves R (DownloadObject e b k).
Proof. unfold DownloadObject, osCreate, logFatal, logRemoteError, logPrint. pres. Qed.

Lemma preserves_Detail e b k : preserves R (Detail e b k).
Proof. unfold Detail, logRemoteError, logPrint. pres. Qed.

Lemma preserves_getCursorObject : preserves R getCursorObject.
Proof. unfold getCursorObject. pres. Qed.
End TraceOnly.

#[global] Instance sameNavigation_Frame : Frame sameNavigation.
Proof.
  split.
  - intros m. repeat split.
  - intros m1 m2 m3 (H1 & H2 & H3 & H4) (H5 & H6 & H7 & H8).
    repeat split; congruence.
  - intros m t. repeat split.
Qed.

#[global] Instance onlyStatusLine_Frame : Frame onlyStatusLine.
Proof.
  split.
  - intros m. repeat split.
  - intros m1 m2 m3 (H1 & H2 & H3 & H4 & H4') (H5 & H6 & H7 & H8 & H8').
    split; [eapply frame_trans; eauto|]. repeat split; congruence.
  - intros m t. repeat split.
Qed.

#[global] Instance childrenKept_Frame : Frame childrenKept.
Proof.
  split.
  - intros m i n k c H1 H2. eauto.
  - intros m1 m2 m3 H1 H2 i n k c Hi Hk.
    destruct (H1 _ _ _ _ Hi Hk) as (n' & Hi' & Hk'). eauto.
  - intros m t i n k c H1 H2. simpl. eauto.
Qed.

Lemma onlyStatusLine_sameNavigation m m' : onlyStatusLine m m' -> sameNavigation m m'.
Proof. now intros [H _]. Qed.

#[global] Instance goodStep_Frame : Frame goodStep.
Proof.
  split.
  - intros m H. split; [exact H|]. apply frame_refl.
  - intros m1 m2 m3 H1 H2 H. destruct (H1 H) as [H' K1]. destruct (H2 H') as [H'' K2].
    split; [exact H''|]. eapply frame_trans; eauto.
  - intros m t H. split; [exact H|]. apply frame_trace.
Qed.

Lemma sameNavigation_wf m m' : sameNavigation m m' -> wf m -> wf m'.
Proof.
  intros (Hn & Hl & _ & Hh) [Hheap (i & n & H1 & H2 & H3)]. split.
  - now rewrite Hh.
  - exists i, n. rewrite Hn, Hl, Hh. auto.
Qed.

Lemma sameNavigation_childrenKept m m' : sameNavigation m m' -> childrenKept m m'.
Proof. intros (_ & _ & _ & Hh) i n k c H1 H2. rewrite Hh. eauto. Qed.

Lemma sameNavigation_goodStep m m' : sameNavigation m m' -> goodStep m m'.
Proof.
  intros H Hwf. split; [eapply sameNavigation_wf; eauto|].
  now apply sameNavigation_childrenKept.
Qed.

Lemma preserves_weaken {A} (R1 R2 : Machine -> Machine -> Prop) (c : M A) :
  (forall m m', R1 m m' -> R2 m m') -> preserves R1 c -> preserves R2 c.
Proof. intros HR H m a m' Hc. eapply HR, H, Hc. Qed.

(** ** The actions touch the status line and the trace only *)

Lemma set_msg_onlyStatusLine s m :
  onlyStatusLine m (mkMachine (set_msg s (prov m)) (heap m) (trace m)).
Proof. repeat split. Qed.

Ltac pres_action :=
  repeat first
    [ apply preserves_logPrint; frame_side
    | apply preserves_logFatal; frame_side
    | apply preserves_osCreate; frame_side
    | apply preserves_DownloadObject; frame_side
    | apply preserves_getCursorObject; frame_side
    | apply preserves_modifyProvider; intros ?; apply set_msg_onlyStatusLine
    | pres_step; cbv zeta ].

Lemma download_onlyStatusLine e : preserves onlyStatusLine (download e).
Proof. unfold download. pres_action. Qed.

Lemma open_onlyStatusLine e : preserves onlyStatusLine (open e).
Proof. unfold open. pres_action. Qed.

Lemma edit_onlyStatusLine e : preserves onlyStatusLine (edit e).
Proof. unfold edit. pres_action. Qed.


(** ** The remote calls of s3.go *)

Lemma ListBuckets_Success e m buckets :
  ListBucketsWithContext e = Success buckets ->
  ListBuckets e m =
    Ok (map (fun b => NewS3Object Bucket (BucketName b) (CreationDate b) None) buckets)
       (mkMachine (prov m) (heap m) (trace m ++ [CallListBuckets])).
Proof. intros H. unfold ListBuckets, bind, emit. simpl. now rewrite H. Qed.

Lemma ListObjects_Success e bkt prefix m result :
  ListObjectsWithContext e bkt prefix = Success result ->
  ListObjects e bkt prefix m =
    Ok (listing result)
       (mkMachine (prov m) (heap m) (trace m ++ [CallListObjects bkt prefix])).
Proof. intros H. unfold ListObjects, bind, emit. simpl. now rewrite H. Qed.

Lemma ListBuckets_failure e m :
  failure (ListBucketsWithContext e) ->
  ListBuckets e m =
    Exit 1 (mkMachine (prov m) (heap m)
              ((trace m ++ [CallListBuckets]) ++ [LogPrint (errorLog (ListBucketsWithContext e))])).
Proof.
intros H. unfold ListBuckets, bind, emit. simpl.
destruct (ListBucketsWithContext e); [destruct H| |]; reflexivity.
Qed.

Lemma ListObjects_failure e bkt prefix m :
  failure (ListObjectsWithContext e bkt prefix) ->
  ListObjects e bkt prefix m =
    Exit 1 (mkMachine (prov m) (heap m)
              ((trace m ++ [CallListObjects bkt prefix])
                 ++ [LogPrint (errorLog (ListObjectsWithContext e bkt prefix))])).
Proof.
intros H. unfold ListObjects, bind, emit. simpl.
destruct (ListObjectsWithContext e bkt prefix); [destruct H| |]; reflexivity.
Qed.

Lemma DownloadObject_failure e bkt k m :
  Create e (Join (Getwd e) k) = true ->
  failure (DownloadWithContext e bkt k) ->
  DownloadObject e bkt k m =
    Exit 1 (mkMachine (prov m) (heap m)
              (((trace m ++ [OsCreate (Join (Getwd e) k)]) ++ [CallDownload bkt k])
                 ++ [LogPrint (errorLog (DownloadWithContext e bkt k))])).
Proof.
intros Hc H. unfold DownloadObject, osCreate, bind, emit, ret. simpl. rewrite Hc. simpl.
destruct (DownloadWithContext e bkt k); [destruct H| |]; reflexivity.
Qed.

Lemma DownloadObject_create_failure e bkt k m :
  Create e (Join (Getwd e) k) = false ->
  DownloadObject e bkt k m =
    Exit 1 (mkMachine (prov m) (heap m)
              ((trace m ++ [OsCreate (Join (Getwd e) k)])
                 ++ [LogPrint "donwload file create failed"])).
Proof.
intros Hc. unfold DownloadObject, osCreate, bind, emit, ret. simpl. rewrite Hc. reflexivity.
Qed.

Lemma DownloadObject_Success e bkt k m n :
  Create e (Join (Getwd e) k) = true ->
  DownloadWithContext e bkt k = Success n ->
  DownloadObject e bkt k m =
    Ok tt (mkMachine (prov m) (heap m)
             (((trace m ++ [OsCreate (Join (Getwd e) k)]) ++ [CallDownload bkt k])
                ++ [LogPrint "download success"])).
Proof.
intros Hc H. unfold DownloadObject, osCreate, bind, emit, ret. simpl. rewrite Hc, H. reflexivity.
Qed.

(** ** Primitive steps, evaluated *)

Lemma getProvider_Ok m : getProvider m = Ok (prov m) m.
Proof. reflexivity. Qed.

Lemma getHeap_Ok m : getHeap m = Ok (heap m) m.
Proof. reflexivity. Qed.

Lemma modifyProvider_Ok f m :
  modifyProvider f m = Ok tt (mkMachine (f (prov m)) (heap m) (trace m)).
Proof. reflexivity. Qed.

Lemma emit_Ok x m : emit x m = Ok tt (mkMachine (prov m) (heap m) (trace m ++ [x])).
Proof. reflexivity. Qed.

Lemma logPrint_Ok s m : logPrint s m = Ok tt (addLog s m).
Proof. reflexivity. Qed.

Lemma NewNode_Ok k par objs m :
  NewNode k par objs m =
    Ok (length (heap m)) (mkMachine (prov m) (heap m ++ [mkNode k par objs 0 ∅]) (trace m)).
Proof. reflexivity. Qed.

Lemma getProvider_inv m p m' : getProvider m = Ok p m' -> p = prov m /\ m' = m.
Proof. intros H. inversion H; auto. Qed.

Lemma getHeap_inv m h m' : getHeap m = Ok h m' -> h = heap m /\ m' = m.
Proof. intros H. inversion H; auto. Qed.

Lemma modifyProvider_inv f m a m' :
  modifyProvider f m = Ok a m' -> m' = mkMachine (f (prov m)) (heap m) (trace m).
Proof. intros H. inversion H; auto. Qed.

Lemma emit_inv x m a m' :
  emit x m = Ok a m' -> m' = mkMachine (prov m) (heap m) (trace m ++ [x]).
Proof. intros H. inversion H; auto. Qed.

Lemma ret_inv {A} (a b : A) m m' : ret a m = Ok b m' -> b = a /\ m' = m.
Proof. intros H. inversion H; auto. Qed.

(** Peel the first step off a sequence that returned. *)
Tactic Notation "mstep" hyp(H) "as" ident(a) ident(H1) :=
  let m1 := fresh "m" in
  apply bind_Ok in H as (a & m1 & H1 & H);
  try first
    [ apply getProvider_inv in H1 as [-> ->]
    | apply getHeap_inv in H1 as [-> ->]
    | apply modifyProvider_inv in H1 as ->
    | apply emit_inv in H1 as -> ].

Lemma load_Ok m i n : heap m !! i = Some n -> load (Some i) m = Ok n m.
Proof. intros H. unfold load. now rewrite H. Qed.

Lemma load_inv p m n m' :
  load p m = Ok n m' -> m' = m /\ exists i, p = Some i /\ heap m !! i = Some n.
Proof.
  unfold load. destruct p as [i|]; [|discriminate].
  destruct (heap m !! i) eqn:E; [|discriminate].
  intros H. inversion H; subst. eauto.
Qed.

Lemma modifyNode_Ok m i n f :
  heap m !! i = Some n ->
  modifyNode (Some i) f m = Ok tt (mkMachine (prov m) (<[i := f n]> (heap m)) (trace m)).
Proof. intros H. unfold modifyNode. now rewrite (bind_step _ _ _ _ _ (load_Ok _ _ _ H)). Qed.

Lemma modifyNode_inv p f m m' :
  modifyNode p f m = Ok tt m' ->
  exists i n, p = Some i /\ heap m !! i = Some n /\
              m' = mkMachine (prov m) (<[i := f n]> (heap m)) (trace m).
Proof.
  unfold modifyNode. intros H. apply bind_Ok in H as (n & m1 & H1 & H2).
  apply load_inv in H1 as (-> & i & -> & Hi). inversion H2; subst. eauto.
Qed.

Lemma showNode_Ok m i n :
  heap m !! i = Some n ->
  showNode (Some i) m =
    Ok n (mkMachine (set_listView (updateList n (listView (prov m)))
                       (set_navigator (Some i) (prov m)))
            (heap m) (trace m)).
Proof.
  intros H. unfold showNode, bind, modifyProvider, load, ret. simpl. now rewrite H.
Qed.

Lemma showNode_inv p m n m' :
  showNode p m = Ok n m' ->
  exists i, p = Some i /\ heap m !! i = Some n /\
    m' = mkMachine (set_listView (updateList n (listView (prov m)))
                      (set_navigator (Some i) (prov m)))
           (heap m) (trace m).
Proof.
  unfold showNode. intros H.
  apply bind_Ok in H as ([] & m1 & H1 & H). inversion H1; subst; clear H1.
  apply bind_Ok in H as (n1 & m1 & H1 & H).
  apply load_inv in H1 as (-> & i & -> & Hi). simpl in Hi.
  apply bind_Ok in H as ([] & m1 & H1 & H). inversion H1; subst; clear H1.
  inversion H; subst. eauto.
Qed.

(** ** The invariant is established by [NewProvider] and kept by every turn *)

Lemma wf_heap_update (h : list Node) (i : nat) n n' :
  wf_heap h -> h !! i = Some n ->
  parent n' = parent n -> children n' = children n ->
  (parent n = None -> onlyBuckets (objects n')) ->
  wf_heap (<[i := n']> h).
Proof.
  intros [Hp Hc Hr] Hi Epar Ech Hroot.
  assert (Hlt : (i < length h)%nat) by (eapply lookup_lt_Some; eauto).
  assert (Hvalid : forall q, is_Some (h !! q) -> is_Some (<[i := n']> h !! q)).
  { intros q Hq. apply lookup_lt_is_Some. rewrite length_insert.
    now apply lookup_lt_is_Some. }
  assert (Hget : forall j x, <[i := n']> h !! j = Some x ->
            exists y, h !! j = Some y /\ parent x = parent y /\ children x = children y /\
                      (j <> i -> x = y) /\ (j = i -> x = n')).
  { intros j x Hj. destruct (decide (j = i)) as [E|Hne]; [subst j|].
    - rewrite list_lookup_insert_eq in Hj by done. inversion Hj; subst.
      exists n. repeat split; auto. congruence.
    - rewrite list_lookup_insert_ne in Hj by done. exists x. repeat split; auto. congruence. }
  split.
  - intros j x q Hj Hq. apply Hget in Hj as (y & Hy & Ep & _).
    apply Hvalid. eapply Hp; eauto. congruence.
  - intros j x k c Hj Hk. apply Hget in Hj as (y & Hy & _ & Ec & _).
    rewrite Ec in Hk. destruct (Hc _ _ _ _ Hy Hk) as (cn & Hcn & Hcp).
    destruct (decide (c = i)) as [E|Hne]; [subst c|].
    + exists n'. rewrite list_lookup_insert_eq by done. split; [done|].
      congruence.
    + exists cn. rewrite list_lookup_insert_ne by done. done.
  - intros j x Hj Hx. apply Hget in Hj as (y & Hy & Ep & _ & Hne & Heq).
    destruct (decide (j = i)) as [E|Hji]; [subst j|].
    + rewrite (Heq eq_refl). apply Hroot. rewrite Hi in Hy. inversion Hy; subst. congruence.
    + rewrite (Hne Hji). eapply Hr; eauto. congruence.
Qed.

Lemma wf_heap_newChild (h : list Node) (i : nat) n k objs :
  wf_heap h -> h !! i = Some n ->
  wf_heap (<[i := AddChild n k (length h)]> (h ++ [mkNode k (Some i) objs 0 ∅])).
Proof.
  intros [Hp Hc Hr] Hi.
  assert (Hlt : (i < length h)%nat) by (eapply lookup_lt_Some; eauto).
  set (new := mkNode k (Some i) objs 0 ∅).
  assert (Hget : forall j x, <[i := AddChild n k (length h)]> (h ++ [new]) !! j = Some x ->
            (j = i /\ x = AddChild n k (length h)) \/
            (j <> i /\ h !! j = Some x) \/
            (j = length h /\ x = new)).
  { intros j x Hj. destruct (decide (j = i)) as [E|Hne]; [subst j|].
    - rewrite list_lookup_insert_eq in Hj by (rewrite length_app; simpl; lia).
      inversion Hj; auto.
    - rewrite list_lookup_insert_ne in Hj by done.
      destruct (decide (j < length h)%nat).
      + rewrite lookup_app_l in Hj by done. auto.
      + rewrite lookup_app_r in Hj by lia.
        destruct (j - length h)%nat eqn:E; simpl in Hj; [|discriminate].
        inversion Hj; subst. right; right. split; [lia|done]. }
  assert (Hvalid : forall q, is_Some (h !! q) ->
            is_Some (<[i := AddChild n k (length h)]> (h ++ [new]) !! q)).
  { intros q Hq. apply lookup_lt_is_Some. rewrite length_insert, length_app.
    apply lookup_lt_is_Some in Hq. lia. }
  assert (Hold : forall c cn, h !! c = Some cn ->
            exists cn', <[i := AddChild n k (length h)]> (h ++ [new]) !! c = Some cn' /\
                        parent cn' = parent cn).
  { intros c cn Hcn. destruct (decide (c = i)) as [E|Hne]; [subst c|].
    - exists (AddChild n k (length h)).
      rewrite list_lookup_insert_eq by (rewrite length_app; simpl; lia).
      split; [done|]. simpl. congruence.
    - exists cn. rewrite list_lookup_insert_ne by done.
      rewrite lookup_app_l by (eapply lookup_lt_Some; eauto). done. }
  assert (Hnew : <[i := AddChild n k (length h)]> (h ++ [new]) !! length h = Some new).
  { rewrite list_lookup_insert_ne by lia. rewrite lookup_app_r by lia.
    now rewrite Nat.sub_diag. }
  split.
  - intros j x q Hj Hq. apply Hget in Hj as [[-> ->]|[[Hne Hj]|[-> ->]]].
    + simpl in Hq. apply Hvalid. eapply Hp; eauto.
    + apply Hvalid. eapply Hp; eauto.
    + simpl in Hq. inversion Hq; subst. apply Hvalid. eauto.
  - intros j x k' c Hj Hk. apply Hget in Hj as [[-> ->]|[[Hne Hj]|[-> ->]]].
    + simpl in Hk. destruct (decide (k = k')) as [->|Hkk].
      * rewrite lookup_insert_eq in Hk. inversion Hk; subst. exists new. done.
      * rewrite lookup_insert_ne in Hk by done.
        destruct (Hc _ _ _ _ Hi Hk) as (cn & Hcn & Hcp).
        destruct (Hold _ _ Hcn) as (cn' & ? & ?). exists cn'. split; [done|]. congruence.
    + destruct (Hc _ _ _ _ Hj Hk) as (cn & Hcn & Hcp).
      destruct (Hold _ _ Hcn) as (cn' & ? & ?). exists cn'. split; [done|]. congruence.
    + simpl in Hk. rewrite lookup_empty in Hk. discriminate.
  - intros j x Hj Hx. apply Hget in Hj as [[-> ->]|[[Hne Hj]|[-> ->]]].
    + simpl in *. eapply Hr; eauto.
    + eapply Hr; eauto.
    + simpl in Hx. discriminate.
Qed.

(** ** The moves of the navigator, evaluated *)

Section Moves.
Variables (m : Machine) (i : nat) (n : Node).
Hypothesis Hnav : navigator (prov m) = Some i.
Hypothesis Hi : heap m !! i = Some n.

Lemma moveList_Ok delta :
  moveList delta m =
    Ok tt (mkMachine (set_listView (lv_move (listView (prov m)) delta) (prov m))
             (<[i := setPosition (MoveCursor (listView (prov m)) delta) n]> (heap m))
             (trace m)).
Proof.
  unfold moveList, bind, modifyProvider, getProvider. simpl. rewrite Hnav.
  unfold modifyNode, bind, load. simpl. now rewrite Hi.
Qed.

Lemma reloadWith_Ok objs :
  reloadWith objs m =
    Ok tt (mkMachine (set_listView (lv_setObjects objs (listView (prov m))) (prov m))
             (<[i := setObjects objs n]> (heap m)) (trace m)).
Proof.
  assert (Hlt : (i < length (heap m))%nat) by (eapply lookup_lt_Some; eauto).
  unfold reloadWith.
  rewrite (bind_step _ _ _ _ _ (getProvider_Ok m)). rewrite Hnav.
  rewrite (bind_step _ _ _ _ _ (modifyNode_Ok m i n _ Hi)).
  match goal with |- bind (load _) _ ?mm = _ =>
    assert (H3 : heap mm !! i = Some (setObjects objs n)) end.
  { simpl. now apply list_lookup_insert_eq. }
  rewrite (bind_step _ _ _ _ _ (load_Ok _ _ _ H3)). reflexivity.
Qed.

Lemma loadPrev_Ok q qn :
  parent n = Some q -> heap m !! q = Some qn ->
  loadPrev m =
    Ok tt (addLog ("Load prev. parent:" +:+ key qn)
             (mkMachine (set_listView (updateList qn (listView (prov m)))
                           (set_navigator (Some q) (prov m)))
                (heap m) (trace m))).
Proof.
  intros Hq Hqn. unfold loadPrev.
  rewrite (bind_step _ _ _ _ _ (getProvider_Ok m)). rewrite Hnav.
  rewrite (bind_step _ _ _ _ _ (load_Ok _ _ _ Hi)). rewrite Hq.
  rewrite (bind_step _ _ _ _ _ (showNode_Ok _ _ _ Hqn)). reflexivity.
Qed.

Lemma loadPrev_root : parent n = None -> isOk (loadPrev m) = false.
Proof.
  intros Hq. unfold loadPrev.
  rewrite (bind_step _ _ _ _ _ (getProvider_Ok m)). rewrite Hnav.
  rewrite (bind_step _ _ _ _ _ (load_Ok _ _ _ Hi)). rewrite Hq. reflexivity.
Qed.

Lemma moveNext_Ok k c cn :
  children n !! k = Some c -> heap m !! c = Some cn ->
  moveNext k m =
    Ok tt (addLog ("Move next. child:" +:+ key cn)
             (mkMachine (set_listView (updateList cn (listView (prov m)))
                           (set_navigator (Some c) (prov m)))
                (heap m) (trace m))).
Proof.
  intros Hc Hcn. unfold moveNext.
  rewrite (bind_step _ _ _ _ _ (getProvider_Ok m)). rewrite Hnav.
  rewrite (bind_step _ _ _ _ _ (load_Ok _ _ _ Hi)). unfold GetChild. rewrite Hc.
  rewrite (bind_step _ _ _ _ _ (showNode_Ok _ _ _ Hcn)). reflexivity.
Qed.

Lemma loadNext_Ok k objs :
  loadNext k objs m =
    Ok tt (addLog ("Load next. parent:" +:+ key n +:+ ", child:" +:+ k)
             (mkMachine (set_listView (updateList (mkNode k (Some i) objs 0 ∅) (listView (prov m)))
                           (set_navigator (Some (length (heap m))) (prov m)))
                (<[i := AddChild n k (length (heap m))]>
                   (heap m ++ [mkNode k (Some i) objs 0 ∅]))
                (trace m))).
Proof.
  assert (Hlt : (i < length (heap m))%nat) by (eapply lookup_lt_Some; eauto).
  set (new := mkNode k (Some i) objs 0 ∅).
  set (m1 := mkMachine (prov m) (heap m ++ [new]) (trace m)).
  assert (H1 : heap m1 !! i = Some n) by (simpl; now rewrite lookup_app_l).
  set (m2 := mkMachine (prov m1) (<[i := AddChild n k (length (heap m))]> (heap m1)) (trace m1)).
  assert (H2 : heap m2 !! length (heap m) = Some new).
  { simpl. rewrite list_lookup_insert_ne by lia. rewrite lookup_app_r by lia.
    now rewrite Nat.sub_diag. }
  unfold loadNext.
  rewrite (bind_step _ _ _ _ _ (getProvider_Ok m)). rewrite Hnav.
  rewrite (bind_step _ _ _ _ _ (NewNode_Ok k (Some i) objs m)). fold new. fold m1.
  rewrite (bind_step _ _ _ _ _ (modifyNode_Ok m1 i n _ H1)). fold m2.
  rewrite (bind_step _ _ _ _ _ (showNode_Ok _ _ _ H2)).
  match goal with |- bind (load _) _ ?mm = _ =>
    assert (H3 : heap mm !! i = Some (AddChild n k (length (heap m)))) end.
  { simpl. apply list_lookup_insert_eq. rewrite length_app. simpl. lia. }
  rewrite (bind_step _ _ _ _ _ (load_Ok _ _ _ H3)). reflexivity.
Qed.
End Moves.

(** ** Every handler keeps the tree well formed and the cache intact *)

Lemma childrenKept_update (m : Machine) (i : nat) n n' p t :
  heap m !! i = Some n -> children n' = children n ->
  childrenKept m (mkMachine p (<[i := n']> (heap m)) t).
Proof.
  intros Hi Hc j x k c Hj Hk. simpl.
  assert (Hlt : (i < length (heap m))%nat) by (eapply lookup_lt_Some; eauto).
  destruct (decide (j = i)) as [E|Hne]; [subst j|].
  - exists n'. rewrite list_lookup_insert_eq by done. split; [done|].
    rewrite Hc. congruence.
  - exists x. now rewrite list_lookup_insert_ne by done.
Qed.

Lemma moveList_goodStep delta : preserves goodStep (moveList delta).
Proof.
  intros m [] m' H [Hh (i & n & Hn & Hi & Hl)].
  rewrite (moveList_Ok m i n Hn Hi) in H. inversion H; subst; clear H. split.
  - split; simpl.
    + eapply wf_heap_update; eauto. intros Hr. simpl. eapply wf_root; eauto.
    + exists i, (setPosition (MoveCursor (listView (prov m)) delta) n).
      assert (Hlt : (i < length (heap m))%nat) by (eapply lookup_lt_Some; eauto).
      simpl. rewrite list_lookup_insert_eq by done. repeat split; auto.
      rewrite Hl. reflexivity.
  - eapply childrenKept_update; eauto.
Qed.

Lemma reloadWith_goodStep objs m m' :
  (forall i n, navigator (prov m) = Some i -> heap m !! i = Some n ->
               parent n = None -> onlyBuckets objs) ->
  reloadWith objs m = Ok tt m' -> goodStep m m'.
Proof.
  intros Hroot H [Hh (i & n & Hn & Hi & Hl)].
  rewrite (reloadWith_Ok m i n Hn Hi) in H. inversion H; subst; clear H. split.
  - split; simpl.
    + eapply wf_heap_update; eauto; simpl; eauto.
    + exists i, (setObjects objs n).
      assert (Hlt : (i < length (heap m))%nat) by (eapply lookup_lt_Some; eauto).
      simpl. rewrite list_lookup_insert_eq by done. repeat split; auto.
      rewrite Hl. reflexivity.
  - eapply childrenKept_update; eauto.
Qed.

Lemma ListBuckets_inv e m objs m1 :
  ListBuckets e m = Ok objs m1 ->
  onlyBuckets objs /\ m1 = mkMachine (prov m) (heap m) (trace m ++ [CallListBuckets]).
Proof.
  unfold ListBuckets, bind, emit, logRemoteError, logPrint, emit, osExit, ret. simpl.
  destruct (ListBucketsWithContext e); try discriminate.
  intros H. inversion H; subst. split; [|reflexivity].
  apply Forall_forall. intros x Hx. apply list_elem_of_In, in_map_iff in Hx as (b & <- & _).
  reflexivity.
Qed.

Lemma ListObjects_inv e bkt prefix m objs m1 :
  ListObjects e bkt prefix m = Ok objs m1 ->
  (exists result, ListObjectsWithContext e bkt prefix = Success result /\ objs = listing result) /\
  m1 = mkMachine (prov m) (heap m) (trace m ++ [CallListObjects bkt prefix]).
Proof.
  unfold ListObjects, bind, emit, logRemoteError, logPrint, emit, osExit, ret. simpl.
  destruct (ListObjectsWithContext e bkt prefix); try discriminate.
  intros H. inversion H; subst. eauto.
Qed.

Lemma goodStep_after_trace m t m' :
  goodStep (mkMachine (prov m) (heap m) t) m' -> goodStep m m'.
Proof. intros H. eapply frame_trans; [apply frame_trace|exact H]. Qed.

Lemma reload_goodStep e : preserves goodStep (reload e).
Proof.
  intros m [] m' H. unfold reload in H.
  mstep H as p Hp. mstep H as a Ha. apply load_inv in Ha as (-> & i & Hn & Hi).
  mstep H as h Hh.
  assert (Hnr : IsRoot a = false ->
            forall i' n', navigator (prov m) = Some i' -> heap m !! i' = Some n' ->
                          parent n' = None -> False).
  { intros Er i' n' Hn' Hi' Hp. unfold IsRoot in Er.
    rewrite Hn in Hn'. inversion Hn'; subst. rewrite Hi in Hi'. inversion Hi'; subst.
    now rewrite Hp in Er. }
  destruct (IsRoot a) eqn:Er; [|destruct (IsBucketRoot (heap m) a)].
  - mstep H as objs Ho. apply ListBuckets_inv in Ho as (Hb & ->).
    eapply goodStep_after_trace, reloadWith_goodStep; eauto.
  - mstep H as objs Ho. apply ListObjects_inv in Ho as (_ & ->).
    eapply goodStep_after_trace, reloadWith_goodStep; eauto. simpl.
    intros i' n' Hn' Hi' Hp. exfalso. eauto.
  - mstep H as objs Ho. apply ListObjects_inv in Ho as (_ & ->).
    eapply goodStep_after_trace, reloadWith_goodStep; eauto. simpl.
    intros i' n' Hn' Hi' Hp. exfalso. eauto.
Qed.

Lemma wf_addLog s m : wf m -> wf (addLog s m).
Proof. intros [Hh (i & n & H)]. split; [exact Hh|]. exists i, n. exact H. Qed.

Lemma showNode_wf p m n m' :
  showNode p m = Ok n m' -> wf_heap (heap m) -> wf m' /\ heap m' = heap m.
Proof.
  intros H Hh. apply showNode_inv in H as (i & -> & Hi & ->). split; [|reflexivity].
  split; [exact Hh|]. exists i, n. simpl. auto.
Qed.

Lemma heap_eq_childrenKept m m' : heap m' = heap m -> childrenKept m m'.
Proof. intros Hh i n k c H1 H2. rewrite Hh. eauto. Qed.

Lemma loadPrev_goodStep : preserves goodStep loadPrev.
Proof.
  intros m [] m' H [Hh _]. unfold loadPrev in H.
  mstep H as p Hp. mstep H as n Hn. apply load_inv in Hn as (-> & _).
  mstep H as c Hc.
  apply showNode_wf in Hc as [Hwf Heq]; [|exact Hh].
  apply emit_inv in H as ->. split.
  - now apply (wf_addLog "").
  - now apply heap_eq_childrenKept.
Qed.

Lemma moveNext_goodStep k : preserves goodStep (moveNext k).
Proof.
  intros m [] m' H [Hh _]. unfold moveNext in H.
  mstep H as p Hp. mstep H as n Hn. apply load_inv in Hn as (-> & _).
  mstep H as c Hc.
  apply showNode_wf in Hc as [Hwf Heq]; [|exact Hh].
  apply emit_inv in H as ->. split.
  - now apply (wf_addLog "").
  - now apply heap_eq_childrenKept.
Qed.

Lemma loadNext_goodStep k objs m m' :
  (forall i n, navigator (prov m) = Some i -> heap m !! i = Some n -> children n !! k = None) ->
  loadNext k objs m = Ok tt m' -> goodStep m m'.
Proof.
  intros Hfree H [Hh (i & n & Hn & Hi & Hl)].
  rewrite (loadNext_Ok m i n Hn Hi) in H. inversion H; subst; clear H.
  assert (Hlt : (i < length (heap m))%nat) by (eapply lookup_lt_Some; eauto).
  split.
  - apply wf_addLog. split; simpl.
    + now apply wf_heap_newChild.
    + exists (length (heap m)), (mkNode k (Some i) objs 0 ∅). simpl.
      rewrite list_lookup_insert_ne by lia. rewrite lookup_app_r by lia.
      rewrite Nat.sub_diag. auto.
  - intros j x k' c Hj Hk. simpl.
    destruct (decide (j = i)) as [E|Hne]; [subst j|].
    + exists (AddChild n k (length (heap m))).
      rewrite list_lookup_insert_eq by (rewrite length_app; simpl; lia).
      split; [done|]. simpl. rewrite Hi in Hj. inversion Hj; subst x.
      destruct (decide (k = k')) as [E|Hkk]; [subst k'|].
      * rewrite (Hfree _ _ Hn Hi) in Hk. discriminate.
      * now rewrite lookup_insert_ne.
    + exists x. rewrite list_lookup_insert_ne by done.
      rewrite lookup_app_l by (eapply lookup_lt_Some; eauto). done.
Qed.

Lemma IsExistChildren_false n k : IsExistChildren n k = false -> children n !! k = None.
Proof. unfold IsExistChildren. now destruct (children n !! k). Qed.

Lemma IsExistChildren_true n k : IsExistChildren n k = true -> exists c, children n !! k = Some c.
Proof. unfold IsExistChildren. destruct (children n !! k); [eauto|discriminate]. Qed.

Lemma set_bucket_goodStep b m :
  goodStep m (mkMachine (set_bucket b (prov m)) (heap m) (trace m)).
Proof.
  intros [Hh (i & n & H)]. split.
  - split; [exact Hh|]. exists i, n. exact H.
  - now apply heap_eq_childrenKept.
Qed.

Lemma show_goodStep e obj : preserves goodStep (show e obj).
Proof.
  intros m [] m' H. unfold show in H. destruct (ObjType obj).
  - mstep H as u Hu. mstep H as p Hp. mstep H as n Hn.
    apply load_inv in Hn as (-> & i & Hn & Hi). simpl in Hn, Hi.
    eapply frame_trans; [apply set_bucket_goodStep|].
    destruct (IsExistChildren n (Name obj)) eqn:Ex.
    + eapply moveNext_goodStep; eauto.
    + mstep H as objs Ho. apply ListObjects_inv in Ho as (_ & ->).
      eapply goodStep_after_trace, loadNext_goodStep; eauto. simpl.
      intros i' n' Hn' Hi'. rewrite Hn in Hn'. inversion Hn'; subst.
      rewrite Hi in Hi'. inversion Hi'; subst. now apply IsExistChildren_false.
  - mstep H as p Hp. mstep H as n Hn. apply load_inv in Hn as (-> & i & Hn & Hi).
    destruct (IsExistChildren n (Name obj)) eqn:Ex.
    + eapply moveNext_goodStep; eauto.
    + mstep H as objs Ho. apply ListObjects_inv in Ho as (_ & ->).
      eapply goodStep_after_trace, loadNext_goodStep; eauto. simpl.
      intros i' n' Hn' Hi'. rewrite Hn in Hn'. inversion Hn'; subst.
      rewrite Hi in Hi'. inversion Hi'; subst. now apply IsExistChildren_false.
  - eapply loadPrev_goodStep; eauto.
  - apply ret_inv in H as [_ ->]. apply frame_refl.
Qed.

(** ** Handlers that leave the user where they are *)

Ltac pres_nav :=
  repeat first
    [ apply preserves_logPrint; frame_side
    | apply preserves_logFatal; frame_side
    | apply preserves_Detail; frame_side
    | apply preserves_getCursorObject; frame_side
    | apply preserves_modifyProvider; intros ?; solve [repeat split]
    | pres_step; cbv zeta ].

Lemma action_sameNavigation (c : M unit) :
  preserves onlyStatusLine c -> preserves sameNavigation c.
Proof. apply preserves_weaken, onlyStatusLine_sameNavigation. Qed.

Lemma menu_sameNavigation : preserves sameNavigation menu.
Proof. unfold menu. pres_nav. Qed.

Lemma detail_sameNavigation e obj : preserves sameNavigation (detail e obj).
Proof. unfold detail. pres_nav. Qed.

Lemma Update_sameNavigation : preserves sameNavigation Update.
Proof. unfold Update. pres_nav. Qed.

Lemma menuEvent_sameNavigation e ev : preserves sameNavigation (menuEvent e ev).
Proof.
  unfold menuEvent.
  repeat first
    [ apply action_sameNavigation;
      first [apply download_onlyStatusLine | apply open_onlyStatusLine | apply edit_onlyStatusLine]
    | apply preserves_modifyProvider; intros ?; solve [repeat split]
    | pres_step; cbv zeta ].
Qed.

Lemma detailEvent_sameNavigation ev : preserves sameNavigation (detailEvent ev).
Proof. unfold detailEvent. pres_nav. Qed.

Lemma nav_goodStep (c : M unit) : preserves sameNavigation c -> preserves goodStep c.
Proof. apply preserves_weaken, sameNavigation_goodStep. Qed.

Lemma listEvent_goodStep e ev : preserves goodStep (listEvent e ev).
Proof.
  unfold listEvent.
  repeat first
    [ apply moveList_goodStep
    | apply reload_goodStep
    | apply loadPrev_goodStep
    | apply show_goodStep
    | apply preserves_getCursorObject; frame_side
    | apply nav_goodStep;
      first [ apply menu_sameNavigation | apply detail_sameNavigation
            | apply action_sameNavigation;
              first [apply download_onlyStatusLine | apply open_onlyStatusLine
                    | apply edit_onlyStatusLine] ]
    | pres_step; cbv zeta ].
Qed.

Lemma Handle_goodStep e ev : preserves goodStep (Handle e ev).
Proof.
  unfold Handle. apply preserves_bind; frame_side; [pres|]. intros p.
  destruct (status p).
  - apply listEvent_goodStep.
  - apply nav_goodStep, menuEvent_sameNavigation.
  - apply nav_goodStep, detailEvent_sameNavigation.
Qed.

Lemma turn_goodStep e ev : preserves goodStep (turn e ev).
Proof.
  unfold turn. apply preserves_bind; frame_side; [apply Handle_goodStep|].
  intros _. apply nav_goodStep, Update_sameNavigation.
Qed.

Lemma NewProvider_wf e m : NewProvider e zeroMachine = Ok tt m -> wf m.
Proof.
  unfold NewProvider. intros H. mstep H as u Hu.
  eapply sameNavigation_wf; [eapply Update_sameNavigation; eauto|].
  clear H. unfold Init in Hu.
  mstep Hu as objs Ho. apply ListBuckets_inv in Ho as (Hb & ->).
  unfold bind, NewNode, modifyProvider, load in Hu. simpl in Hu.
  inversion Hu; subst; clear Hu. split; simpl.
  - split.
    + intros [|i] n q Hi Hq; simpl in Hi; inversion Hi; subst. discriminate.
    + intros [|i] n k c Hi Hk; simpl in Hi; inversion Hi; subst.
      simpl in Hk. rewrite lookup_empty in Hk. discriminate.
    + intros [|i] n Hi Hq; simpl in Hi; inversion Hi; subst. exact Hb.
  - exists 0%nat, (mkNode "" None objs 0 ∅). simpl. auto.
Qed.

Theorem reachable_wf m : reachable m -> wf m.
Proof.
  induction 1 as [e m H|e ev m m' _ IH H].
  - eapply NewProvider_wf; eauto.
  - eapply turn_goodStep; eauto.
Qed.

(** ** What a computation may emit, whatever its outcome *)

Section Always.
Variable R : Machine -> Machine -> Prop.
Hypothesis R_refl : forall m, R m m.
Hypothesis R_trans : forall m1 m2 m3, R m1 m2 -> R m2 m3 -> R m1 m3.

Lemma always_ret {A} (a : A) : always R (ret a).
Proof. intros m. apply R_refl. Qed.

Lemma always_bind {A B} (c : M A) (k : A -> M B) :
  always R c -> (forall a, always R (k a)) -> always R (bind c k).
Proof.
  intros Hc Hk m. specialize (Hc m). unfold bind.
  destruct (c m) as [a m1|code m1|m1]; simpl in *; auto.
  eapply R_trans; [exact Hc|apply Hk].
Qed.

Lemma always_getProvider : always R getProvider.
Proof. intros m. apply R_refl. Qed.

Lemma always_getHeap : always R getHeap.
Proof. intros m. apply R_refl. Qed.

Lemma always_load p : always R (load p).
Proof.
  intros m. unfold load. destruct p as [i|]; [destruct (heap m !! i)|]; apply R_refl.
Qed.

Lemma always_osExit {A} code : always R (@osExit A code).
Proof. intros m. apply R_refl. Qed.

Lemma always_panic {A} : always R (@panic A).
Proof. intros m. apply R_refl. Qed.

Lemma always_if {A} (b : bool) (c1 c2 : M A) :
  always R c1 -> always R c2 -> always R (if b then c1 else c2).
Proof. now destruct b. Qed.
End Always.

Lemma emitsOnly_refl P m : emitsOnly P m m.
Proof. exists []. split; [now rewrite app_nil_r|reflexivity]. Qed.

Lemma emitsOnly_trans P m1 m2 m3 :
  emitsOnly P m1 m2 -> emitsOnly P m2 m3 -> emitsOnly P m1 m3.
Proof.
  intros (t1 & E1 & H1) (t2 & E2 & H2). exists (t1 ++ t2). split.
  - rewrite E2, E1. now rewrite app_assoc.
  - rewrite forallb_app, H1, H2. reflexivity.
Qed.

Lemma always_emit P x : P x = true -> always (emitsOnly P) (emit x).
Proof. intros Hx m. exists [x]. simpl. now rewrite Hx. Qed.

Lemma emitsOnly_same_trace P m m' : trace m' = trace m -> emitsOnly P m m'.
Proof. intros E. exists []. split; [now rewrite app_nil_r|reflexivity]. Qed.

Lemma always_modifyProvider P f : always (emitsOnly P) (modifyProvider f).
Proof. intros m. now apply emitsOnly_same_trace. Qed.

Lemma always_modifyNode P p f : always (emitsOnly P) (modifyNode p f).
Proof.
  intros m. unfold modifyNode, bind, load.
  destruct p as [i|]; [destruct (heap m !! i)|]; now apply emitsOnly_same_trace.
Qed.

Lemma always_NewNode P k par objs : always (emitsOnly P) (NewNode k par objs).
Proof. intros m. now apply emitsOnly_same_trace. Qed.

Ltac alw_step :=
  first
    [ apply always_ret; [apply emitsOnly_refl]
    | apply always_getProvider; [apply emitsOnly_refl]
    | apply always_getHeap; [apply emitsOnly_refl]
    | apply always_load; [apply emitsOnly_refl]
    | apply always_osExit; [apply emitsOnly_refl]
    | apply always_panic; [apply emitsOnly_refl]
    | apply always_modifyProvider
    | apply always_modifyNode
    | apply always_NewNode
    | apply always_emit; reflexivity
    | apply always_bind; [apply emitsOnly_trans | | intros ? ]
    | apply always_if
    | match goal with
      | |- always _ (match ?x with _ => _ end) => destruct x
      end ].

Ltac alw := cbv zeta; repeat (alw_step; cbv zeta).





(** * The properties of the specification *)

(** ** Quitting *)







(** ** Listing one level *)

(** C5, as stated, fails: at the top level of a bucket (empty prefix)
    the listing starts with the [..] entry all the same. *)
Lemma ListObjects_top_level_has_UpDir :
  exists m',
    ListObjects env0 "alpha" "" zeroMachine =
      Ok [upDir; group "logs/";
          NewS3Object Object "readme.txt" (Some 3) (Some 42)] m' /\
    ~ (hasUpDir [upDir; group "logs/";
                 NewS3Object Object "readme.txt" (Some 3) (Some 42)] = true
       <-> "" <> "").
Proof.
  eexists. split; [reflexivity|]. intros [H _]. now apply H.
Qed.

(** C5, amended.  A listing that succeeds returns the synthetic [..]
    entry first, whatever the prefix (empty or not), then one Group
    entry per common prefix and one Leaf entry per object, in the
    order the store returned them; it performs one remote call. *)
Theorem ListObjects_always_UpDir e bkt prefix m result :
  ListObjectsWithContext e bkt prefix = Success result ->
  exists objs,
    ListObjects e bkt prefix m =
      Ok objs (mkMachine (prov m) (heap m) (trace m ++ [CallListObjects bkt prefix])) /\
    objs = upDir :: map group (CommonPrefixes result) ++ map leaf (Contents result) /\
    hasUpDir objs = true /\
    List.filter isUpDir objs = [upDir] /\
    Forall (fun o => ObjType o = Dir) (map group (CommonPrefixes result)) /\
    Forall (fun o => ObjType o = Object) (map leaf (Contents result)).
Proof.
  intros H. eexists. split; [now rewrite (ListObjects_Success _ _ _ _ _ H)|].
  assert (Hg : Forall (fun o => ObjType o = Dir) (map group (CommonPrefixes result))).
  { apply Forall_forall. intros x Hx.
    apply list_elem_of_In, in_map_iff in Hx as (b & <- & _). reflexivity. }
  assert (Hl : Forall (fun o => ObjType o = Object) (map leaf (Contents result))).
  { apply Forall_forall. intros x Hx.
    apply list_elem_of_In, in_map_iff in Hx as (b & <- & _). reflexivity. }
  split; [reflexivity|]. split; [reflexivity|]. split; [|split; assumption].
  unfold listing. simpl. f_equal. rewrite List.filter_app.
  assert (Hnone : forall l, Forall (fun o => ObjType o = Dir \/ ObjType o = Object) l ->
                            List.filter isUpDir l = []).
  { induction 1 as [|x l Hx _ IH]; [reflexivity|]. simpl. rewrite IH.
    unfold isUpDir. destruct Hx as [-> | ->]; reflexivity. }
  rewrite !Hnone; [reflexivity| |].
  - eapply Forall_impl; [exact Hl|]. simpl. auto.
  - eapply Forall_impl; [exact Hg|]. simpl. auto.
Qed.

Lemma ListObjects_always_UpDir_witness :
  exists objs m', ListObjects env0 "alpha" "" zeroMachine = Ok objs m' /\ hasUpDir objs = true.
Proof.
  destruct (ListObjects_always_UpDir env0 "alpha" "" zeroMachine
              {| CommonPrefixes := ["logs/"];
                 Contents := [ {| ContentKey := "readme.txt"; LastModified := Some 3;
                                  ContentSize := Some 42 |} ] |} eq_refl)
    as (objs & H1 & _ & H2 & _).
  eexists _, _. split; [exact H1|exact H2].
Defined.

(** ** Remote failures *)

Lemma m_root_reachable : reachable m_root.
Proof. apply (reachable_start env0). vm_compute. reflexivity. Qed.

Lemma m_alpha_reachable : reachable m_alpha.
Proof. apply (reachable_turn env0 enter m_root); [apply m_root_reachable|]. vm_compute. reflexivity. Qed.

Lemma m_dir_reachable : reachable m_dir.
Proof.
  apply (reachable_turn env0 (press "j") m_alpha); [apply m_alpha_reachable|].
  vm_compute. reflexivity.
Qed.

Lemma m_leaf_reachable : reachable m_leaf.
Proof.
  apply (reachable_turn env0 (press "j") m_dir); [apply m_dir_reachable|].
  vm_compute. reflexivity.
Qed.

Lemma m_menu_reachable : reachable m_menu.
Proof.
  apply (reachable_turn env0 (press "m") m_leaf); [apply m_leaf_reachable|].
  vm_compute. reflexivity.
Qed.

(** C3, as stated, fails: in the running session, with the cursor on
    bucket [alpha], activating the entry when the listing fails ends
    the process with exit status 1; the status line is left empty. *)
Lemma listing_failure_ends_process :
  reachable m_root /\
  status (prov m_root) = StateList /\
  exitCode (Handle env_listFailed enter m_root) = Some 1 /\
  isOk (Handle env_listFailed enter m_root) = false /\
  msg (statusView (prov (outcomeMachine (Handle env_listFailed enter m_root)))) = "".
Proof.
  split; [apply m_root_reachable|]. vm_compute. repeat split.
Qed.

Lemma Handle_List e ev m : status (prov m) = StateList -> Handle e ev m = listEvent e ev m.
Proof.
  intros Hs. unfold Handle. rewrite (bind_step _ _ _ _ _ (getProvider_Ok m)). now rewrite Hs.
Qed.

Lemma Handle_Menu e ev m : status (prov m) = StateMenu -> Handle e ev m = menuEvent e ev m.
Proof.
  intros Hs. unfold Handle. rewrite (bind_step _ _ _ _ _ (getProvider_Ok m)). now rewrite Hs.
Qed.

Lemma getCursorObject_Ok m obj :
  cursorObject (listView (prov m)) = Some obj -> getCursorObject m = Ok obj m.
Proof.
  intros H. unfold getCursorObject. rewrite (bind_step _ _ _ _ _ (getProvider_Ok m)).
  now rewrite H.
Qed.

Lemma osCreate_Ok e path m :
  osCreate e path m = Ok (Create e path) (mkMachine (prov m) (heap m) (trace m ++ [OsCreate path])).
Proof. reflexivity. Qed.

Lemma listEvent_keys e :
  listEvent e enter = bind getCursorObject (fun obj => show e obj) /\
  listEvent e (press "w") = download e /\
  listEvent e (press "o") = open e /\
  listEvent e (press "e") = edit e /\
  listEvent e (press "r") = reload e.
Proof. repeat split. Qed.

(** The part of [show] that descends into a key not yet cached. *)
Lemma show_Dir_miss e obj m (i : nat) n :
  ObjType obj = Dir -> navigator (prov m) = Some i -> heap m !! i = Some n ->
  IsExistChildren n (Name obj) = false ->
  show e obj m =
    bind (ListObjects e (bucket (prov m)) (Name obj)) (fun objs => loadNext (Name obj) objs) m.
Proof.
  intros Ht Hn Hi Hx. unfold show. rewrite Ht.
  rewrite (bind_step _ _ _ _ _ (getProvider_Ok m)). rewrite Hn.
  rewrite (bind_step _ _ _ _ _ (load_Ok _ _ _ Hi)). now rewrite Hx.
Qed.

Lemma show_Bucket_miss e obj m (i : nat) n :
  ObjType obj = Bucket -> navigator (prov m) = Some i -> heap m !! i = Some n ->
  IsExistChildren n (Name obj) = false ->
  show e obj m =
    bind (ListObjects e (Name obj) "") (fun objs => loadNext (Name obj) objs)
      (mkMachine (set_bucket (Name obj) (prov m)) (heap m) (trace m)).
Proof.
  intros Ht Hn Hi Hx. unfold show. rewrite Ht.
  rewrite (bind_step _ _ _ _ _ (modifyProvider_Ok _ m)).
  rewrite (bind_step _ _ _ _ _ (getProvider_Ok _)). simpl. rewrite Hn.
  match goal with |- bind (load _) _ ?mm = _ =>
    assert (H3 : heap mm !! i = Some n) by exact Hi end.
  rewrite (bind_step _ _ _ _ _ (load_Ok _ _ _ H3)). now rewrite Hx.
Qed.

(** C3, amended.  A remote failure, timeout or other, ends the process:
    each of the three remote calls of [s3.go] logs the error and exits
    with status 1.  So it is at startup, and so it is during
    interactive use: activating an
    entry whose listing fails, or downloading an object whose transfer
    fails, exits with status 1, with the provider (mode, position,
    status line) and the tree as they were; nothing is reported on the
    status line. *)
Theorem remote_failure_exits e m :
  (failure (ListBucketsWithContext e) -> exitCode (NewProvider e zeroMachine) = Some 1) /\
  (failure (ListBucketsWithContext e) ->
     ListBuckets e m =
       Exit 1 (mkMachine (prov m) (heap m)
                 ((trace m ++ [CallListBuckets])
                    ++ [LogPrint (errorLog (ListBucketsWithContext e))]))) /\
  (forall bkt prefix, failure (ListObjectsWithContext e bkt prefix) ->
     ListObjects e bkt prefix m =
       Exit 1 (mkMachine (prov m) (heap m)
                 ((trace m ++ [CallListObjects bkt prefix])
                    ++ [LogPrint (errorLog (ListObjectsWithContext e bkt prefix))]))) /\
  (forall bkt k, Create e (Join (Getwd e) k) = true ->
     failure (DownloadWithContext e bkt k) ->
     DownloadObject e bkt k m =
       Exit 1 (mkMachine (prov m) (heap m)
                 (((trace m ++ [OsCreate (Join (Getwd e) k)]) ++ [CallDownload bkt k])
                    ++ [LogPrint (errorLog (DownloadWithContext e bkt k))]))) /\
  (forall obj (i : nat) n,
     status (prov m) = StateList ->
     cursorObject (listView (prov m)) = Some obj -> ObjType obj = Dir ->
     navigator (prov m) = Some i -> heap m !! i = Some n ->
     IsExistChildren n (Name obj) = false ->
     failure (ListObjectsWithContext e (bucket (prov m)) (Name obj)) ->
     exists m', Handle e enter m = Exit 1 m' /\ prov m' = prov m /\ heap m' = heap m) /\
  (forall obj,
     status (prov m) = StateList ->
     cursorObject (listView (prov m)) = Some obj -> ObjType obj = Object ->
     Create e (Join (Getwd e) (Filename e (Name obj))) = true ->
     Create e (Join (Getwd e) (Name obj)) = true ->
     failure (DownloadWithContext e (bucket (prov m)) (Name obj)) ->
     exists m', Handle e (press "w") m = Exit 1 m' /\ prov m' = prov m /\ heap m' = heap m).
Proof.
  split.
  { intros Hf. unfold NewProvider, Init.
    now rewrite (bind_Exit _ _ _ _ _ (bind_Exit _ _ _ _ _ (ListBuckets_failure e zeroMachine Hf))). }
  split; [apply ListBuckets_failure|].
  split; [intros; now apply ListObjects_failure|].
  split; [intros; now apply DownloadObject_failure|].
  split.
  - intros obj i n Hs Hc Ht Hn Hi Hx Hf.
    rewrite (Handle_List _ _ _ Hs). destruct (listEvent_keys e) as (-> & _).
    rewrite (bind_step _ _ _ _ _ (getCursorObject_Ok _ _ Hc)).
    rewrite (show_Dir_miss e obj m i n Ht Hn Hi Hx).
    rewrite (bind_Exit _ _ _ _ _ (ListObjects_failure _ _ _ _ Hf)).
    eexists. split; [reflexivity|]. split; reflexivity.
  - intros obj Hs Hc Ht Hc1 Hc2 Hf.
    rewrite (Handle_List _ _ _ Hs). destruct (listEvent_keys e) as (_ & -> & _).
    unfold download.
    rewrite (bind_step _ _ _ _ _ (getCursorObject_Ok _ _ Hc)).
    rewrite (bind_step _ _ _ _ _ (getProvider_Ok m)). cbv zeta. rewrite Ht.
    rewrite (bind_step _ _ _ _ _ (osCreate_Ok _ _ _)). rewrite Hc1. change (negb true) with false. cbv iota.
    rewrite (bind_Exit _ _ _ _ _ (DownloadObject_failure _ _ _ _ Hc2 Hf)).
    eexists. split; [reflexivity|]. split; reflexivity.
Qed.

Lemma remote_failure_exits_witness :
  exitCode (NewProvider env_down zeroMachine) = Some 1 /\
  exitCode (ListBuckets env_down m_dir) = Some 1 /\
  exitCode (ListObjects env_down "alpha" "logs/" m_dir) = Some 1 /\
  exitCode (DownloadObject env_down "alpha" "readme.txt" m_leaf) = Some 1 /\
  exitCode (Handle env_down enter m_dir) = Some 1 /\
  exitCode (Handle env_down (press "w") m_leaf) = Some 1.
Proof.
  destruct (remote_failure_exits env_down m_dir) as (H0 & H1 & H2 & _ & H4 & _).
  destruct (remote_failure_exits env_down m_leaf) as (_ & _ & _ & H3 & _ & H5).
  split; [exact (H0 I)|].
  split; [rewrite H1 by exact I; reflexivity|].
  split; [rewrite H2 by exact I; reflexivity|].
  split; [rewrite H3 by (try exact I; reflexivity); reflexivity|].
  split.
  - destruct (H4 (group "logs/") 1%nat (nodeAt m_dir 1)) as (m' & -> & _);
      try exact I; try (vm_compute; reflexivity).
  - destruct (H5 (NewS3Object Object "readme.txt" (Some 3) (Some 42))) as (m' & -> & _);
      try exact I; try (vm_compute; reflexivity).
Defined.

(** ** The actions on an entry that is not a Leaf *)

Lemma action_not_Object e m obj :
  cursorObject (listView (prov m)) = Some obj -> ObjType obj <> Object ->
  download e m = Ok tt (addLog "Invalid s3 object type" m) /\
  open e m = Ok tt (addLog "Invalid s3 object type" m) /\
  edit e m = Ok tt (addLog "Invalid s3 object type" m).
Proof.
  intros Hc Ht. unfold download, open, edit.
  rewrite !(bind_step _ _ _ _ _ (getCursorObject_Ok _ _ Hc)).
  rewrite !(bind_step _ _ _ _ _ (getProvider_Ok m)). cbv zeta.
  destruct (ObjType obj); try congruence; repeat split.
Qed.

(** C6, as stated, fails: with the cursor on the Group [logs/], the
    download key only writes to the process log; the status line is
    what it was (empty), so no status message reports the condition. *)
Lemma invalid_entry_type_not_on_status_line :
  cursorObject (listView (prov m_dir)) = Some (group "logs/") /\
  status (prov m_dir) = StateList /\
  trace (outcomeMachine (Handle env0 (press "w") m_dir)) =
    trace m_dir ++ [LogPrint "Invalid s3 object type"] /\
  msg (statusView (prov m_dir)) = "" /\
  msg (statusView (prov (outcomeMachine (Handle env0 (press "w") m_dir)))) = "".
Proof. vm_compute. repeat split. Qed.

(** C6, amended.  With the cursor on an entry that is not a Leaf, each
    of download, open and edit returns after appending the line
    [Invalid s3 object type] to the process log and nothing else: no
    file is created and no object fetched, the provider (mode,
    navigator, cursor, status line) and the tree are unchanged; in List
    mode the keys [w], [o] and [e] do exactly that, so the session
    stays in List mode. *)
Theorem invalid_entry_type_logged e m obj :
  cursorObject (listView (prov m)) = Some obj -> ObjType obj <> Object ->
  (download e m = Ok tt (addLog "Invalid s3 object type" m) /\
   open e m = Ok tt (addLog "Invalid s3 object type" m) /\
   edit e m = Ok tt (addLog "Invalid s3 object type" m)) /\
  (status (prov m) = StateList ->
   Handle e (press "w") m = Ok tt (addLog "Invalid s3 object type" m) /\
   Handle e (press "o") m = Ok tt (addLog "Invalid s3 object type" m) /\
   Handle e (press "e") m = Ok tt (addLog "Invalid s3 object type" m) /\
   status (prov (addLog "Invalid s3 object type" m)) = StateList) /\
  List.filter isFetch (trace (addLog "Invalid s3 object type" m)) = List.filter isFetch (trace m) /\
  prov (addLog "Invalid s3 object type" m) = prov m /\
  heap (addLog "Invalid s3 object type" m) = heap m.
Proof.
  intros Hc Ht. pose proof (action_not_Object e m obj Hc Ht) as (Hd & Ho & He).
  split; [auto|]. split.
  - intros Hs. rewrite !(Handle_List _ _ _ Hs).
    destruct (listEvent_keys e) as (_ & -> & -> & -> & _). auto.
  - split; [|split; reflexivity]. unfold addLog. simpl.
    rewrite List.filter_app. simpl. now rewrite app_nil_r.
Qed.

Lemma invalid_entry_type_logged_witness :
  Handle env0 (press "w") m_dir = Ok tt (addLog "Invalid s3 object type" m_dir) /\
  Handle env0 (press "o") m_alpha = Ok tt (addLog "Invalid s3 object type" m_alpha) /\
  Handle env0 (press "e") m_root = Ok tt (addLog "Invalid s3 object type" m_root).
Proof.
  split; [|split].
  - apply (invalid_entry_type_logged env0 m_dir (group "logs/"));
      [vm_compute; reflexivity | discriminate | vm_compute; reflexivity].
  - apply (invalid_entry_type_logged env0 m_alpha upDir);
      [vm_compute; reflexivity | discriminate | vm_compute; reflexivity].
  - apply (invalid_entry_type_logged env0 m_root (NewS3Object Bucket "alpha" (Some 1) None));
      [vm_compute; reflexivity | discriminate | vm_compute; reflexivity].
Defined.

(** ** Failing to create the local file *)

(** C8, as stated, fails: with the cursor on the Leaf [readme.txt],
    the download key ends the process with exit status 1 when the
    destination file cannot be created; the session does not go on. *)
Lemma create_failure_ends_process :
  reachable m_leaf /\
  cursorObject (listView (prov m_leaf)) =
    Some (NewS3Object Object "readme.txt" (Some 3) (Some 42)) /\
  exitCode (Handle env_createFailed (press "w") m_leaf) = Some 1 /\
  isOk (Handle env_createFailed (press "w") m_leaf) = false.
Proof. split; [apply m_leaf_reachable|]. vm_compute. repeat split. Qed.

(** C8, amended.  With the cursor on a Leaf, a failure to create the
    destination file is logged and ends the process with exit status 1
    ([log.Fatalf]), in download (file in the working directory), in
    open and in edit (file in the temporary directory), and in
    [DownloadObject] for the file it creates itself; nothing is fetched
    and the provider and the tree are as they were. *)
Theorem create_failure_is_fatal e m obj :
  cursorObject (listView (prov m)) = Some obj -> ObjType obj = Object ->
  (Create e (Join (Getwd e) (Filename e (Name obj))) = false ->
   download e m =
     Exit 1 (mkMachine (prov m) (heap m)
               ((trace m ++ [OsCreate (Join (Getwd e) (Filename e (Name obj)))])
                  ++ [LogPrint "failed create donwload reader"]))) /\
  (Create e (Join (TempDir e) (Filename e (Name obj))) = false ->
   open e m =
     Exit 1 (mkMachine (prov m) (heap m)
               ((trace m ++ [OsCreate (Join (TempDir e) (Filename e (Name obj)))])
                  ++ [LogPrint "failed create donwload reader"])) /\
   edit e m =
     Exit 1 (mkMachine (prov m) (heap m)
               ((trace m ++ [OsCreate (Join (TempDir e) (Filename e (Name obj)))])
                  ++ [LogPrint "failed create donwload reader"]))) /\
  (forall bkt k, Create e (Join (Getwd e) k) = false ->
   DownloadObject e bkt k m =
     Exit 1 (mkMachine (prov m) (heap m)
               ((trace m ++ [OsCreate (Join (Getwd e) k)])
                  ++ [LogPrint "donwload file create failed"]))).
Proof.
  intros Hc Ht. split; [|split].
  - intros Hf. unfold download.
    rewrite (bind_step _ _ _ _ _ (getCursorObject_Ok _ _ Hc)).
    rewrite (bind_step _ _ _ _ _ (getProvider_Ok m)). cbv zeta. rewrite Ht.
    rewrite (bind_step _ _ _ _ _ (osCreate_Ok _ _ _)). rewrite Hf. reflexivity.
  - intros Hf. unfold open, edit.
    rewrite !(bind_step _ _ _ _ _ (getCursorObject_Ok _ _ Hc)).
    rewrite !(bind_step _ _ _ _ _ (getProvider_Ok m)). cbv zeta. rewrite Ht.
    rewrite !(bind_step _ _ _ _ _ (osCreate_Ok _ _ _)). rewrite Hf. split; reflexivity.
  - intros bkt k Hf. now apply DownloadObject_create_failure.
Qed.

Lemma create_failure_is_fatal_witness :
  exitCode (download env_createFailed m_leaf) = Some 1 /\
  exitCode (open env_createFailed m_leaf) = Some 1 /\
  exitCode (edit env_createFailed m_leaf) = Some 1 /\
  exitCode (DownloadObject env_createFailed "alpha" "readme.txt" m_leaf) = Some 1.
Proof.
  destruct (create_failure_is_fatal env_createFailed m_leaf
              (NewS3Object Object "readme.txt" (Some 3) (Some 42)))
    as (H1 & H2 & H3); [vm_compute; reflexivity | reflexivity |].
  destruct (H2 eq_refl) as [Ho He].
  rewrite (H1 eq_refl), Ho, He, (H3 "alpha" "readme.txt" eq_refl). repeat split.
Defined.

(** ** Menu mode *)

(** C7, as stated, fails: with the menu open over the Leaf
    [readme.txt], activating download when the transfer times out ends
    the process with exit status 1; the session never returns to List
    mode. *)
Lemma menu_activate_failure_ends_process :
  reachable m_menu /\
  status (prov m_menu) = StateMenu /\
  isActivate enter = true /\
  exitCode (Handle env_downloadCanceled enter m_menu) = Some 1 /\
  status (prov (outcomeMachine (Handle env_downloadCanceled enter m_menu))) = StateMenu.
Proof. split; [apply m_menu_reachable|]. vm_compute. repeat split. Qed.

Lemma menuEvent_cases e ev :
  menuEvent e ev =
    if isDown ev then modifyProvider (fun q => set_menuView (menu_down (menuView q)) q)
    else if isUp ev then modifyProvider (fun q => set_menuView (menu_up (menuView q)) q)
    else if isCancel ev then modifyProvider (set_status StateList)
    else if isActivate ev then
      bind getProvider (fun p =>
        match getCursorItem (menuView p) with
        | None => panic
        | Some item =>
            bind (match command item with
                  | CommandDownload => download e
                  | CommandOpen => open e
                  | CommandEdit => edit e
                  end) (fun _ => modifyProvider (set_status StateList))
        end)
    else ret tt.
Proof.
  unfold menuEvent, isCancel, isActivate.
  destruct (isDown ev), (isUp ev), (isCh ev "q"), (isKey ev KeyEnter); reflexivity.
Qed.

Lemma isCancel_isActivate ev : isCancel ev = true -> isActivate ev = false.
Proof.
  unfold isCancel, isActivate.
  destruct (isDown ev), (isUp ev), (isCh ev "q"), (isKey ev KeyEnter); simpl; congruence.
Qed.

Lemma menu_activate e ev m item :
  status (prov m) = StateMenu -> isActivate ev = true ->
  getCursorItem (menuView (prov m)) = Some item ->
  Handle e ev m =
    bind (actionOf (command item) e) (fun _ => modifyProvider (set_status StateList)) m.
Proof.
  intros Hs Ha Hi. rewrite (Handle_Menu _ _ _ Hs), menuEvent_cases, Ha.
  assert (Hn : isCancel ev = false).
  { destruct (isCancel ev) eqn:E; [|reflexivity].
    apply isCancel_isActivate in E. congruence. }
  unfold isActivate in Ha. rewrite Hn.
  destruct (isDown ev); [discriminate|]. destruct (isUp ev); [discriminate|].
  rewrite (bind_step _ _ _ _ _ (getProvider_Ok m)). rewrite Hi.
  unfold actionOf. destruct (command item); reflexivity.
Qed.

(** An action on a Leaf up to the creation of its local file. *)
Lemma action_create_fails c e m obj :
  cursorObject (listView (prov m)) = Some obj -> ObjType obj = Object ->
  Create e (destination c e obj) = false ->
  actionOf c e m =
    Exit 1 (mkMachine (prov m) (heap m)
              ((trace m ++ [OsCreate (destination c e obj)])
                 ++ [LogPrint "failed create donwload reader"])).
Proof.
  intros Hc Ht Hf. destruct c; unfold actionOf, destination in *;
    unfold download, open, edit;
    rewrite (bind_step _ _ _ _ _ (getCursorObject_Ok _ _ Hc));
    rewrite (bind_step _ _ _ _ _ (getProvider_Ok m)); cbv zeta; rewrite Ht;
    rewrite (bind_step _ _ _ _ _ (osCreate_Ok _ _ _)); rewrite Hf; reflexivity.
Qed.

Lemma DownloadObject_fails e bkt k m :
  Create e (Join (Getwd e) k) = false \/ failure (DownloadWithContext e bkt k) ->
  exists m1, DownloadObject e bkt k m = Exit 1 m1 /\ prov m1 = prov m /\ heap m1 = heap m.
Proof.
  intros Hf. destruct (Create e (Join (Getwd e) k)) eqn:Hc.
  - destruct Hf as [Hf|Hf]; [discriminate|].
    rewrite (DownloadObject_failure _ _ _ _ Hc Hf). eexists. repeat split.
  - rewrite (DownloadObject_create_failure _ _ _ _ Hc). eexists. repeat split.
Qed.

Lemma action_transfer_fails c e m obj :
  cursorObject (listView (prov m)) = Some obj -> ObjType obj = Object ->
  Create e (destination c e obj) = true ->
  Create e (Join (Getwd e) (Name obj)) = false \/
  failure (DownloadWithContext e (bucket (prov m)) (Name obj)) ->
  exists m1, actionOf c e m = Exit 1 m1 /\ prov m1 = prov m /\ heap m1 = heap m.
Proof.
  intros Hc Ht Hok Hf.
  destruct c; unfold actionOf, destination in *;
    unfold download, open, edit;
    rewrite (bind_step _ _ _ _ _ (getCursorObject_Ok _ _ Hc));
    rewrite (bind_step _ _ _ _ _ (getProvider_Ok m)); cbv zeta; rewrite Ht;
    rewrite (bind_step _ _ _ _ _ (osCreate_Ok _ _ _)); rewrite Hok;
    change (negb true) with false; cbv iota;
    match goal with
    | |- context [bind (DownloadObject e ?b ?k) _ ?mm] =>
        destruct (DownloadObject_fails e b k mm Hf) as (m1 & E & Hp & Hh);
        rewrite (bind_Exit _ _ _ _ _ E); exists m1; auto
    end.
Qed.

Lemma open_viewer_fails e m obj n :
  cursorObject (listView (prov m)) = Some obj -> ObjType obj = Object ->
  Create e (destination CommandOpen e obj) = true ->
  Create e (Join (Getwd e) (Name obj)) = true ->
  DownloadWithContext e (bucket (prov m)) (Name obj) = Success n ->
  Open e (destination CommandOpen e obj) = false ->
  exists m1, open e m = Exit 1 m1 /\ prov m1 = prov m /\ heap m1 = heap m.
Proof.
  intros Hc Ht Hok Hc2 Hd Ho. unfold destination in *. unfold open.
  rewrite (bind_step _ _ _ _ _ (getCursorObject_Ok _ _ Hc)).
  rewrite (bind_step _ _ _ _ _ (getProvider_Ok m)). cbv zeta. rewrite Ht.
  rewrite (bind_step _ _ _ _ _ (osCreate_Ok _ _ _)). rewrite Hok.
  change (negb true) with false. cbv iota.
  rewrite (bind_step _ _ _ _ _ (DownloadObject_Success _ _ _ _ n Hc2 Hd)).
  rewrite (bind_step _ _ _ _ _ (emit_Ok _ _)). rewrite Ho.
  eexists. split; [reflexivity|]. split; reflexivity.
Qed.

(** C7, amended.  In Menu mode every input whose handler returns
    leaves the navigator, the list view with its cursor, the bucket and
    the tree as they were.  Every input other than activate returns:
    move-down and move-up change the menu view alone, to the next and
    to the previous of the three items, cyclically, and stay in Menu
    mode; cancel changes the mode alone, to List; any other key changes
    nothing.  Activate runs the action of the item under the menu
    cursor: when the action returns, as it does on an entry that is not
    a Leaf, the session is in List mode; when, on a Leaf, the action's
    file creation, its transfer or (for open) the viewer fails, the
    process ends with exit status 1, the provider still in Menu
    mode. *)
Theorem menu_mode_frame e ev m :
  status (prov m) = StateMenu ->
  (forall m', Handle e ev m = Ok tt m' ->
     sameNavigation m m' /\
     (isCancel ev || isActivate ev = true -> status (prov m') = StateList) /\
     (isCancel ev || isActivate ev = false -> status (prov m') = StateMenu)) /\
  (isActivate ev = false -> isOk (Handle e ev m) = true) /\
  (isActivate ev = true ->
   forall item obj, getCursorItem (menuView (prov m)) = Some item ->
     cursorObject (listView (prov m)) = Some obj -> ObjType obj <> Object ->
     Handle e ev m =
       Ok tt (mkMachine (set_status StateList (prov m)) (heap m)
                (trace m ++ [LogPrint "Invalid s3 object type"]))) /\
  (* the moves, cancel and the keys without meaning *)
  (isDown ev = true ->
   Handle e ev m =
     Ok tt (mkMachine (set_menuView (menu_down (menuView (prov m))) (prov m))
              (heap m) (trace m))) /\
  (isDown ev = false -> isUp ev = true ->
   Handle e ev m =
     Ok tt (mkMachine (set_menuView (menu_up (menuView (prov m))) (prov m))
              (heap m) (trace m))) /\
  (isCancel ev = true ->
   Handle e ev m =
     Ok tt (mkMachine (set_status StateList (prov m)) (heap m) (trace m))) /\
  (isDown ev = false -> isUp ev = false -> isCancel ev = false -> isActivate ev = false ->
   Handle e ev m = Ok tt m) /\
  (forall v, items v = menuItems ->
     items (menu_down v) = menuItems /\ items (menu_up v) = menuItems /\
     menuCursor (menu_down v) = (S (menuCursor v) mod 3)%nat /\
     menuCursor (menu_up v) = ((menuCursor v + 2) mod 3)%nat) /\
  (* activate *)
  (isActivate ev = true ->
   forall item, getCursorItem (menuView (prov m)) = Some item ->
     (forall m1, actionOf (command item) e m = Ok tt m1 ->
        Handle e ev m =
          Ok tt (mkMachine (set_status StateList (prov m1)) (heap m1) (trace m1))) /\
     (forall code m1, actionOf (command item) e m = Exit code m1 ->
        Handle e ev m = Exit code m1) /\
     (forall obj, cursorObject (listView (prov m)) = Some obj -> ObjType obj = Object ->
        (Create e (destination (command item) e obj) = false ->
         exists m1, Handle e ev m = Exit 1 m1 /\ prov m1 = prov m /\ heap m1 = heap m) /\
        (Create e (destination (command item) e obj) = true ->
         Create e (Join (Getwd e) (Name obj)) = false \/
         failure (DownloadWithContext e (bucket (prov m)) (Name obj)) ->
         exists m1, Handle e ev m = Exit 1 m1 /\ prov m1 = prov m /\ heap m1 = heap m) /\
        (forall n, command item = CommandOpen ->
         Create e (destination CommandOpen e obj) = true ->
         Create e (Join (Getwd e) (Name obj)) = true ->
         DownloadWithContext e (bucket (prov m)) (Name obj) = Success n ->
         Open e (destination CommandOpen e obj) = false ->
         exists m1, Handle e ev m = Exit 1 m1 /\ prov m1 = prov m /\ heap m1 = heap m))).
Proof.
  intros Hs. split; [|split; [|split; [|split; [|split; [|split; [|split; [|split]]]]]]].
  - rewrite (Handle_Menu _ _ _ Hs).
    intros m' H. split; [eapply menuEvent_sameNavigation; eauto|].
    rewrite menuEvent_cases in H.
    pose proof (isCancel_isActivate ev) as Hca.
    unfold isCancel, isActivate in *.
    destruct (isDown ev); [|destruct (isUp ev)]; simpl in *.
    + apply modifyProvider_inv in H as ->. simpl. split; congruence.
    + apply modifyProvider_inv in H as ->. simpl. split; congruence.
    + destruct (isCh ev "q"); simpl in *.
      * apply modifyProvider_inv in H as ->. simpl. split; congruence.
      * destruct (isKey ev KeyEnter); simpl in *.
        -- split; [intros _|congruence].
           mstep H as p Hp. destruct (getCursorItem (menuView (prov m))); [|discriminate].
           mstep H as u Hu. apply modifyProvider_inv in H as ->. reflexivity.
        -- apply ret_inv in H as [_ ->]. split; congruence.
  - rewrite (Handle_Menu _ _ _ Hs). intros Ha. rewrite menuEvent_cases, Ha.
    destruct (isDown ev); [reflexivity|]. destruct (isUp ev); [reflexivity|].
    destruct (isCancel ev); reflexivity.
  - intros Ha item obj Hi Hc Ht. rewrite (menu_activate e ev m item Hs Ha Hi).
    destruct (action_not_Object e m obj Hc Ht) as (Hd & Ho & He).
    unfold actionOf. destruct (command item);
      [rewrite (bind_step _ _ _ _ _ Hd) | rewrite (bind_step _ _ _ _ _ Ho)
      | rewrite (bind_step _ _ _ _ _ He)]; reflexivity.
  - intros Hd. rewrite (Handle_Menu _ _ _ Hs), menuEvent_cases, Hd. reflexivity.
  - intros Hd Hu. rewrite (Handle_Menu _ _ _ Hs), menuEvent_cases, Hd, Hu. reflexivity.
  - intros Hc. rewrite (Handle_Menu _ _ _ Hs), menuEvent_cases, Hc.
    unfold isCancel in Hc.
    destruct (isDown ev); [discriminate|]. destruct (isUp ev); [discriminate|]. reflexivity.
  - intros Hd Hu Hc Ha.
    rewrite (Handle_Menu _ _ _ Hs), menuEvent_cases, Hd, Hu, Hc, Ha. reflexivity.
  - intros v Hv. unfold menu_down, menu_up. simpl. rewrite Hv. simpl length.
    repeat split; reflexivity.
  - intros Ha item Hi. rewrite (menu_activate e ev m item Hs Ha Hi). split; [|split].
    + intros m1 H1. now rewrite (bind_step _ _ _ _ _ H1).
    + intros code m1 H1. now rewrite (bind_Exit _ _ _ _ _ H1).
    + intros obj Hc Ht. split; [|split].
      * intros Hf. rewrite (bind_Exit _ _ _ _ _ (action_create_fails _ e m obj Hc Ht Hf)).
        eexists. repeat split.
      * intros Hok Hf.
        destruct (action_transfer_fails _ e m obj Hc Ht Hok Hf) as (m1 & E & Hp & Hh).
        rewrite (bind_Exit _ _ _ _ _ E). eauto.
      * intros n Ecmd Hok Hc2 Hd Ho. rewrite Ecmd. unfold actionOf.
        destruct (open_viewer_fails e m obj n Hc Ht Hok Hc2 Hd Ho) as (m1 & E & Hp & Hh).
        rewrite (bind_Exit _ _ _ _ _ E). eauto.
Qed.

Lemma menu_mode_frame_witness :
  sameNavigation m_menu (outcomeMachine (Handle env0 enter m_menu)) /\
  status (prov (outcomeMachine (Handle env0 enter m_menu))) = StateList /\
  isOk (Handle env0 (press "j") m_menu) = true /\
  status (prov (outcomeMachine (Handle env0 enter m_menu_dir))) = StateList /\
  menuCursor (menuView (prov (outcomeMachine (Handle env0 (press "j") m_menu)))) = 1%nat /\
  menuCursor (menuView (prov (outcomeMachine (Handle env0 (press "k") m_menu)))) = 2%nat /\
  Handle env0 (press "q") m_menu =
    Ok tt (mkMachine (set_status StateList (prov m_menu)) (heap m_menu) (trace m_menu)) /\
  Handle env0 (press "x") m_menu = Ok tt m_menu /\
  exitCode (Handle env_createFailed enter m_menu) = Some 1 /\
  exitCode (Handle env_downloadCanceled enter m_menu) = Some 1.
Proof.
  destruct (menu_mode_frame env0 enter m_menu) as (H1 & _); [vm_compute; reflexivity|].
  destruct (H1 (outcomeMachine (Handle env0 enter m_menu))) as (F1 & F2 & _);
    [vm_compute; reflexivity|].
  destruct (menu_mode_frame env0 (press "j") m_menu) as (_ & H2 & _ & Hj & _);
    [vm_compute; reflexivity|].
  destruct (menu_mode_frame env0 (press "k") m_menu) as (_ & _ & _ & _ & Hk & _);
    [vm_compute; reflexivity|].
  destruct (menu_mode_frame env0 (press "q") m_menu) as (_ & _ & _ & _ & _ & Hq & _);
    [vm_compute; reflexivity|].
  destruct (menu_mode_frame env0 (press "x") m_menu) as (_ & _ & _ & _ & _ & _ & Hx & Hcyc & _);
    [vm_compute; reflexivity|].
  destruct (menu_mode_frame env0 enter m_menu_dir) as (_ & _ & H3 & _);
    [vm_compute; reflexivity|].
  destruct (menu_mode_frame env_createFailed enter m_menu)
    as (_ & _ & _ & _ & _ & _ & _ & _ & Hc); [vm_compute; reflexivity|].
  destruct (menu_mode_frame env_downloadCanceled enter m_menu)
    as (_ & _ & _ & _ & _ & _ & _ & _ & Hd); [vm_compute; reflexivity|].
  destruct (Hcyc (menuView (prov m_menu)) eq_refl) as (_ & _ & Cd & Cu).
  split; [exact F1|]. split; [apply F2; reflexivity|]. split; [apply H2; reflexivity|].
  split.
  { rewrite (H3 eq_refl (NewMenuItem "download" "w" "download file." CommandDownload)
                (group "logs/")); [reflexivity | vm_compute; reflexivity
                                  | vm_compute; reflexivity | discriminate]. }
  split; [rewrite (Hj eq_refl);
          change (menuCursor (menu_down (menuView (prov m_menu))) = 1%nat);
          rewrite Cd; vm_compute; reflexivity|].
  split; [rewrite (Hk eq_refl eq_refl);
          change (menuCursor (menu_up (menuView (prov m_menu))) = 2%nat);
          rewrite Cu; vm_compute; reflexivity|].
  split; [exact (Hq eq_refl)|].
  split; [exact (Hx eq_refl eq_refl eq_refl eq_refl)|].
  split.
  - destruct (Hc eq_refl (NewMenuItem "download" "w" "download file." CommandDownload))
      as (_ & _ & Hobj); [vm_compute; reflexivity|].
    destruct (Hobj (NewS3Object Object "readme.txt" (Some 3) (Some 42)))
      as (Hcreate & _); [vm_compute; reflexivity | reflexivity |].
    destruct (Hcreate eq_refl) as (m1 & -> & _). reflexivity.
  - destruct (Hd eq_refl (NewMenuItem "download" "w" "download file." CommandDownload))
      as (_ & _ & Hobj); [vm_compute; reflexivity|].
    destruct (Hobj (NewS3Object Object "readme.txt" (Some 3) (Some 42)))
      as (_ & Htransfer & _); [vm_compute; reflexivity | reflexivity |].
    destruct (Htransfer eq_refl (or_intror I)) as (m1 & -> & _). reflexivity.
Defined.

(** ** Reloading *)

(** C4, as stated, fails: with the cursor on the third row of [alpha],
    a reload that returns the single row [..] leaves the cursor on
    index 2, past the end of the new entries, where the specification asks for
    index 0. *)
Lemma reload_leaves_cursor_past_end :
  reachable m_leaf /\
  cursorPos (listView (prov m_leaf)) = 2 /\
  isOk (Handle env_emptyListing (press "r") m_leaf) = true /\
  lv_objects (listView (prov (outcomeMachine (Handle env_emptyListing (press "r") m_leaf))))
    = [upDir] /\
  objects (nodeAt (outcomeMachine (Handle env_emptyListing (press "r") m_leaf)) 1) = [upDir] /\
  cursorPos (listView (prov (outcomeMachine (Handle env_emptyListing (press "r") m_leaf)))) = 2 /\
  position (nodeAt (outcomeMachine (Handle env_emptyListing (press "r") m_leaf)) 1) = 2 /\
  clampedCursor 2 [upDir] = 0.
Proof. split; [apply m_leaf_reachable|]. vm_compute. repeat split. Qed.

Lemma reload_Success e m (i : nat) n fresh :
  navigator (prov m) = Some i -> heap m !! i = Some n ->
  freshEntries e m n = Success fresh ->
  exists t,
    reload e m =
      Ok tt (mkMachine (set_listView (lv_setObjects fresh (listView (prov m))) (prov m))
               (<[i := setObjects fresh n]> (heap m)) (trace m ++ [t])) /\
    isRemoteCall t = true.
Proof.
  intros Hn Hi Hf. unfold reload.
  rewrite (bind_step _ _ _ _ _ (getProvider_Ok m)). rewrite Hn.
  rewrite (bind_step _ _ _ _ _ (load_Ok _ _ _ Hi)).
  rewrite (bind_step _ _ _ _ _ (getHeap_Ok m)).
  unfold freshEntries in Hf. destruct (IsRoot n).
  - destruct (ListBucketsWithContext e) as [bs| |] eqn:E; try discriminate.
    inversion Hf; subst; clear Hf.
    rewrite (bind_step _ _ _ _ _ (ListBuckets_Success _ _ _ E)).
    eexists. split; [rewrite (reloadWith_Ok _ i n) by assumption; reflexivity|reflexivity].
  - destruct (IsBucketRoot (heap m) n).
    + destruct (ListObjectsWithContext e (bucket (prov m)) "") as [res| |] eqn:E;
        try discriminate.
      inversion Hf; subst; clear Hf.
      rewrite (bind_step _ _ _ _ _ (ListObjects_Success _ _ _ _ _ E)).
      eexists. split; [rewrite (reloadWith_Ok _ i n) by assumption; reflexivity|reflexivity].
    + destruct (ListObjectsWithContext e (bucket (prov m)) (key n)) as [res| |] eqn:E;
        try discriminate.
      inversion Hf; subst; clear Hf.
      rewrite (bind_step _ _ _ _ _ (ListObjects_Success _ _ _ _ _ E)).
      eexists. split; [rewrite (reloadWith_Ok _ i n) by assumption; reflexivity|reflexivity].
Qed.

(** C4, amended.  When the store answers, reload replaces the entries
    of the current node, and of the list view, wholesale by the fresh
    listing and leaves the cursor index exactly as it was, in the node
    and in the view; the index is the clamped one, min(previous,
    length - 1), whenever the previous index is a row of the fresh
    listing. *)
Theorem reload_keeps_cursor e m (i : nat) n fresh :
  navigator (prov m) = Some i -> heap m !! i = Some n ->
  freshEntries e m n = Success fresh ->
  exists m' n',
    reload e m = Ok tt m' /\
    navigator (prov m') = Some i /\ heap m' !! i = Some n' /\
    objects n' = fresh /\ lv_objects (listView (prov m')) = fresh /\
    position n' = position n /\
    cursorPos (listView (prov m')) = cursorPos (listView (prov m)) /\
    (0 <= position n < Z.of_nat (length fresh) ->
     position n' = clampedCursor (position n) fresh).
Proof.
  intros Hn Hi Hf. destruct (reload_Success e m i n fresh Hn Hi Hf) as (t & H & _).
  eexists _, (setObjects fresh n). split; [exact H|]. simpl.
  assert (Hlt : (i < length (heap m))%nat) by (eapply lookup_lt_Some; eauto).
  rewrite list_lookup_insert_eq by done. repeat split; auto.
  intros Hr. unfold clampedCursor. destruct fresh; simpl length in *; lia.
Qed.

Lemma reload_keeps_cursor_witness :
  exists m' n',
    reload env0 m_leaf = Ok tt m' /\ heap m' !! 1%nat = Some n' /\
    position n' = 2 /\ cursorPos (listView (prov m')) = 2 /\ length (objects n') = 3%nat.
Proof.
  destruct (reload_keeps_cursor env0 m_leaf 1 (nodeAt m_leaf 1)
              [upDir; group "logs/"; NewS3Object Object "readme.txt" (Some 3) (Some 42)])
    as (m' & n' & H & _ & Hi & Ho & _ & Hp & Hc & _);
    try (vm_compute; reflexivity).
  exists m', n'. split; [exact H|]. split; [exact Hi|].
  split; [rewrite Hp; vm_compute; reflexivity|].
  split; [rewrite Hc; vm_compute; reflexivity|]. now rewrite Ho.
Defined.

(** ** Descending and ascending *)

Lemma wf_navigator m (i : nat) :
  wf m -> navigator (prov m) = Some i ->
  exists n, heap m !! i = Some n /\
            listView (prov m) = mkListView (objects n) (key n) (position n).
Proof.
  intros [_ (i' & n & Hn & Hi & Hl)] H. rewrite Hn in H. inversion H; subst. eauto.
Qed.

Lemma descend_miss_ascend m (i : nat) n k objs :
  navigator (prov m) = Some i -> heap m !! i = Some n ->
  exists m1 m2 cn,
    loadNext k objs m = Ok tt m1 /\
    navigator (prov m1) = Some (length (heap m)) /\
    heap m1 !! length (heap m) = Some cn /\ parent cn = Some i /\ objects cn = objs /\
    loadPrev m1 = Ok tt m2 /\ navigator (prov m2) = Some i.
Proof.
  intros Hn Hi.
  assert (Hlt : (i < length (heap m))%nat) by (eapply lookup_lt_Some; eauto).
  rewrite (loadNext_Ok m i n Hn Hi).
  set (new := mkNode k (Some i) objs 0 ∅).
  set (m1 := addLog _ _).
  assert (H1 : heap m1 !! length (heap m) = Some new).
  { simpl. rewrite list_lookup_insert_ne by lia. rewrite lookup_app_r by lia.
    now rewrite Nat.sub_diag. }
  assert (H2 : heap m1 !! i = Some (AddChild n k (length (heap m)))).
  { simpl. apply list_lookup_insert_eq. rewrite length_app. simpl. lia. }
  eexists m1, _, new. split; [reflexivity|]. split; [reflexivity|].
  split; [exact H1|]. split; [reflexivity|]. split; [reflexivity|].
  split; [apply (loadPrev_Ok m1 (length (heap m)) new eq_refl H1 i _ eq_refl H2)|].
  reflexivity.
Qed.

Lemma descend_hit_ascend m (i : nat) n k c :
  wf m -> navigator (prov m) = Some i -> heap m !! i = Some n ->
  children n !! k = Some c ->
  exists m1 m2 cn,
    moveNext k m = Ok tt m1 /\
    navigator (prov m1) = Some c /\ heap m1 = heap m /\
    heap m !! c = Some cn /\ parent cn = Some i /\
    listView (prov m1) = mkListView (objects cn) (key cn) (position cn) /\
    trace m1 = trace m ++ [LogPrint ("Move next. child:" +:+ key cn)] /\
    loadPrev m1 = Ok tt m2 /\ navigator (prov m2) = Some i.
Proof.
  intros [Hh _] Hn Hi Hc.
  destruct (wf_child _ Hh _ _ _ _ Hi Hc) as (cn & Hcn & Hp).
  rewrite (moveNext_Ok m i n Hn Hi k c cn Hc Hcn).
  set (m1 := addLog _ _).
  eexists m1, _, cn. split; [reflexivity|]. split; [reflexivity|].
  split; [reflexivity|]. split; [exact Hcn|]. split; [exact Hp|].
  split; [reflexivity|]. split; [reflexivity|].
  split; [apply (loadPrev_Ok m1 c cn eq_refl Hcn i n Hp Hi)|]. reflexivity.
Qed.

(** C1. From every reachable state, at the current node [i]: a descent
    that creates and attaches a fresh child (cache miss, [loadNext])
    and a descent into a child already present (cache hit, [moveNext])
    both return with the navigator on a child whose parent link is
    [i], and the ascent that follows ([loadPrev]) returns with the
    navigator on [i] again. *)
Theorem ascend_after_descend m (i : nat) :
  reachable m -> navigator (prov m) = Some i ->
  (forall k objs, exists m1 m2 c cn,
     loadNext k objs m = Ok tt m1 /\
     navigator (prov m1) = Some c /\ heap m1 !! c = Some cn /\ parent cn = Some i /\
     loadPrev m1 = Ok tt m2 /\ navigator (prov m2) = Some i) /\
  (forall k n, heap m !! i = Some n -> IsExistChildren n k = true ->
   exists m1 m2 c cn,
     moveNext k m = Ok tt m1 /\ GetChild n k = Some c /\
     navigator (prov m1) = Some c /\ heap m1 !! c = Some cn /\ parent cn = Some i /\
     loadPrev m1 = Ok tt m2 /\ navigator (prov m2) = Some i).
Proof.
  intros Hr Hn. pose proof (reachable_wf m Hr) as Hwf.
  destruct (wf_navigator m i Hwf Hn) as (n & Hi & _). split.
  - intros k objs.
    destruct (descend_miss_ascend m i n k objs Hn Hi)
      as (m1 & m2 & cn & H1 & H2 & H3 & H4 & _ & H5 & H6).
    exists m1, m2, (length (heap m)), cn. auto 10.
  - intros k n' Hi' Hx. rewrite Hi in Hi'. inversion Hi'; subst n'.
    apply IsExistChildren_true in Hx as (c & Hc).
    destruct (descend_hit_ascend m i n k c Hwf Hn Hi Hc)
      as (m1 & m2 & cn & H1 & H2 & H3 & H4 & H5 & _ & _ & H6 & H7).
    exists m1, m2, c, cn. rewrite H3. auto 10.
Qed.

Lemma m_back_reachable : reachable m_back.
Proof.
  apply (reachable_turn env0 (press "h") m_alpha); [apply m_alpha_reachable|].
  vm_compute. reflexivity.
Qed.

Lemma ascend_after_descend_witness :
  (exists m1 m2, loadNext "beta" [upDir] m_back = Ok tt m1 /\
                 loadPrev m1 = Ok tt m2 /\ navigator (prov m2) = Some 0%nat) /\
  (exists m1 m2, moveNext "alpha" m_back = Ok tt m1 /\
                 loadPrev m1 = Ok tt m2 /\ navigator (prov m2) = Some 0%nat).
Proof.
  destruct (ascend_after_descend m_back 0 m_back_reachable) as [H1 H2];
    [vm_compute; reflexivity|].
  split.
  - destruct (H1 "beta" [upDir]) as (m1 & m2 & c & cn & E1 & _ & _ & _ & E2 & E3).
    exists m1, m2. auto.
  - destruct (H2 "alpha" (nodeAt m_back 0)) as (m1 & m2 & c & cn & E1 & _ & _ & _ & _ & E2 & E3);
      [vm_compute; reflexivity | vm_compute; reflexivity |].
    exists m1, m2. auto.
Defined.

Lemma remoteCalls_log t s : remoteCalls (t ++ [LogPrint s]) = remoteCalls t.
Proof. unfold remoteCalls. rewrite List.filter_app. simpl. now rewrite app_nil_r. Qed.

Lemma remoteCalls_call t x :
  isRemoteCall x = true -> remoteCalls (t ++ [x]) = remoteCalls t ++ [x].
Proof. intros H. unfold remoteCalls. rewrite List.filter_app. simpl. now rewrite H. Qed.

Lemma show_hit e obj m (i : nat) n c :
  wf m -> ObjType obj = Bucket \/ ObjType obj = Dir ->
  navigator (prov m) = Some i -> heap m !! i = Some n ->
  children n !! Name obj = Some c ->
  exists m' cn,
    show e obj m = Ok tt m' /\ navigator (prov m') = Some c /\ heap m' = heap m /\
    heap m !! c = Some cn /\
    listView (prov m') = mkListView (objects cn) (key cn) (position cn) /\
    trace m' = trace m ++ [LogPrint ("Move next. child:" +:+ key cn)].
Proof.
  intros Hwf Ht Hn Hi Hc.
  assert (Hx : IsExistChildren n (Name obj) = true) by (unfold IsExistChildren; now rewrite Hc).
  assert (Hwf0 : wf (descentStart obj m)).
  { unfold descentStart. destruct (ObjType obj); auto; now apply set_bucket_goodStep. }
  assert (Hn0 : navigator (prov (descentStart obj m)) = Some i).
  { unfold descentStart. now destruct (ObjType obj). }
  assert (Hi0 : heap (descentStart obj m) !! i = Some n).
  { unfold descentStart. now destruct (ObjType obj). }
  destruct (descend_hit_ascend _ i n (Name obj) c Hwf0 Hn0 Hi0 Hc)
    as (m1 & _ & cn & H1 & H2 & H3 & H4 & _ & H5 & H6 & _).
  assert (Hs : show e obj m = moveNext (Name obj) (descentStart obj m)).
  { unfold show, descentStart. destruct Ht as [Ht|Ht]; rewrite Ht.
    - rewrite (bind_step _ _ _ _ _ (modifyProvider_Ok _ m)).
      rewrite (bind_step _ _ _ _ _ (getProvider_Ok _)). simpl navigator. rewrite Hn.
      match goal with |- bind (load _) _ ?mm = _ =>
        assert (H0 : heap mm !! i = Some n) by exact Hi end.
      rewrite (bind_step _ _ _ _ _ (load_Ok _ _ _ H0)). now rewrite Hx.
    - rewrite (bind_step _ _ _ _ _ (getProvider_Ok m)). rewrite Hn.
      rewrite (bind_step _ _ _ _ _ (load_Ok _ _ _ Hi)). now rewrite Hx. }
  exists m1, cn. rewrite Hs. split; [exact H1|]. split; [exact H2|].
  assert (Hh : heap (descentStart obj m) = heap m).
  { unfold descentStart. now destruct (ObjType obj). }
  assert (Htr : trace (descentStart obj m) = trace m).
  { unfold descentStart. now destruct (ObjType obj). }
  rewrite H3, H6, Hh, Htr. rewrite Hh in H4. auto.
Qed.

Lemma show_miss e obj m (i : nat) n m' :
  ObjType obj = Bucket \/ ObjType obj = Dir ->
  navigator (prov m) = Some i -> heap m !! i = Some n ->
  children n !! Name obj = None ->
  show e obj m = Ok tt m' ->
  exists s n1,
    trace m' = (trace m ++ [descentCall obj m]) ++ [LogPrint s] /\
    navigator (prov m') = Some (length (heap m)) /\
    heap m' !! i = Some n1 /\ children n1 !! Name obj = Some (length (heap m)).
Proof.
  intros Ht Hn Hi Hc H.
  assert (Hx : IsExistChildren n (Name obj) = false) by (unfold IsExistChildren; now rewrite Hc).
  assert (Hlt : (i < length (heap m))%nat) by (eapply lookup_lt_Some; eauto).
  destruct Ht as [Ht|Ht].
  - rewrite (show_Bucket_miss e obj m i n Ht Hn Hi Hx) in H.
    mstep H as objs Ho. apply ListObjects_inv in Ho as (_ & ->).
    rewrite (loadNext_Ok _ i n) in H by assumption. inversion H; subst; clear H.
    unfold descentCall. rewrite Ht. simpl. eexists _, _.
    split; [reflexivity|]. split; [reflexivity|].
    split; [apply list_lookup_insert_eq; rewrite length_app; simpl; lia|].
    simpl. apply lookup_insert_eq.
  - rewrite (show_Dir_miss e obj m i n Ht Hn Hi Hx) in H.
    mstep H as objs Ho. apply ListObjects_inv in Ho as (_ & ->).
    rewrite (loadNext_Ok _ i n) in H by assumption. inversion H; subst; clear H.
    unfold descentCall. rewrite Ht. simpl. eexists _, _.
    split; [reflexivity|]. split; [reflexivity|].
    split; [apply list_lookup_insert_eq; rewrite length_app; simpl; lia|].
    simpl. apply lookup_insert_eq.
Qed.

Lemma turns_goodStep m m' : turns m m' -> goodStep m m'.
Proof.
  induction 1 as [m|e ev m m' m'' H _ IH]; [apply frame_refl|].
  eapply frame_trans; [eapply turn_goodStep; eauto|exact IH].
Qed.

(** After a descent the key is cached at the node the descent started from. *)
Lemma show_caches e obj m (i : nat) m1 :
  wf m -> ObjType obj = Bucket \/ ObjType obj = Dir ->
  navigator (prov m) = Some i -> show e obj m = Ok tt m1 ->
  wf m1 /\
  exists n1 c, heap m1 !! i = Some n1 /\ children n1 !! Name obj = Some c /\
               navigator (prov m1) = Some c.
Proof.
  intros Hwf Ht Hn H. split; [eapply show_goodStep; eauto|].
  destruct (wf_navigator m i Hwf Hn) as (n & Hi & _).
  destruct (children n !! Name obj) as [c|] eqn:Hc.
  - destruct (show_hit e obj m i n c Hwf Ht Hn Hi Hc) as (m' & cn & E & H1 & H2 & _).
    rewrite E in H. inversion H; subst m'. exists n, c. rewrite H2. auto.
  - destruct (show_miss e obj m i n m1 Ht Hn Hi Hc H) as (s & n1 & _ & H1 & H2 & H3).
    eauto.
Qed.

(** C2. From every reachable state, on a Bucket or Dir entry: when the
    key is already a child of the current node, [show] returns with
    the navigator on that very child, the tree untouched (the child
    keeps its listing and its cursor, which the list view now shows)
    and no remote call made; a remote call, exactly one listing, is
    made only when the key is not yet a child.  Hence a second descent
    into the key, after any turns of the loop that lead back to the
    node, lands on the child of the first descent without any remote
    call. *)
Theorem descend_again_reuses_child e obj m (i : nat) n :
  reachable m -> ObjType obj = Bucket \/ ObjType obj = Dir ->
  navigator (prov m) = Some i -> heap m !! i = Some n ->
  (forall c, GetChild n (Name obj) = Some c ->
     exists m' cn,
       show e obj m = Ok tt m' /\ navigator (prov m') = Some c /\ heap m' = heap m /\
       heap m !! c = Some cn /\
       listView (prov m') = mkListView (objects cn) (key cn) (position cn) /\
       remoteCalls (trace m') = remoteCalls (trace m)) /\
  (GetChild n (Name obj) = None ->
     forall m', show e obj m = Ok tt m' ->
       remoteCalls (trace m') = remoteCalls (trace m) ++ [descentCall obj m]) /\
  (forall m1 m2 e',
     show e obj m = Ok tt m1 -> turns m1 m2 -> navigator (prov m2) = Some i ->
     exists m3,
       show e' obj m2 = Ok tt m3 /\ navigator (prov m3) = navigator (prov m1) /\
       heap m3 = heap m2 /\ remoteCalls (trace m3) = remoteCalls (trace m2)).
Proof.
  intros Hr Ht Hn Hi. pose proof (reachable_wf m Hr) as Hwf. split; [|split].
  - intros c Hc.
    destruct (show_hit e obj m i n c Hwf Ht Hn Hi Hc) as (m' & cn & E & H1 & H2 & H3 & H4 & H5).
    exists m', cn. rewrite H5, remoteCalls_log. auto 10.
  - intros Hc m' H.
    destruct (show_miss e obj m i n m' Ht Hn Hi Hc H) as (s & n1 & E & _).
    rewrite E, remoteCalls_log, remoteCalls_call; [reflexivity|].
    unfold descentCall. now destruct (ObjType obj).
  - intros m1 m2 e' H1 Hts Hn2.
    destruct (show_caches e obj m i m1 Hwf Ht Hn H1) as (Hwf1 & n1 & c & Hi1 & Hc1 & Hn1).
    destruct (turns_goodStep m1 m2 Hts Hwf1) as (Hwf2 & Hk).
    destruct (Hk i n1 (Name obj) c Hi1 Hc1) as (n2 & Hi2 & Hc2).
    destruct (show_hit e' obj m2 i n2 c Hwf2 Ht Hn2 Hi2 Hc2)
      as (m3 & cn & E & G1 & G2 & _ & _ & G5).
    exists m3. rewrite G5, remoteCalls_log, Hn1. auto.
Qed.

(** ** The [..] entry and the root *)

(** C9. In every reachable state a node without parent lists Bucket
    entries only, so a node that lists a [..] entry has a parent, and
    that parent is in the tree; with the cursor on a [..] entry,
    [show] is [loadPrev] and returns with the navigator on the parent
    of the current node. *)
Theorem UpDir_only_below_root m :
  reachable m ->
  (forall (i : nat) n, heap m !! i = Some n -> parent n = None -> onlyBuckets (objects n)) /\
  (forall (i : nat) n obj, heap m !! i = Some n -> obj ∈ objects n -> ObjType obj = PreDir ->
     exists q qn, parent n = Some q /\ heap m !! q = Some qn) /\
  (forall e obj, cursorObject (listView (prov m)) = Some obj -> ObjType obj = PreDir ->
     exists (i : nat) n q m',
       navigator (prov m) = Some i /\ heap m !! i = Some n /\ parent n = Some q /\
       show e obj m = Ok tt m' /\ loadPrev m = Ok tt m' /\ navigator (prov m') = Some q).
Proof.
  intros Hr. pose proof (reachable_wf m Hr) as Hwf.
  destruct Hwf as [Hh (i & n & Hn & Hi & Hl)].
  assert (Hup : forall (j : nat) x obj, heap m !! j = Some x -> obj ∈ objects x ->
            ObjType obj = PreDir -> exists q qn, parent x = Some q /\ heap m !! q = Some qn).
  { intros j x obj Hj Hin Ht. destruct (parent x) as [q|] eqn:Hp.
    - destruct (wf_parent _ Hh _ _ _ Hj Hp) as [qn Hq]. eauto.
    - pose proof (wf_root _ Hh _ _ Hj Hp) as Hb.
      unfold onlyBuckets in Hb. rewrite Forall_forall in Hb.
      specialize (Hb obj Hin). congruence. }
  split; [intros j x; apply (wf_root _ Hh)|]. split; [exact Hup|].
  intros e obj Hc Ht.
  assert (Hin : obj ∈ objects n).
  { unfold cursorObject in Hc. rewrite Hl in Hc. simpl in Hc.
    destruct (position n <? 0); [discriminate|].
    eapply list_elem_of_lookup_2; eauto. }
  destruct (Hup i n obj Hi Hin Ht) as (q & qn & Hp & Hq).
  exists i, n, q. eexists. split; [exact Hn|]. split; [exact Hi|]. split; [exact Hp|].
  unfold show. rewrite Ht. rewrite (loadPrev_Ok m i n Hn Hi q qn Hp Hq). auto.
Qed.

Lemma descend_again_reuses_child_witness :
  (exists m', show env_down alphaEntry m_back = Ok tt m' /\
              navigator (prov m') = Some 1%nat /\
              remoteCalls (trace m') = remoteCalls (trace m_back)) /\
  remoteCalls (trace m_first) = remoteCalls (trace m_root) ++ [CallListObjects "alpha" ""] /\
  (exists m3, show env_down alphaEntry m_again = Ok tt m3 /\
              navigator (prov m3) = Some 1%nat /\
              remoteCalls (trace m3) = remoteCalls (trace m_again)).
Proof.
  destruct (descend_again_reuses_child env_down alphaEntry m_back 0 (nodeAt m_back 0)
              m_back_reachable) as (H1 & _);
    [left; reflexivity | vm_compute; reflexivity | vm_compute; reflexivity |].
  destruct (descend_again_reuses_child env0 alphaEntry m_root 0 (nodeAt m_root 0)
              m_root_reachable) as (_ & H2 & H3);
    [left; reflexivity | vm_compute; reflexivity | vm_compute; reflexivity |].
  split; [|split].
  - destruct (H1 1%nat) as (m' & cn & E & G1 & _ & _ & _ & G2); [vm_compute; reflexivity|].
    exists m'. auto.
  - apply (H2 eq_refl m_first). vm_compute. reflexivity.
  - destruct (H3 m_first m_again env_down) as (m3 & E & G1 & G2 & G3).
    + vm_compute. reflexivity.
    + apply (turns_step env0 (press "h") m_first m_again); [vm_compute; reflexivity|].
      apply turns_refl.
    + vm_compute. reflexivity.
    + exists m3. split; [exact E|]. split; [rewrite G1; vm_compute; reflexivity|exact G3].
Defined.

Lemma UpDir_only_below_root_witness :
  exists m', show env0 upDir m_alpha = Ok tt m' /\ loadPrev m_alpha = Ok tt m' /\
             navigator (prov m') = Some 0%nat.
Proof.
  destruct (UpDir_only_below_root m_alpha m_alpha_reachable) as (_ & _ & H).
  destruct (H env0 upDir) as (i & n & q & m' & Hn & Hi & Hp & E1 & E2 & E3);
    [vm_compute; reflexivity | reflexivity |].
  exists m'. split; [exact E1|]. split; [exact E2|].
  rewrite E3. f_equal.
  assert (Hi' : i = 1%nat) by (vm_compute in Hn; congruence). subst i.
  assert (Hn' : heap m_alpha !! 1%nat = Some (nodeAt m_alpha 1)) by (vm_compute; reflexivity).
  rewrite Hn' in Hi. inversion Hi; subst n. vm_compute in Hp. congruence.
Defined.

(** ** Ending the process *)















(** * Further properties of the code *)

(** ** Fields of the provider that handlers leave alone *)

#[global] Instance keepsField_Frame {A} (f : Provider -> A) : Frame (keepsField f).
Proof.
  split.
  - intros m. reflexivity.
  - intros m1 m2 m3 H1 H2. unfold keepsField in *. congruence.
  - intros m t. reflexivity.
Qed.

#[global] Instance nodesKept_Frame : Frame nodesKept.
Proof.
  split.
  - intros m i n H. eauto.
  - intros m1 m2 m3 H1 H2 i n Hi.
    destruct (H1 _ _ Hi) as (n' & Hi' & Hk & Hp).
    destruct (H2 _ _ Hi') as (n'' & Hi'' & Hk' & Hp').
    exists n''. split; [exact Hi''|]. split; congruence.
  - intros m t i n H. simpl. eauto.
Qed.

Lemma preserves_modifyNode_field {A} (f : Provider -> A) p g :
  preserves (keepsField f) (modifyNode p g).
Proof.
  intros m [] m' H. apply modifyNode_inv in H as (i & n & -> & Hi & ->). reflexivity.
Qed.

Lemma preserves_NewNode_field {A} (f : Provider -> A) k par objs :
  preserves (keepsField f) (NewNode k par objs).
Proof. intros m a m' H. inversion H; subst. reflexivity. Qed.

(** Unfold a handler down to the primitive steps. *)
Ltac unfold_handlers :=
  unfold listEvent, menuEvent, detailEvent, menu, detail, moveList, reload, reloadWith,
    download, open, edit, show, moveNext, loadNext, loadPrev, showNode, Update,
    getCursorObject, ListBuckets, ListObjects, DownloadObject, Detail, osCreate,
    logRemoteError, logFatal, logPrint.

Ltac pres_field :=
  repeat first
    [ apply preserves_modifyNode_field
    | apply preserves_NewNode_field
    | apply preserves_modifyProvider; frame_side; intros ?; reflexivity
    | pres_step; cbv zeta ].

Lemma Update_keeps {A} (f : Provider -> A) :
  (forall w p, f (set_navigationView w p) = f p) -> preserves (keepsField f) Update.
Proof.
  intros Hf. unfold Update.
  repeat first
    [ apply preserves_modifyProvider; frame_side; intros ?; apply Hf
    | pres_step; cbv zeta ].
Qed.

(** ** The mode after a key *)

Ltac keep_field f H :=
  match type of H with
  | ?c ?m = Ok _ ?m' =>
      let P := fresh "P" in
      assert (P : preserves (keepsField f) c) by (unfold_handlers; pres_field);
      exact (P _ _ _ H)
  end.

Lemma listEvent_status e ev m m' :
  listEvent e ev m = Ok tt m' ->
  status (prov m') =
    if isKey ev KeyEsc || isCh ev "q" then status (prov m)
    else if isDown ev then status (prov m)
    else if isUp ev then status (prov m)
    else if isCh ev "m" then StateMenu
    else if isCh ev "d" then StateDetail
    else status (prov m).
Proof.
  intros H. unfold listEvent in H.
  destruct (isKey ev KeyEsc || isCh ev "q"); [keep_field (@status) H|].
  destruct (isDown ev); [keep_field (@status) H|].
  destruct (isUp ev); [keep_field (@status) H|].
  destruct (isCh ev "m").
  { unfold menu in H. apply modifyProvider_inv in H as ->. reflexivity. }
  destruct (isCh ev "d").
  { mstep H as obj Ho. unfold detail in H.
    mstep H as u Hu. mstep H as p Hp. mstep H as md Hmd.
    apply modifyProvider_inv in H as ->. simpl.
    match type of Hmd with
    | ?c _ = Ok _ _ =>
        assert (P : preserves (keepsField status) c) by (unfold_handlers; pres_field);
        rewrite (P _ _ _ Hmd)
    end.
    reflexivity. }
  keep_field (@status) H.
Qed.

Lemma menuEvent_status e ev m m' :
  menuEvent e ev m = Ok tt m' ->
  status (prov m') = if isCancel ev || isActivate ev then StateList else status (prov m).
Proof.
  intros H. rewrite menuEvent_cases in H.
  pose proof (isCancel_isActivate ev) as Hca.
  unfold isCancel, isActivate in *.
  destruct (isDown ev); [|destruct (isUp ev)]; simpl in *.
  - apply modifyProvider_inv in H as ->. reflexivity.
  - apply modifyProvider_inv in H as ->. reflexivity.
  - destruct (isCh ev "q"); simpl in *.
    + apply modifyProvider_inv in H as ->. reflexivity.
    + destruct (isKey ev KeyEnter); simpl in *.
      * mstep H as p Hp. destruct (getCursorItem (menuView (prov m))); [|discriminate].
        mstep H as u Hu. apply modifyProvider_inv in H as ->. reflexivity.
      * apply ret_inv in H as [_ ->]. reflexivity.
Qed.

Lemma detailEvent_status ev m m' :
  detailEvent ev m = Ok tt m' ->
  status (prov m') =
    if isDown ev then status (prov m)
    else if isUp ev then status (prov m)
    else if isCh ev "q" then StateList
    else status (prov m).
Proof.
  intros H. unfold detailEvent in H.
  destruct (isDown ev); [apply modifyProvider_inv in H as ->; reflexivity|].
  destruct (isUp ev); [apply modifyProvider_inv in H as ->; reflexivity|].
  destruct (isCh ev "q"); [apply modifyProvider_inv in H as ->; reflexivity|].
  apply ret_inv in H as [_ ->]. reflexivity.
Qed.

(** X1. The mode after a key depends on the mode and the key alone:
    whenever a turn of the loop returns, the session is in the mode
    [nextStatus] gives, whatever the tree, the store and the action
    did.  So Menu and Detail are entered from List only (keys [m] and
    [d]), and each of them is left for List only. *)
Theorem mode_after_key e ev m m' :
  turn e ev m = Ok tt m' ->
  status (prov m') = nextStatus (status (prov m)) ev /\
  (status (prov m') = StateMenu -> status (prov m) = StateMenu \/ status (prov m) = StateList) /\
  (status (prov m') = StateDetail ->
   status (prov m) = StateDetail \/ status (prov m) = StateList).
Proof.
  intros H. unfold turn in H. mstep H as u Hu. destruct u.
  assert (Hupd : status (prov m') = status (prov m0)).
  { eapply (Update_keeps (@status)); eauto. }
  assert (Hnext : status (prov m0) = nextStatus (status (prov m)) ev).
  { unfold Handle in Hu. mstep Hu as p Hp. unfold nextStatus.
    destruct (status (prov m)) eqn:Hs.
    - rewrite (listEvent_status _ _ _ _ Hu), Hs.
      destruct (isKey ev KeyEsc || isCh ev "q"), (isDown ev), (isUp ev),
        (isCh ev "m"), (isCh ev "d"); reflexivity.
    - rewrite (menuEvent_status _ _ _ _ Hu), Hs. reflexivity.
    - rewrite (detailEvent_status _ _ _ Hu), Hs.
      destruct (isDown ev), (isUp ev), (isCh ev "q"); reflexivity. }
  rewrite Hupd, Hnext. split; [reflexivity|].
  unfold nextStatus. destruct (status (prov m)); split; intros E; auto;
    repeat match type of E with
           | (if ?b then _ else _) = _ => destruct b
           end; discriminate.
Qed.

Lemma mode_after_key_witness :
  status (prov m_menu) = StateMenu /\
  status (prov (run (turn env0 (press "q")) m_menu)) = StateList.
Proof.
  destruct (mode_after_key env0 (press "m") m_leaf m_menu) as (H1 & _);
    [vm_compute; reflexivity|].
  destruct (mode_after_key env0 (press "q") m_menu (run (turn env0 (press "q")) m_menu))
    as (H2 & _); [vm_compute; reflexivity|].
  split; [rewrite H1; vm_compute; reflexivity | rewrite H2; vm_compute; reflexivity].
Defined.

(** ** The tree only grows *)

Lemma preserves_modifyNode_nodesKept p g :
  (forall n, key (g n) = key n /\ parent (g n) = parent n) ->
  preserves nodesKept (modifyNode p g).
Proof.
  intros Hg m [] m' H. apply modifyNode_inv in H as (i & n & -> & Hi & ->).
  intros j x Hj. simpl.
  assert (Hlt : (i < length (heap m))%nat) by (eapply lookup_lt_Some; eauto).
  destruct (decide (j = i)) as [E|Hne]; [subst j|].
  - exists (g n). rewrite list_lookup_insert_eq by done.
    rewrite Hi in Hj. inversion Hj; subst x. destruct (Hg n). auto.
  - exists x. rewrite list_lookup_insert_ne by done. auto.
Qed.

Lemma preserves_NewNode_nodesKept k par objs : preserves nodesKept (NewNode k par objs).
Proof.
  intros m a m' H. inversion H; subst. intros j x Hj. simpl.
  exists x. rewrite lookup_app_l by (eapply lookup_lt_Some; eauto). auto.
Qed.

Ltac pres_nodes :=
  repeat first
    [ apply preserves_modifyNode_nodesKept; intros ?; split; reflexivity
    | apply preserves_NewNode_nodesKept
    | apply preserves_modifyProvider; frame_side; intros ? ? ? ?; simpl; eauto
    | pres_step; cbv zeta ].

Lemma turn_nodesKept e ev : preserves nodesKept (turn e ev).
Proof. unfold turn, Handle. unfold_handlers. pres_nodes. Qed.

Lemma turns_nodesKept m m' : turns m m' -> nodesKept m m'.
Proof.
  induction 1 as [m|e ev m m' m'' H _ IH]; [apply frame_refl|].
  eapply frame_trans; [eapply turn_nodesKept; eauto|exact IH].
Qed.

Lemma turns_reachable m m' : turns m m' -> reachable m -> reachable m'.
Proof.
  induction 1 as [m|e ev m m' m'' H _ IH]; [auto|].
  intros Hr. apply IH. eapply reachable_turn; eauto.
Qed.

(** X2. Along every run of the loop from a reachable state the tree
    only grows: every node stays where it is with the key and the
    parent it was created with, every binding of a child to a key
    stays, and the number of nodes never decreases.  No node is ever
    removed, moved or re-attached, and no cached child is evicted or
    replaced. *)
Theorem tree_only_grows m m' :
  reachable m -> turns m m' ->
  (length (heap m) <= length (heap m'))%nat /\
  forall (i : nat) n, heap m !! i = Some n ->
    exists n', heap m' !! i = Some n' /\ key n' = key n /\ parent n' = parent n /\
               forall k c, children n !! k = Some c -> children n' !! k = Some c.
Proof.
  intros Hr Ht. pose proof (turns_nodesKept m m' Ht) as Hk.
  destruct (turns_goodStep m m' Ht (reachable_wf m Hr)) as [_ Hc]. split.
  - destruct (le_lt_dec (length (heap m)) (length (heap m'))) as [Hle|Hlt]; [exact Hle|].
    destruct (lookup_lt_is_Some_2 (heap m) (length (heap m')) Hlt) as [x Hx].
    destruct (Hk _ x Hx) as (n' & Hn' & _).
    apply lookup_lt_Some in Hn'. lia.
  - intros i n Hi. destruct (Hk i n Hi) as (n' & Hi' & Hkey & Hpar).
    exists n'. split; [exact Hi'|]. split; [exact Hkey|]. split; [exact Hpar|].
    intros k c Hkc. destruct (Hc i n k c Hi Hkc) as (n'' & Hi'' & Hkc').
    rewrite Hi' in Hi''. inversion Hi''; subst n''. exact Hkc'.
Qed.

Lemma tree_only_grows_witness :
  (length (heap m_root) <= length (heap m_again))%nat /\
  exists n', heap m_again !! 0%nat = Some n' /\ parent n' = None.
Proof.
  assert (Ht : turns m_root m_again).
  { apply (turns_step env0 enter m_root m_alpha); [vm_compute; reflexivity|].
    apply (turns_step env0 (press "h") m_alpha m_again); [vm_compute; reflexivity|].
    apply turns_refl. }
  destruct (tree_only_grows m_root m_again m_root_reachable Ht) as (H1 & H2).
  split; [exact H1|].
  destruct (H2 0%nat (nodeAt m_root 0)) as (n' & Hn' & _ & Hp & _); [vm_compute; reflexivity|].
  exists n'. split; [exact Hn'|]. rewrite Hp. vm_compute. reflexivity.
Defined.

(** ** What each level lists *)

#[global] Instance kindsStep_Frame : Frame kindsStep.
Proof.
  split.
  - intros m H. exact H.
  - intros m1 m2 m3 H1 H2 H. auto.
  - intros m t H. exact H.
Qed.

Lemma listing_listingOK result :
  belowRootListing (listing result) /\ sizeOnlyOnLeaf (listing result).
Proof.
  unfold listing. split.
  - eexists. split; [reflexivity|]. apply Forall_app. split.
    + apply Forall_forall. intros x Hx.
      apply list_elem_of_In, in_map_iff in Hx as (b & <- & _). auto.
    + apply Forall_forall. intros x Hx.
      apply list_elem_of_In, in_map_iff in Hx as (b & <- & _). auto.
  - simpl. constructor; [simpl; congruence|]. apply Forall_app. split.
    + apply Forall_forall. intros x Hx.
      apply list_elem_of_In, in_map_iff in Hx as (b & <- & _). simpl. congruence.
    + apply Forall_forall. intros x Hx.
      apply list_elem_of_In, in_map_iff in Hx as (b & <- & _). reflexivity.
Qed.

Lemma ListBuckets_sizes e m objs m1 :
  ListBuckets e m = Ok objs m1 -> sizeOnlyOnLeaf objs.
Proof.
  unfold ListBuckets, bind, emit, logRemoteError, logPrint, emit, osExit, ret. simpl.
  destruct (ListBucketsWithContext e); try discriminate.
  intros H. inversion H; subst. apply Forall_forall. intros x Hx.
  apply list_elem_of_In, in_map_iff in Hx as (b & <- & _). simpl. congruence.
Qed.

Lemma heap_eq_kindsStep m m' : heap m' = heap m -> kindsStep m m'.
Proof. intros E H i n Hi. rewrite E in Hi. eauto. Qed.

Lemma preserves_modifyNode_kinds p g :
  (forall n, parent (g n) = parent n /\ objects (g n) = objects n) ->
  preserves kindsStep (modifyNode p g).
Proof.
  intros Hg m [] m' H. apply modifyNode_inv in H as (i & n & -> & Hi & ->).
  intros Hk j x Hj. simpl in Hj.
  assert (Hlt : (i < length (heap m))%nat) by (eapply lookup_lt_Some; eauto).
  destruct (decide (j = i)) as [E|Hne]; [subst j|].
  - rewrite list_lookup_insert_eq in Hj by done. inversion Hj; subst x.
    destruct (Hg n) as [Hp Ho]. specialize (Hk i n Hi).
    unfold listingOK in *. now rewrite Hp, Ho.
  - rewrite list_lookup_insert_ne in Hj by done. eauto.
Qed.

Lemma preserves_NewNode_kinds k par objs :
  listingOK (mkNode k par objs 0 ∅) -> preserves kindsStep (NewNode k par objs).
Proof.
  intros Hn m a m' H. inversion H; subst. intros Hk j x Hj. simpl in Hj.
  destruct (decide (j < length (heap m))%nat).
  - rewrite lookup_app_l in Hj by done. eauto.
  - rewrite lookup_app_r in Hj by lia.
    destruct (j - length (heap m))%nat; simpl in Hj; [|discriminate].
    inversion Hj; subst. exact Hn.
Qed.

Ltac pres_kinds :=
  repeat first
    [ apply preserves_modifyNode_kinds; intros ?; split; reflexivity
    | apply preserves_modifyProvider; frame_side; intros ?; apply heap_eq_kindsStep; reflexivity
    | pres_step; cbv zeta ].

Lemma loadNext_kinds k objs m m' (i : nat) :
  navigator (prov m) = Some i ->
  belowRootListing objs -> sizeOnlyOnLeaf objs ->
  loadNext k objs m = Ok tt m' -> kindsStep m m'.
Proof.
  intros Hn Hb Hs H. unfold loadNext in H. mstep H as p Hp. rewrite Hn in H.
  match type of H with
  | ?c _ = _ =>
      assert (P : preserves kindsStep c)
  end.
  { unfold_handlers.
    repeat first [ apply preserves_NewNode_kinds; split; assumption
                 | progress pres_kinds ]. }
  exact (P _ _ _ H).
Qed.

Lemma reloadWith_kinds objs m m' (i : nat) n :
  navigator (prov m) = Some i -> heap m !! i = Some n ->
  listingOK (setObjects objs n) ->
  reloadWith objs m = Ok tt m' -> kindsStep m m'.
Proof.
  intros Hn Hi Hok H.
  rewrite (reloadWith_Ok m i n Hn Hi) in H. inversion H; subst; clear H.
  intros Hk j x Hj. simpl in Hj.
  assert (Hlt : (i < length (heap m))%nat) by (eapply lookup_lt_Some; eauto).
  destruct (decide (j = i)) as [E|Hne]; [subst j|].
  - rewrite list_lookup_insert_eq in Hj by done. now inversion Hj; subst x.
  - rewrite list_lookup_insert_ne in Hj by done. eauto.
Qed.

Lemma reload_kinds e : preserves kindsStep (reload e).
Proof.
  intros m [] m' H. unfold reload in H.
  mstep H as p Hp. mstep H as n Hn. apply load_inv in Hn as (-> & i & Hn & Hi).
  mstep H as h Hh.
  unfold IsRoot in H. destruct (parent n) as [q|] eqn:Hq.
  - assert (Hok : forall res, listingOK (setObjects (listing res) n)).
    { intros res. unfold listingOK. simpl. rewrite Hq. apply listing_listingOK. }
    destruct (IsBucketRoot (heap m) n);
      mstep H as objs Ho; apply ListObjects_inv in Ho as ((res & _ & ->) & ->);
      eapply frame_trans; try apply frame_trace;
      eapply (reloadWith_kinds _ _ _ i n); eauto.
  - mstep H as objs Ho. pose proof (ListBuckets_sizes _ _ _ _ Ho) as Hs.
    apply ListBuckets_inv in Ho as (Hb & ->).
    eapply frame_trans; [apply frame_trace|].
    eapply (reloadWith_kinds _ _ _ i n); eauto.
    unfold listingOK. simpl. rewrite Hq. auto.
Qed.

Lemma show_kinds e obj : preserves kindsStep (show e obj).
Proof.
  intros m [] m' H. unfold show in H. destruct (ObjType obj).
  - mstep H as u Hu. mstep H as p Hp. mstep H as n Hn.
    apply load_inv in Hn as (-> & i & Hn & Hi). simpl in Hn.
    eapply (frame_trans _ (mkMachine (set_bucket (Name obj) (prov m)) (heap m) (trace m)));
      [apply heap_eq_kindsStep; reflexivity|].
    destruct (IsExistChildren n (Name obj)).
    + match type of H with ?c _ = _ =>
        assert (P : preserves kindsStep c) by (unfold_handlers; pres_kinds) end.
      exact (P _ _ _ H).
    + mstep H as objs Ho. apply ListObjects_inv in Ho as ((res & _ & ->) & ->).
      eapply frame_trans; [apply frame_trace|].
      eapply (loadNext_kinds _ _ _ _ i); eauto; apply listing_listingOK.
  - mstep H as p Hp. mstep H as n Hn. apply load_inv in Hn as (-> & i & Hn & Hi).
    destruct (IsExistChildren n (Name obj)).
    + match type of H with ?c _ = _ =>
        assert (P : preserves kindsStep c) by (unfold_handlers; pres_kinds) end.
      exact (P _ _ _ H).
    + mstep H as objs Ho. apply ListObjects_inv in Ho as ((res & _ & ->) & ->).
      eapply frame_trans; [apply frame_trace|].
      eapply (loadNext_kinds _ _ _ _ i); eauto; apply listing_listingOK.
  - match type of H with ?c _ = _ =>
      assert (P : preserves kindsStep c) by (unfold_handlers; pres_kinds) end.
    exact (P _ _ _ H).
  - apply ret_inv in H as [_ ->]. apply frame_refl.
Qed.

Lemma sameNavigation_kindsStep m m' : sameNavigation m m' -> kindsStep m m'.
Proof. intros (_ & _ & _ & Hh). now apply heap_eq_kindsStep. Qed.

Lemma nav_kindsStep (c : M unit) : preserves sameNavigation c -> preserves kindsStep c.
Proof. apply preserves_weaken, sameNavigation_kindsStep. Qed.

Lemma turn_kinds e ev : preserves kindsStep (turn e ev).
Proof.
  unfold turn. apply preserves_bind; frame_side;
    [|intros _; apply nav_kindsStep, Update_sameNavigation].
  unfold Handle. apply preserves_bind; frame_side; [pres|]. intros p.
  destruct (status p);
    [|apply nav_kindsStep, menuEvent_sameNavigation
     |apply nav_kindsStep, detailEvent_sameNavigation].
  unfold listEvent.
  repeat first
    [ apply reload_kinds
    | apply show_kinds
    | apply preserves_getCursorObject; frame_side
    | apply nav_kindsStep;
      first [ apply menu_sameNavigation | apply detail_sameNavigation
            | apply action_sameNavigation;
              first [apply download_onlyStatusLine | apply open_onlyStatusLine
                    | apply edit_onlyStatusLine] ]
    | progress (unfold moveList, loadPrev, showNode, logPrint)
    | apply preserves_modifyNode_kinds; intros ?; split; reflexivity
    | apply preserves_modifyProvider; frame_side; intros ?; apply heap_eq_kindsStep; reflexivity
    | pres_step; cbv zeta ].
Qed.

Lemma reachable_kindsOK m : reachable m -> kindsOK m.
Proof.
  induction 1 as [e m H|e ev m m' _ IH H].
  - unfold NewProvider in H. mstep H as u Hu.
    eapply sameNavigation_kindsStep; [eapply Update_sameNavigation; eauto|].
    clear H. unfold Init in Hu.
    mstep Hu as objs Ho. pose proof (ListBuckets_sizes _ _ _ _ Ho) as Hs.
    apply ListBuckets_inv in Ho as (Hb & ->).
    unfold bind, NewNode, modifyProvider, load in Hu. simpl in Hu.
    inversion Hu; subst; clear Hu.
    intros [|i] n Hi; simpl in Hi; inversion Hi; subst. split; assumption.
  - eapply turn_kinds; eauto.
Qed.

(** X3. In every reachable state each level of the tree lists what its
    place allows: the root lists Bucket entries only; every level below
    the root lists the [..] entry first, so it is never empty, followed
    by Dir and Object entries only; and an entry that carries a size is
    an Object.  This holds for the first listing of a level and after
    every reload of it. *)
Theorem listings_by_level m (i : nat) n :
  reachable m -> heap m !! i = Some n ->
  (parent n = None -> onlyBuckets (objects n)) /\
  (parent n <> None ->
   exists rest, objects n = upDir :: rest /\
                Forall (fun o => ObjType o = Dir \/ ObjType o = Object) rest) /\
  Forall (fun o => Size o <> None -> ObjType o = Object) (objects n).
Proof.
  intros Hr Hi. destruct (reachable_kindsOK m Hr i n Hi) as [H1 H2].
  split; [|split; [|exact H2]].
  - intros Hp. now rewrite Hp in H1.
  - intros Hp. destruct (parent n); [exact H1|congruence].
Qed.

Lemma listings_by_level_witness :
  exists rest, objects (nodeAt m_leaf 1) = upDir :: rest /\ length rest = 2%nat.
Proof.
  destruct (listings_by_level m_leaf 1 (nodeAt m_leaf 1) m_leaf_reachable)
    as (_ & H & _); [vm_compute; reflexivity|].
  destruct H as (rest & E & _); [vm_compute; discriminate|].
  exists rest. split; [exact E|].
  assert (L : length (objects (nodeAt m_leaf 1)) = 3%nat) by (vm_compute; reflexivity).
  rewrite E in L. simpl in L. lia.
Defined.

(** ** Children are cached under their own key *)

#[global] Instance keysStep_Frame : Frame keysStep.
Proof.
  split.
  - intros m H. exact H.
  - intros m1 m2 m3 H1 H2 H. auto.
  - intros m t H. exact H.
Qed.

Lemma heap_eq_keysStep m m' : heap m' = heap m -> keysStep m m'.
Proof. intros E H. now rewrite E. Qed.

Lemma keysOK_update (h : list Node) (i : nat) n n' :
  keysOK h -> h !! i = Some n -> key n' = key n -> children n' = children n ->
  keysOK (<[i := n']> h).
Proof.
  intros Hk Hi Ekey Ech j x k c Hj Hc.
  assert (Hlt : (i < length h)%nat) by (eapply lookup_lt_Some; eauto).
  assert (Hold : exists y, h !! j = Some y /\ children y = children x).
  { destruct (decide (j = i)) as [E|Hne]; [subst j|].
    - rewrite list_lookup_insert_eq in Hj by done. inversion Hj; subst x. eauto.
    - rewrite list_lookup_insert_ne in Hj by done. eauto. }
  destruct Hold as (y & Hy & Ey). rewrite <- Ey in Hc.
  destruct (Hk _ _ _ _ Hy Hc) as (cn & Hcn & Hck).
  destruct (decide (c = i)) as [E|Hne]; [subst c|].
  - exists n'. rewrite list_lookup_insert_eq by done. split; [done|]. congruence.
  - exists cn. rewrite list_lookup_insert_ne by done. auto.
Qed.

Lemma keysOK_newChild (h : list Node) (i : nat) n k objs :
  keysOK h -> h !! i = Some n ->
  keysOK (<[i := AddChild n k (length h)]> (h ++ [mkNode k (Some i) objs 0 ∅])).
Proof.
  intros Hk Hi j x k' c Hj Hc.
  assert (Hlt : (i < length h)%nat) by (eapply lookup_lt_Some; eauto).
  set (new := mkNode k (Some i) objs 0 ∅) in *.
  assert (Hnew : <[i := AddChild n k (length h)]> (h ++ [new]) !! length h = Some new).
  { rewrite list_lookup_insert_ne by lia. rewrite lookup_app_r by lia.
    now rewrite Nat.sub_diag. }
  assert (Hold : forall c' cn, h !! c' = Some cn ->
            exists cn', <[i := AddChild n k (length h)]> (h ++ [new]) !! c' = Some cn' /\
                        key cn' = key cn).
  { intros c' cn Hcn. destruct (decide (c' = i)) as [E|Hne]; [subst c'|].
    - exists (AddChild n k (length h)).
      rewrite list_lookup_insert_eq by (rewrite length_app; simpl; lia).
      split; [done|]. simpl. congruence.
    - exists cn. rewrite list_lookup_insert_ne by done.
      rewrite lookup_app_l by (eapply lookup_lt_Some; eauto). done. }
  assert (Hfrom : forall y, h !! j = Some y -> children y !! k' = Some c ->
            exists cn, <[i := AddChild n k (length h)]> (h ++ [new]) !! c = Some cn /\
                       key cn = k').
  { intros y Hy Hyc. destruct (Hk _ _ _ _ Hy Hyc) as (cn & Hcn & Hck).
    destruct (Hold _ _ Hcn) as (cn' & ? & ?). exists cn'. split; [done|]. congruence. }
  destruct (decide (j = i)) as [E|Hne]; [subst j|].
  - rewrite list_lookup_insert_eq in Hj by (rewrite length_app; simpl; lia).
    inversion Hj; subst x. simpl in Hc.
    destruct (decide (k = k')) as [E|Hkk]; [subst k'|].
    + rewrite lookup_insert_eq in Hc. inversion Hc; subst c. exists new. done.
    + rewrite lookup_insert_ne in Hc by done. eauto.
  - rewrite list_lookup_insert_ne in Hj by done.
    destruct (decide (j < length h)%nat).
    + rewrite lookup_app_l in Hj by done. eauto.
    + rewrite lookup_app_r in Hj by lia.
      destruct (j - length h)%nat; simpl in Hj; [|discriminate].
      inversion Hj; subst x. simpl in Hc. rewrite lookup_empty in Hc. discriminate.
Qed.

Lemma preserves_modifyNode_keys p g :
  (forall n, key (g n) = key n /\ children (g n) = children n) ->
  preserves keysStep (modifyNode p g).
Proof.
  intros Hg m [] m' H. apply modifyNode_inv in H as (i & n & -> & Hi & ->).
  intros Hk. simpl. destruct (Hg n). eapply keysOK_update; eauto.
Qed.

Lemma loadNext_keys k objs m m' (i : nat) n :
  navigator (prov m) = Some i -> heap m !! i = Some n ->
  loadNext k objs m = Ok tt m' -> keysStep m m'.
Proof.
  intros Hn Hi H Hk. rewrite (loadNext_Ok m i n Hn Hi) in H. inversion H; subst; clear H.
  simpl. now apply keysOK_newChild.
Qed.

Ltac pres_keys_step :=
  first
    [ apply preserves_modifyNode_keys; intros ?; split; reflexivity
    | apply preserves_modifyProvider; frame_side; intros ?; apply heap_eq_keysStep; reflexivity
    | pres_step; cbv zeta ].

Lemma show_keys e obj : preserves keysStep (show e obj).
Proof.
  intros m [] m' H. unfold show in H. destruct (ObjType obj).
  - mstep H as u Hu. mstep H as p Hp. mstep H as n Hn.
    apply load_inv in Hn as (-> & i & Hn & Hi). simpl in Hn.
    eapply (frame_trans _ (mkMachine (set_bucket (Name obj) (prov m)) (heap m) (trace m)));
      [apply heap_eq_keysStep; reflexivity|].
    destruct (IsExistChildren n (Name obj)).
    + match type of H with ?c _ = _ =>
        assert (P : preserves keysStep c) by (unfold_handlers; repeat pres_keys_step) end.
      exact (P _ _ _ H).
    + mstep H as objs Ho. apply ListObjects_inv in Ho as (_ & ->).
      match type of H with loadNext _ _ ?mm = _ =>
        pose proof (loadNext_keys _ _ mm _ i n Hn Hi H) as P end.
      exact P.
  - mstep H as p Hp. mstep H as n Hn. apply load_inv in Hn as (-> & i & Hn & Hi).
    destruct (IsExistChildren n (Name obj)).
    + match type of H with ?c _ = _ =>
        assert (P : preserves keysStep c) by (unfold_handlers; repeat pres_keys_step) end.
      exact (P _ _ _ H).
    + mstep H as objs Ho. apply ListObjects_inv in Ho as (_ & ->).
      match type of H with loadNext _ _ ?mm = _ =>
        pose proof (loadNext_keys _ _ mm _ i n Hn Hi H) as P end.
      exact P.
  - match type of H with ?c _ = _ =>
      assert (P : preserves keysStep c) by (unfold_handlers; repeat pres_keys_step) end.
    exact (P _ _ _ H).
  - apply ret_inv in H as [_ ->]. apply frame_refl.
Qed.

Lemma turn_keys e ev : preserves keysStep (turn e ev).
Proof.
  unfold turn, Handle, listEvent.
  repeat first
    [ apply show_keys
    | progress (unfold menuEvent, detailEvent, menu, detail, moveList, reload, reloadWith,
                  download, open, edit, loadPrev, showNode, Update,
                  getCursorObject, ListBuckets, ListObjects, DownloadObject, Detail, osCreate,
                  logRemoteError, logFatal, logPrint)
    | pres_keys_step ].
Qed.

Lemma reachable_keysOK m : reachable m -> keysOK (heap m).
Proof.
  induction 1 as [e m H|e ev m m' _ IH H].
  - unfold NewProvider in H. mstep H as u Hu.
    destruct (Update_sameNavigation _ _ _ H) as (_ & _ & _ & ->).
    clear H. unfold Init in Hu.
    mstep Hu as objs Ho. apply ListBuckets_inv in Ho as (_ & ->).
    unfold bind, NewNode, modifyProvider, load in Hu. simpl in Hu.
    inversion Hu; subst; clear Hu.
    intros [|i] n k c Hi Hc; simpl in Hi; inversion Hi; subst.
    simpl in Hc. rewrite lookup_empty in Hc. discriminate.
  - eapply turn_keys; eauto.
Qed.

(** ** The navigator stays inside the current bucket *)

Lemma inBucket_kept m m' (j : nat) b :
  nodesKept m m' -> inBucket (heap m) j b -> inBucket (heap m') j b.
Proof.
  intros Hk H. induction H as [i n q qn Hi Hp Hq Hqp|i n q b Hi Hp _ IH].
  - destruct (Hk _ _ Hi) as (n' & Hi' & Ek & Ep).
    destruct (Hk _ _ Hq) as (qn' & Hq' & _ & Eqp).
    rewrite <- Ek. eapply inBucket_top; eauto; congruence.
  - destruct (Hk _ _ Hi) as (n' & Hi' & Ek & Ep).
    eapply inBucket_below; eauto. congruence.
Qed.

Lemma navScoped_kept m m' :
  wf m -> nodesKept m m' ->
  navigator (prov m') = navigator (prov m) -> bucket (prov m') = bucket (prov m) ->
  navScoped m -> navScoped m'.
Proof.
  intros [_ (i0 & n0 & Hn0 & Hi0 & _)] Hk En Eb Hs i n Hn Hi Hp.
  rewrite En, Hn0 in Hn. inversion Hn; subst i0.
  destruct (Hk _ _ Hi0) as (n' & Hi' & _ & Ep).
  rewrite Hi in Hi'. inversion Hi'; subst n'.
  rewrite Eb. eapply inBucket_kept; eauto. apply (Hs i n0); auto. congruence.
Qed.

Lemma sameNavigation_navScoped m m' : sameNavigation m m' -> navScoped m -> navScoped m'.
Proof.
  intros (En & _ & Eb & Eh) Hs i n Hn Hi Hp. rewrite Eb, Eh in *. rewrite En in Hn.
  now apply (Hs i n).
Qed.

(** A handler that keeps the nodes, the navigator and the bucket keeps
    the navigator in its bucket. *)
Ltac scoped_kept H :=
  match type of H with
  | ?c ?m = Ok _ ?m' =>
      let P := fresh "P" in
      let Q := fresh "Q" in
      let S := fresh "S" in
      assert (P : preserves nodesKept c) by (unfold_handlers; pres_nodes);
      assert (Q : preserves (keepsField navigator) c) by (unfold_handlers; pres_field);
      assert (S : preserves (keepsField bucket) c) by (unfold_handlers; pres_field);
      apply (navScoped_kept m m');
        [ assumption | exact (P _ _ _ H) | exact (Q _ _ _ H) | exact (S _ _ _ H) | assumption ]
  end.

Lemma loadPrev_scope m m' :
  wf m -> navScoped m -> loadPrev m = Ok tt m' -> navScoped m'.
Proof.
  intros Hwf Hs H. destruct Hwf as [Hh (i & n & Hn & Hi & _)].
  destruct (parent n) as [q|] eqn:Hp.
  2:{ pose proof (loadPrev_root m i n Hn Hi Hp) as E. rewrite H in E. discriminate. }
  destruct (wf_parent _ Hh _ _ _ Hi Hp) as [qn Hq].
  rewrite (loadPrev_Ok m i n Hn Hi q qn Hp Hq) in H. inversion H; subst; clear H.
  intros i' n' Hn' Hi' Hp'. simpl in *. inversion Hn'; subst i'.
  rewrite Hq in Hi'. inversion Hi'; subst n'.
  assert (Hin : inBucket (heap m) i (bucket (prov m))) by (apply (Hs i n); congruence).
  inversion Hin as [j x q0 qn0 Hj Hxp Hq0 Hqp0 Eb|j x q0 b Hj Hxp Hrec]; subst.
  - rewrite Hi in Hj. inversion Hj; subst x. rewrite Hp in Hxp. inversion Hxp; subst q0.
    rewrite Hq in Hq0. inversion Hq0; subst qn0. congruence.
  - rewrite Hi in Hj. inversion Hj; subst x. rewrite Hp in Hxp. inversion Hxp; subst q0.
    exact Hrec.
Qed.

Lemma cursor_in_listing m (i : nat) n obj :
  wf m -> navigator (prov m) = Some i -> heap m !! i = Some n ->
  cursorObject (listView (prov m)) = Some obj -> obj ∈ objects n.
Proof.
  intros Hwf Hn Hi Hc. destruct (wf_navigator m i Hwf Hn) as (n' & Hi' & Hl).
  rewrite Hi in Hi'. inversion Hi'; subst n'.
  unfold cursorObject in Hc. rewrite Hl in Hc. simpl in Hc.
  destruct (position n <? 0); [discriminate|].
  eapply list_elem_of_lookup_2; eauto.
Qed.

(** By the kinds of the entries: a Bucket entry is under the cursor at
    the root only, a Dir entry below the root only. *)
Lemma entry_level n obj :
  listingOK n -> obj ∈ objects n ->
  (ObjType obj = Bucket -> parent n = None) /\
  (ObjType obj = Dir -> parent n <> None).
Proof.
  intros [Hl _] Hin. destruct (parent n) as [q|].
  - destruct Hl as (rest & E & Hrest). rewrite E in Hin.
    apply elem_of_cons in Hin as [->|Hin].
    + split; [discriminate|congruence].
    + rewrite Forall_forall in Hrest. specialize (Hrest _ Hin).
      split; [|congruence]. intros Hb. destruct Hrest; congruence.
  - unfold onlyBuckets in Hl. rewrite Forall_forall in Hl. specialize (Hl _ Hin).
    split; [reflexivity|]. intros Hd. congruence.
Qed.

Lemma show_scope e obj m m' :
  wf m -> kindsOK m -> keysOK (heap m) -> navScoped m ->
  cursorObject (listView (prov m)) = Some obj ->
  show e obj m = Ok tt m' -> navScoped m'.
Proof.
  intros Hwf Hkinds Hkeys Hs Hc H.
  pose proof Hwf as [Hh (i & n & Hn & Hi & _)].
  pose proof (cursor_in_listing m i n obj Hwf Hn Hi Hc) as Hin.
  destruct (entry_level n obj (Hkinds i n Hi) Hin) as [Hbucket Hdir].
  assert (Hlt : (i < length (heap m))%nat) by (eapply lookup_lt_Some; eauto).
  assert (Hkept : nodesKept m m').
  { assert (P : preserves nodesKept (show e obj)) by (unfold_handlers; pres_nodes).
    exact (P _ _ _ H). }
  destruct (ObjType obj) eqn:Ht.
  - (* Bucket: the current node is the root *)
    specialize (Hbucket eq_refl).
    destruct (children n !! Name obj) as [c|] eqn:Hch.
    + destruct (wf_child _ Hh _ _ _ _ Hi Hch) as (cn & Hcn & Hcp).
      destruct (Hkeys _ _ _ _ Hi Hch) as (cn' & Hcn' & Hck).
      rewrite Hcn in Hcn'. inversion Hcn'; subst cn'.
      unfold show in H. rewrite Ht in H.
      rewrite (bind_step _ _ _ _ _ (modifyProvider_Ok _ m)) in H.
      rewrite (bind_step _ _ _ _ _ (getProvider_Ok _)) in H. simpl navigator in H.
      rewrite Hn in H.
      match type of H with bind (load _) _ ?mm = _ =>
        assert (H0 : heap mm !! i = Some n) by exact Hi;
        rewrite (bind_step _ _ _ _ _ (load_Ok _ _ _ H0)) in H;
        assert (Hx : IsExistChildren n (Name obj) = true)
          by (unfold IsExistChildren; now rewrite Hch);
        rewrite Hx in H;
        rewrite (moveNext_Ok mm i n Hn H0 (Name obj) c cn Hch Hcn) in H
      end.
      inversion H; subst; clear H.
      intros i' n' Hn' Hi' Hp'. simpl in *. inversion Hn'; subst i'.
      rewrite Hcn in Hi'. inversion Hi'; subst n'.
      rewrite <- Hck. eapply inBucket_top; eauto.
    + assert (Hx : IsExistChildren n (Name obj) = false)
        by (unfold IsExistChildren; now rewrite Hch).
      rewrite (show_Bucket_miss e obj m i n Ht Hn Hi Hx) in H.
      mstep H as objs Ho. apply ListObjects_inv in Ho as (_ & ->).
      rewrite (loadNext_Ok _ i n) in H by assumption. inversion H; subst; clear H.
      intros i' n' Hn' Hi' Hp'. simpl in *. inversion Hn'; subst i'.
      rewrite list_lookup_insert_ne in Hi' by lia. rewrite lookup_app_r in Hi' by lia.
      rewrite Nat.sub_diag in Hi'. simpl in Hi'. inversion Hi'; subst n'.
      change (Name obj) with (key (mkNode (Name obj) (Some i) objs 0 ∅)) at 3.
      eapply (inBucket_top _ _ _ i (AddChild n (Name obj) (length (heap m)))).
      * rewrite list_lookup_insert_ne by lia. rewrite lookup_app_r by lia.
        now rewrite Nat.sub_diag.
      * reflexivity.
      * apply list_lookup_insert_eq. rewrite length_app. simpl. lia.
      * exact Hbucket.
  - (* Dir: the current node is below the root *)
    specialize (Hdir eq_refl).
    pose proof (Hs i n Hn Hi Hdir) as Hib.
    destruct (children n !! Name obj) as [c|] eqn:Hch.
    + destruct (wf_child _ Hh _ _ _ _ Hi Hch) as (cn & Hcn & Hcp).
      unfold show in H. rewrite Ht in H.
      rewrite (bind_step _ _ _ _ _ (getProvider_Ok m)) in H. rewrite Hn in H.
      rewrite (bind_step _ _ _ _ _ (load_Ok _ _ _ Hi)) in H.
      assert (Hx : IsExistChildren n (Name obj) = true)
        by (unfold IsExistChildren; now rewrite Hch).
      rewrite Hx in H. rewrite (moveNext_Ok m i n Hn Hi (Name obj) c cn Hch Hcn) in H.
      inversion H; subst; clear H.
      intros i' n' Hn' Hi' Hp'. simpl in *. inversion Hn'; subst i'.
      eapply (inBucket_below _ c cn i); [exact Hcn | exact Hcp | exact Hib].
    + assert (Hx : IsExistChildren n (Name obj) = false)
        by (unfold IsExistChildren; now rewrite Hch).
      pose proof H as H'.
      rewrite (show_Dir_miss e obj m i n Ht Hn Hi Hx) in H.
      mstep H as objs Ho. apply ListObjects_inv in Ho as (_ & ->).
      rewrite (loadNext_Ok _ i n) in H by assumption. inversion H; subst; clear H.
      pose proof (inBucket_kept _ _ i _ Hkept Hib) as Hib'.
      intros i' n' Hn' Hi' Hp'. simpl in *. inversion Hn'; subst i'.
      rewrite list_lookup_insert_ne in Hi' by lia. rewrite lookup_app_r in Hi' by lia.
      rewrite Nat.sub_diag in Hi'. simpl in Hi'. inversion Hi'; subst n'.
      eapply (inBucket_below _ _ _ i).
      * rewrite list_lookup_insert_ne by lia. rewrite lookup_app_r by lia.
        now rewrite Nat.sub_diag.
      * reflexivity.
      * exact Hib'.
  - unfold show in H. rewrite Ht in H. eapply loadPrev_scope; eauto.
  - unfold show in H. rewrite Ht in H. apply ret_inv in H as [_ ->]. exact Hs.
Qed.

Lemma getCursorObject_inv m obj m1 :
  getCursorObject m = Ok obj m1 -> m1 = m /\ cursorObject (listView (prov m)) = Some obj.
Proof.
  unfold getCursorObject. intros H. mstep H as p Hp.
  destruct (cursorObject (listView (prov m))); [|discriminate].
  apply ret_inv in H as [-> ->]. auto.
Qed.

Lemma listEvent_scope e ev m m' :
  wf m -> kindsOK m -> keysOK (heap m) -> navScoped m ->
  listEvent e ev m = Ok tt m' -> navScoped m'.
Proof.
  intros Hwf Hkinds Hkeys Hs H. unfold listEvent in H.
  destruct (isKey ev KeyEsc || isCh ev "q"); [scoped_kept H|].
  destruct (isDown ev); [scoped_kept H|].
  destruct (isUp ev); [scoped_kept H|].
  destruct (isCh ev "m"); [scoped_kept H|].
  destruct (isCh ev "d"); [scoped_kept H|].
  destruct (isCh ev "h" || isKey ev KeyArrowLeft).
  { mstep H as p Hp. mstep H as n Hn. apply load_inv in Hn as (-> & _).
    destruct (negb (IsRoot n)); [eapply loadPrev_scope; eauto|].
    apply ret_inv in H as [_ ->]. exact Hs. }
  destruct (isCh ev "r"); [scoped_kept H|].
  destruct (isCh ev "w"); [scoped_kept H|].
  destruct (isCh ev "o"); [scoped_kept H|].
  destruct (isCh ev "e"); [scoped_kept H|].
  destruct (isCh ev "l" || isKey ev KeyArrowRight || isKey ev KeyEnter).
  { mstep H as obj Ho. apply getCursorObject_inv in Ho as (-> & Hc).
    eapply show_scope; eauto. }
  apply ret_inv in H as [_ ->]. exact Hs.
Qed.

Lemma turn_scope e ev m m' :
  wf m -> kindsOK m -> keysOK (heap m) -> navScoped m ->
  turn e ev m = Ok tt m' -> navScoped m'.
Proof.
  intros Hwf Hkinds Hkeys Hs H. unfold turn in H. mstep H as u Hu. destruct u.
  eapply sameNavigation_navScoped; [eapply Update_sameNavigation; eauto|].
  clear H. unfold Handle in Hu. mstep Hu as p Hp.
  destruct (status (prov m)).
  - eapply listEvent_scope; eauto.
  - eapply sameNavigation_navScoped; [eapply menuEvent_sameNavigation; eauto|exact Hs].
  - eapply sameNavigation_navScoped; [eapply detailEvent_sameNavigation; eauto|exact Hs].
Qed.

Lemma reachable_navScoped m : reachable m -> navScoped m.
Proof.
  induction 1 as [e m H|e ev m m' Hr IH H].
  - unfold NewProvider in H. mstep H as u Hu.
    eapply sameNavigation_navScoped; [eapply Update_sameNavigation; eauto|].
    clear H. unfold Init in Hu.
    mstep Hu as objs Ho. apply ListBuckets_inv in Ho as (_ & ->).
    unfold bind, NewNode, modifyProvider, load in Hu. simpl in Hu.
    inversion Hu; subst; clear Hu.
    intros i n Hn Hi Hp. simpl in *. inversion Hn; subst i. simpl in Hi.
    inversion Hi; subst n. simpl in Hp. congruence.
  - eapply turn_scope; eauto using reachable_wf, reachable_kindsOK, reachable_keysOK.
Qed.

Lemma inBucket_not_root (h : list Node) (i : nat) n b :
  inBucket h i b -> h !! i = Some n -> parent n <> None.
Proof.
  intros H Hi. inversion H as [j x q qn Hj Hp Hq Hqp Eb|j x q b' Hj Hp Hrec]; subst;
    rewrite Hi in Hj; inversion Hj; subst x; congruence.
Qed.

Lemma reload_first_call e m (i : nat) n :
  navigator (prov m) = Some i -> heap m !! i = Some n -> parent n <> None ->
  exists t, trace (outcomeMachine (reload e m)) = (trace m ++ [reloadCall m n]) ++ t.
Proof.
  intros Hn Hi Hp. unfold reload.
  rewrite (bind_step _ _ _ _ _ (getProvider_Ok m)). rewrite Hn.
  rewrite (bind_step _ _ _ _ _ (load_Ok _ _ _ Hi)).
  rewrite (bind_step _ _ _ _ _ (getHeap_Ok m)).
  assert (Hr : IsRoot n = false) by (unfold IsRoot; destruct (parent n); congruence).
  rewrite Hr. unfold reloadCall.
  assert (Hcall : forall pfx,
            exists t, trace (outcomeMachine
                        (bind (ListObjects e (bucket (prov m)) pfx) reloadWith m))
                      = (trace m ++ [CallListObjects (bucket (prov m)) pfx]) ++ t).
  { intros pfx. destruct (ListObjectsWithContext e (bucket (prov m)) pfx) as [res| |] eqn:E.
    - rewrite (bind_step _ _ _ _ _ (ListObjects_Success _ _ _ _ _ E)).
      rewrite (reloadWith_Ok _ i n) by assumption. exists []. simpl. now rewrite app_nil_r.
    - rewrite (bind_Exit _ _ _ _ _
                 (ListObjects_failure e _ pfx m ltac:(rewrite E; exact I))).
      eexists. reflexivity.
    - rewrite (bind_Exit _ _ _ _ _
                 (ListObjects_failure e _ pfx m ltac:(rewrite E; exact I))).
      eexists. reflexivity. }
  destruct (IsBucketRoot (heap m) n); apply Hcall.
Qed.

(** X4. In every reachable state with the navigator below the root,
    the current node lies in the current bucket: following parent links
    from it leads to the child of the root whose key is [p.bucket].  At
    the top level of a bucket the node's key is the bucket itself.  So
    the first thing a reload does there is to list the bucket the user
    is in, at the top level or under the node's own key. *)
Theorem navigator_in_current_bucket e m (i : nat) n :
  reachable m -> navigator (prov m) = Some i -> heap m !! i = Some n ->
  parent n <> None ->
  inBucket (heap m) i (bucket (prov m)) /\
  (IsBucketRoot (heap m) n = true -> key n = bucket (prov m)) /\
  exists t, trace (outcomeMachine (reload e m)) = (trace m ++ [reloadCall m n]) ++ t.
Proof.
  intros Hr Hn Hi Hp. pose proof (reachable_navScoped m Hr i n Hn Hi Hp) as Hin.
  split; [exact Hin|]. split; [|now apply (reload_first_call e m i n)].
  intros Hb. unfold IsBucketRoot in Hb.
  inversion Hin as [j x q qn Hj Hxp Hq Hqp Eb|j x q b Hj Hxp Hrec]; subst.
  - rewrite Hi in Hj. now inversion Hj.
  - rewrite Hi in Hj. inversion Hj; subst x. rewrite Hxp in Hb.
    destruct (heap m !! q) as [qn|] eqn:Hq; [|discriminate].
    pose proof (inBucket_not_root _ _ _ _ Hrec Hq) as Hne.
    unfold IsRoot in Hb. destruct (parent qn); congruence.
Qed.

Lemma navigator_in_current_bucket_witness :
  inBucket (heap m_leaf) 1 "alpha" /\
  exists t, trace (outcomeMachine (reload env_down m_leaf))
            = (trace m_leaf ++ [CallListObjects "alpha" ""]) ++ t.
Proof.
  destruct (navigator_in_current_bucket env_down m_leaf 1 (nodeAt m_leaf 1) m_leaf_reachable)
    as (H1 & _ & H2);
    [vm_compute; reflexivity | vm_compute; reflexivity | vm_compute; discriminate |].
  split; [exact H1|exact H2].
Defined.

(** ** The bucket changes at a Bucket entry only *)

Lemma listEvent_bucket e ev m m' :
  listEvent e ev m = Ok tt m' ->
  bucket (prov m') = bucket (prov m) \/
  exists obj, cursorObject (listView (prov m)) = Some obj /\ ObjType obj = Bucket /\
              bucket (prov m') = Name obj.
Proof.
  intros H. unfold listEvent in H.
  destruct (isKey ev KeyEsc || isCh ev "q"); [left; keep_field (@bucket) H|].
  destruct (isDown ev); [left; keep_field (@bucket) H|].
  destruct (isUp ev); [left; keep_field (@bucket) H|].
  destruct (isCh ev "m"); [left; keep_field (@bucket) H|].
  destruct (isCh ev "d"); [left; keep_field (@bucket) H|].
  destruct (isCh ev "h" || isKey ev KeyArrowLeft); [left; keep_field (@bucket) H|].
  destruct (isCh ev "r"); [left; keep_field (@bucket) H|].
  destruct (isCh ev "w"); [left; keep_field (@bucket) H|].
  destruct (isCh ev "o"); [left; keep_field (@bucket) H|].
  destruct (isCh ev "e"); [left; keep_field (@bucket) H|].
  destruct (isCh ev "l" || isKey ev KeyArrowRight || isKey ev KeyEnter).
  2:{ left. keep_field (@bucket) H. }
  mstep H as obj Ho. apply getCursorObject_inv in Ho as (-> & Hc).
  unfold show in H. destruct (ObjType obj) eqn:Ht.
  - right. exists obj. split; [exact Hc|]. split; [exact Ht|].
    mstep H as u Hu.
    match type of H with ?c ?mm = _ =>
      assert (P : preserves (keepsField bucket) c) by (unfold_handlers; pres_field);
      exact (P _ _ _ H)
    end.
  - left. keep_field (@bucket) H.
  - left. keep_field (@bucket) H.
  - left. keep_field (@bucket) H.
Qed.

(** X5. The current bucket changes in one way only: a turn of the loop
    that returns either leaves [p.bucket] as it was, or was taken in
    List mode with the cursor on a Bucket entry, whose name is then the
    current bucket.  Going back up, reloading, the actions and the
    Menu and Detail modes never change it. *)
Theorem bucket_set_by_Bucket_entry e ev m m' :
  turn e ev m = Ok tt m' ->
  bucket (prov m') = bucket (prov m) \/
  (status (prov m) = StateList /\
   exists obj, cursorObject (listView (prov m)) = Some obj /\ ObjType obj = Bucket /\
               bucket (prov m') = Name obj).
Proof.
  intros H. unfold turn in H. mstep H as u Hu. destruct u.
  assert (Hupd : bucket (prov m') = bucket (prov m0)).
  { eapply (Update_keeps (@bucket)); eauto. }
  rewrite Hupd. clear H Hupd. unfold Handle in Hu. mstep Hu as p Hp.
  destruct (status (prov m)) eqn:Hs.
  - destruct (listEvent_bucket _ _ _ _ Hu) as [E|E]; auto.
  - left. now destruct (menuEvent_sameNavigation _ _ _ _ _ Hu) as (_ & _ & E & _).
  - left. now destruct (detailEvent_sameNavigation _ _ _ _ Hu) as (_ & _ & E & _).
Qed.

Lemma bucket_set_by_Bucket_entry_witness :
  bucket (prov m_alpha) = "alpha" /\ bucket (prov m_back) = "alpha".
Proof.
  destruct (bucket_set_by_Bucket_entry env0 enter m_root m_alpha) as [E|(_ & obj & Hc & _ & E)];
    [vm_compute; reflexivity | vm_compute in E; discriminate |].
  destruct (bucket_set_by_Bucket_entry env0 (press "h") m_alpha m_back)
    as [E'|(_ & obj' & Hc' & Ht' & _)]; [vm_compute; reflexivity | |].
  - split; [|rewrite E']; rewrite E; vm_compute in Hc; inversion Hc; reflexivity.
  - vm_compute in Hc'. inversion Hc'; subst obj'. discriminate.
Defined.

(** ** Invariants of the shape of the tree *)

Section HeapInvariant.
Variable Inv : list Node -> Prop.
Hypothesis Inv_update : forall (h : list Node) (i : nat) n n',
  Inv h -> h !! i = Some n ->
  key n' = key n -> parent n' = parent n -> children n' = children n ->
  Inv (<[i := n']> h).
Hypothesis Inv_newChild : forall (h : list Node) (i : nat) n k objs,
  Inv h -> h !! i = Some n -> children n !! k = None ->
  Inv (<[i := AddChild n k (length h)]> (h ++ [mkNode k (Some i) objs 0 ∅])).
Hypothesis Inv_root : forall objs, Inv [mkNode "" None objs 0 ∅].

Let invStep (m m' : Machine) : Prop := Inv (heap m) -> Inv (heap m').

Local Instance invStep_Frame : Frame invStep.
Proof.
  split.
  - intros m H. exact H.
  - intros m1 m2 m3 H1 H2 H. auto.
  - intros m t H. exact H.
Qed.

Lemma preserves_modifyNode_inv p g :
  (forall n, key (g n) = key n /\ parent (g n) = parent n /\ children (g n) = children n) ->
  preserves invStep (modifyNode p g).
Proof.
  intros Hg m [] m' H. apply modifyNode_inv in H as (i & n & -> & Hi & ->).
  intros Hk. simpl. destruct (Hg n) as (? & ? & ?). eapply Inv_update; eauto.
Qed.

Lemma preserves_modifyProvider_inv f : preserves invStep (modifyProvider f).
Proof. intros m a m' H. apply modifyProvider_inv in H as ->. intros Hk. exact Hk. Qed.

Lemma loadNext_inv k objs m m' (i : nat) n :
  navigator (prov m) = Some i -> heap m !! i = Some n -> children n !! k = None ->
  loadNext k objs m = Ok tt m' -> invStep m m'.
Proof.
  intros Hn Hi Hfree H Hk. rewrite (loadNext_Ok m i n Hn Hi) in H. inversion H; subst; clear H.
  simpl. now apply Inv_newChild.
Qed.

Ltac pres_inv_step :=
  first
    [ apply preserves_modifyNode_inv; intros ?; repeat split; reflexivity
    | apply preserves_modifyProvider_inv
    | pres_step; cbv zeta ].

Lemma show_inv e obj : preserves invStep (show e obj).
Proof.
  intros m [] m' H. unfold show in H. destruct (ObjType obj).
  - mstep H as u Hu. mstep H as p Hp. mstep H as n Hn.
    apply load_inv in Hn as (-> & i & Hn & Hi). simpl in Hn.
    eapply (frame_trans _ (mkMachine (set_bucket (Name obj) (prov m)) (heap m) (trace m)));
      [intros Hk; exact Hk|].
    destruct (IsExistChildren n (Name obj)) eqn:Ex.
    + match type of H with ?c _ = _ =>
        assert (P : preserves invStep c) by (unfold_handlers; repeat pres_inv_step) end.
      exact (P _ _ _ H).
    + mstep H as objs Ho. apply ListObjects_inv in Ho as (_ & ->).
      match type of H with loadNext _ _ ?mm = _ =>
        pose proof (loadNext_inv _ _ mm _ i n Hn Hi (IsExistChildren_false _ _ Ex) H) as P end.
      exact P.
  - mstep H as p Hp. mstep H as n Hn. apply load_inv in Hn as (-> & i & Hn & Hi).
    destruct (IsExistChildren n (Name obj)) eqn:Ex.
    + match type of H with ?c _ = _ =>
        assert (P : preserves invStep c) by (unfold_handlers; repeat pres_inv_step) end.
      exact (P _ _ _ H).
    + mstep H as objs Ho. apply ListObjects_inv in Ho as (_ & ->).
      match type of H with loadNext _ _ ?mm = _ =>
        pose proof (loadNext_inv _ _ mm _ i n Hn Hi (IsExistChildren_false _ _ Ex) H) as P end.
      exact P.
  - match type of H with ?c _ = _ =>
      assert (P : preserves invStep c) by (unfold_handlers; repeat pres_inv_step) end.
    exact (P _ _ _ H).
  - apply ret_inv in H as [_ ->]. apply frame_refl.
Qed.

Lemma turn_inv e ev : preserves invStep (turn e ev).
Proof.
  unfold turn, Handle, listEvent.
  repeat first
    [ apply show_inv
    | progress (unfold menuEvent, detailEvent, menu, detail, moveList, reload, reloadWith,
                  download, open, edit, loadPrev, showNode, Update,
                  getCursorObject, ListBuckets, ListObjects, DownloadObject, Detail, osCreate,
                  logRemoteError, logFatal, logPrint)
    | pres_inv_step ].
Qed.

Lemma reachable_inv m : reachable m -> Inv (heap m).
Proof.
  induction 1 as [e m H|e ev m m' _ IH H].
  - unfold NewProvider in H. mstep H as u Hu.
    destruct (Update_sameNavigation _ _ _ H) as (_ & _ & _ & ->).
    clear H. unfold Init in Hu.
    mstep Hu as objs Ho. apply ListBuckets_inv in Ho as (_ & ->).
    unfold bind, NewNode, modifyProvider, load in Hu. simpl in Hu.
    inversion Hu; subst; clear Hu. simpl. apply Inv_root.
  - eapply turn_inv; eauto.
Qed.
End HeapInvariant.

Lemma treeShape_update (h : list Node) (i : nat) n n' :
  treeShape h -> h !! i = Some n ->
  key n' = key n -> parent n' = parent n -> children n' = children n ->
  treeShape (<[i := n']> h).
Proof.
  intros Hs Hi Ek Ep Ec j x Hj.
  assert (Hlt : (i < length h)%nat) by (eapply lookup_lt_Some; eauto).
  assert (Hold : exists y, h !! j = Some y /\ key x = key y /\ parent x = parent y).
  { destruct (decide (j = i)) as [E|Hne]; [subst j|].
    - rewrite list_lookup_insert_eq in Hj by done. inversion Hj; subst x. eauto.
    - rewrite list_lookup_insert_ne in Hj by done. eauto. }
  destruct Hold as (y & Hy & Eky & Epy). destruct (Hs j y Hy) as [Hroot Hpar].
  rewrite Epy, Eky. split; [exact Hroot|].
  intros q Hq. destruct (Hpar q Hq) as (Hlt' & qn & Hqn & Hreg). split; [exact Hlt'|].
  destruct (decide (q = i)) as [E|Hne]; [subst q|].
  - exists n'. rewrite list_lookup_insert_eq by done. split; [done|].
    rewrite Ec. congruence.
  - exists qn. rewrite list_lookup_insert_ne by done. auto.
Qed.

Lemma treeShape_newChild (h : list Node) (i : nat) n k objs :
  treeShape h -> h !! i = Some n -> children n !! k = None ->
  treeShape (<[i := AddChild n k (length h)]> (h ++ [mkNode k (Some i) objs 0 ∅])).
Proof.
  intros Hs Hi Hfree j x Hj.
  assert (Hlt : (i < length h)%nat) by (eapply lookup_lt_Some; eauto).
  set (new := mkNode k (Some i) objs 0 ∅) in *.
  set (h' := <[i := AddChild n k (length h)]> (h ++ [new])) in *.
  assert (Hat_i : h' !! i = Some (AddChild n k (length h))).
  { apply list_lookup_insert_eq. rewrite length_app. simpl. lia. }
  assert (Hother : forall q y, q <> i -> h !! q = Some y -> h' !! q = Some y).
  { intros q y Hne Hy. unfold h'. rewrite list_lookup_insert_ne by done.
    rewrite lookup_app_l by (eapply lookup_lt_Some; eauto). done. }
  assert (Hold : forall y, h !! j = Some y -> key x = key y -> parent x = parent y ->
            (parent x = None <-> j = 0%nat) /\
            (forall q : nat, parent x = Some q ->
               (q < j)%nat /\ exists qn, h' !! q = Some qn /\ children qn !! key x = Some j)).
  { intros y Hy Eky Epy. destruct (Hs j y Hy) as [Hroot Hpar].
    rewrite Epy, Eky. split; [exact Hroot|].
    intros q Hq. destruct (Hpar q Hq) as (Hlt' & qn & Hqn & Hreg). split; [exact Hlt'|].
    destruct (decide (q = i)) as [E|Hne]; [subst q|].
    - exists (AddChild n k (length h)). split; [exact Hat_i|]. simpl.
      rewrite Hi in Hqn. inversion Hqn; subst qn.
      destruct (decide (k = key y)) as [E|Hk]; [subst k; congruence|].
      now rewrite lookup_insert_ne.
    - exists qn. split; [now apply Hother|exact Hreg]. }
  destruct (decide (j = i)) as [E|Hne]; [subst j|].
  - rewrite Hat_i in Hj. inversion Hj; subst x. now apply (Hold n).
  - unfold h' in Hj. rewrite list_lookup_insert_ne in Hj by done.
    destruct (decide (j < length h)%nat).
    + rewrite lookup_app_l in Hj by done. now apply (Hold x).
    + rewrite lookup_app_r in Hj by lia.
      destruct (j - length h)%nat eqn:E; simpl in Hj; [|discriminate].
      inversion Hj; subst x. assert (j = length h) by lia. subst j. simpl. split.
      * split; [discriminate|lia].
      * intros q Hq. inversion Hq; subst q. split; [exact Hlt|].
        exists (AddChild n k (length h)). split; [exact Hat_i|]. simpl.
        apply lookup_insert_eq.
Qed.

Lemma treeShape_root objs : treeShape [mkNode "" None objs 0 ∅].
Proof.
  intros [|i] n Hi; simpl in Hi; inversion Hi; subst. simpl.
  split; [tauto|discriminate].
Qed.

(** X6. In every reachable state the parent links and the child maps
    describe one tree: node 0 is the root and the only node without a
    parent; a parent was created before its child, so parent links
    cannot form a cycle, and it holds the child under the child's own
    key; conversely whatever a node holds under a key is a node whose
    parent link points back to it and whose key is that key. *)
Theorem tree_shape m (i : nat) n :
  reachable m -> heap m !! i = Some n ->
  (parent n = None <-> i = 0%nat) /\
  (forall q : nat, parent n = Some q ->
     (q < i)%nat /\ exists qn, heap m !! q = Some qn /\ children qn !! key n = Some i) /\
  (forall k (c : nat), children n !! k = Some c ->
     exists cn, heap m !! c = Some cn /\ parent cn = Some i /\ key cn = k).
Proof.
  intros Hr Hi.
  destruct (reachable_inv treeShape treeShape_update treeShape_newChild treeShape_root
              m Hr i n Hi) as [H1 H2].
  split; [exact H1|]. split; [exact H2|].
  intros k c Hc. destruct (reachable_wf m Hr) as [Hh _].
  destruct (wf_child _ Hh _ _ _ _ Hi Hc) as (cn & Hcn & Hcp).
  destruct (reachable_keysOK m Hr _ _ _ _ Hi Hc) as (cn' & Hcn' & Hck).
  rewrite Hcn in Hcn'. inversion Hcn'; subst cn'. eauto.
Qed.

Lemma tree_shape_witness :
  parent (nodeAt m_leaf 1) = Some 0%nat /\
  exists qn, heap m_leaf !! 0%nat = Some qn /\ children qn !! "alpha" = Some 1%nat.
Proof.
  destruct (tree_shape m_leaf 1 (nodeAt m_leaf 1) m_leaf_reachable) as (_ & H & _);
    [vm_compute; reflexivity|].
  destruct (H 0%nat) as (_ & qn & Hq & Hc); [vm_compute; reflexivity|].
  split; [vm_compute; reflexivity|]. exists qn. split; [exact Hq|exact Hc].
Defined.

(** ** No nil dereference *)

Lemma isPanic_bind {A B} (c : M A) (k : A -> M B) m :
  isPanic (c m) = false ->
  (forall a m1, c m = Ok a m1 -> isPanic (k a m1) = false) ->
  isPanic (bind c k m) = false.
Proof.
  intros Hc Hk. unfold bind. destruct (c m) as [a m1|code m1|m1]; auto.
Qed.

Lemma neverPanics_bind {A B} (c : M A) (k : A -> M B) :
  neverPanics c -> (forall a, neverPanics (k a)) -> neverPanics (bind c k).
Proof. intros Hc Hk m. apply isPanic_bind; [apply Hc|]. intros a m1 _. apply Hk. Qed.

Lemma neverPanics_if {A} (b : bool) (c1 c2 : M A) :
  neverPanics c1 -> neverPanics c2 -> neverPanics (if b then c1 else c2).
Proof. now destruct b. Qed.

Ltac np_step :=
  first
    [ apply neverPanics_bind; [ | intros ? ]
    | apply neverPanics_if
    | match goal with
      | |- neverPanics (match ?x with _ => _ end) => destruct x
      end
    | solve [intros ?; reflexivity] ].

Ltac np := cbv zeta; repeat (np_step; cbv zeta).

Lemma remote_neverPanics e :
  neverPanics (ListBuckets e) /\
  (forall b p, neverPanics (ListObjects e b p)) /\
  (forall b k, neverPanics (DownloadObject e b k)) /\
  (forall b k, neverPanics (Detail e b k)).
Proof.
  unfold ListBuckets, ListObjects, DownloadObject, Detail, osCreate, logFatal,
    logRemoteError, logPrint.
  repeat split; intros; np.
Qed.

Lemma action_noPanic e m :
  is_Some (cursorObject (listView (prov m))) ->
  isPanic (download e m) = false /\ isPanic (open e m) = false /\
  isPanic (edit e m) = false.
Proof.
  intros [obj Hc]. destruct (remote_neverPanics e) as (_ & _ & Hd & _).
  unfold download, open, edit.
  rewrite !(bind_step _ _ _ _ _ (getCursorObject_Ok _ _ Hc)).
  repeat split;
    match goal with
    | |- isPanic (?c m) = false =>
        let P := fresh "P" in
        assert (P : neverPanics c);
        [ unfold osCreate, logFatal, logPrint;
          repeat first [ apply Hd | np_step; cbv zeta ]
        | apply P ]
    end.
Qed.

Lemma reload_noPanic e m (i : nat) n :
  navigator (prov m) = Some i -> heap m !! i = Some n -> isPanic (reload e m) = false.
Proof.
  intros Hn Hi. destruct (remote_neverPanics e) as (Hb & Ho & _ & _).
  unfold reload.
  rewrite (bind_step _ _ _ _ _ (getProvider_Ok m)). rewrite Hn.
  rewrite (bind_step _ _ _ _ _ (load_Ok _ _ _ Hi)).
  rewrite (bind_step _ _ _ _ _ (getHeap_Ok m)).
  destruct (IsRoot n); [|destruct (IsBucketRoot (heap m) n)].
  - apply isPanic_bind; [apply Hb|]. intros objs m1 H1.
    apply ListBuckets_inv in H1 as (_ & ->).
    now rewrite (reloadWith_Ok _ i n) by assumption.
  - apply isPanic_bind; [apply Ho|]. intros objs m1 H1.
    apply ListObjects_inv in H1 as (_ & ->).
    now rewrite (reloadWith_Ok _ i n) by assumption.
  - apply isPanic_bind; [apply Ho|]. intros objs m1 H1.
    apply ListObjects_inv in H1 as (_ & ->).
    now rewrite (reloadWith_Ok _ i n) by assumption.
Qed.

Lemma loadPrev_below_root m (i : nat) n :
  wf m -> navigator (prov m) = Some i -> heap m !! i = Some n -> parent n <> None ->
  exists (q : nat) qn,
    parent n = Some q /\ heap m !! q = Some qn /\
    loadPrev m =
      Ok tt (addLog ("Load prev. parent:" +:+ key qn)
               (mkMachine (set_listView (updateList qn (listView (prov m)))
                             (set_navigator (Some q) (prov m)))
                  (heap m) (trace m))).
Proof.
  intros [Hh _] Hn Hi Hp. destruct (parent n) as [q|] eqn:Hq; [|congruence].
  destruct (wf_parent _ Hh _ _ _ Hi Hq) as [qn Hqn].
  exists q, qn. split; [reflexivity|]. split; [exact Hqn|].
  now apply (loadPrev_Ok m i n Hn Hi q qn).
Qed.

Lemma show_noPanic e obj m :
  wf m -> cursorObject (listView (prov m)) = Some obj -> isPanic (show e obj m) = false.
Proof.
  intros Hwf Hc. pose proof Hwf as [Hh (i & n & Hn & Hi & _)].
  pose proof (cursor_in_listing m i n obj Hwf Hn Hi Hc) as Hin.
  destruct (remote_neverPanics e) as (_ & Ho & _ & _).
  destruct (ObjType obj) eqn:Ht.
  - destruct (children n !! Name obj) as [c|] eqn:Hch.
    + destruct (show_hit e obj m i n c Hwf (or_introl Ht) Hn Hi Hch) as (m' & cn & -> & _).
      reflexivity.
    + assert (Hx : IsExistChildren n (Name obj) = false)
        by (unfold IsExistChildren; now rewrite Hch).
      rewrite (show_Bucket_miss e obj m i n Ht Hn Hi Hx).
      apply isPanic_bind; [apply Ho|]. intros objs m1 H1.
      apply ListObjects_inv in H1 as (_ & ->).
      now rewrite (loadNext_Ok _ i n) by assumption.
  - destruct (children n !! Name obj) as [c|] eqn:Hch.
    + destruct (show_hit e obj m i n c Hwf (or_intror Ht) Hn Hi Hch) as (m' & cn & -> & _).
      reflexivity.
    + assert (Hx : IsExistChildren n (Name obj) = false)
        by (unfold IsExistChildren; now rewrite Hch).
      rewrite (show_Dir_miss e obj m i n Ht Hn Hi Hx).
      apply isPanic_bind; [apply Ho|]. intros objs m1 H1.
      apply ListObjects_inv in H1 as (_ & ->).
      now rewrite (loadNext_Ok _ i n) by assumption.
  - assert (Hp : parent n <> None).
    { intros Hp. pose proof (wf_root _ Hh _ _ Hi Hp) as Hb.
      unfold onlyBuckets in Hb. rewrite Forall_forall in Hb.
      specialize (Hb obj Hin). congruence. }
    destruct (loadPrev_below_root m i n Hwf Hn Hi Hp) as (q & qn & _ & _ & E).
    unfold show. rewrite Ht, E. reflexivity.
  - unfold show. rewrite Ht. reflexivity.
Qed.

Lemma listEvent_noPanic e ev m :
  wf m -> is_Some (cursorObject (listView (prov m))) ->
  isPanic (listEvent e ev m) = false.
Proof.
  intros Hwf [obj Hc]. pose proof Hwf as [Hh (i & n & Hn & Hi & _)].
  destruct (action_noPanic e m (ex_intro _ obj Hc)) as (Hd & Ho & He).
  destruct (remote_neverPanics e) as (_ & _ & _ & Hdet).
  unfold listEvent.
  destruct (isKey ev KeyEsc || isCh ev "q"); [reflexivity|].
  destruct (isDown ev); [now rewrite (moveList_Ok m i n Hn Hi)|].
  destruct (isUp ev); [now rewrite (moveList_Ok m i n Hn Hi)|].
  destruct (isCh ev "m"); [reflexivity|].
  destruct (isCh ev "d").
  { rewrite (bind_step _ _ _ _ _ (getCursorObject_Ok _ _ Hc)).
    assert (P : neverPanics (detail e obj)).
    { unfold detail. repeat first [ apply Hdet | np_step; cbv zeta ]. }
    apply P. }
  destruct (isCh ev "h" || isKey ev KeyArrowLeft).
  { rewrite (bind_step _ _ _ _ _ (getProvider_Ok m)). rewrite Hn.
    rewrite (bind_step _ _ _ _ _ (load_Ok _ _ _ Hi)).
    unfold IsRoot. destruct (parent n) as [q|] eqn:Hq; [|reflexivity]. simpl.
    destruct (loadPrev_below_root m i n Hwf Hn Hi) as (q' & qn & _ & _ & E);
      [congruence|]. now rewrite E. }
  destruct (isCh ev "r"); [now apply (reload_noPanic e m i n)|].
  destruct (isCh ev "w"); [exact Hd|].
  destruct (isCh ev "o"); [exact Ho|].
  destruct (isCh ev "e"); [exact He|].
  destruct (isCh ev "l" || isKey ev KeyArrowRight || isKey ev KeyEnter); [|reflexivity].
  rewrite (bind_step _ _ _ _ _ (getCursorObject_Ok _ _ Hc)).
  now apply show_noPanic.
Qed.

Lemma menuEvent_noPanic e ev m :
  is_Some (cursorObject (listView (prov m))) ->
  is_Some (getCursorItem (menuView (prov m))) ->
  isPanic (menuEvent e ev m) = false.
Proof.
  intros Hc [item Hi]. destruct (action_noPanic e m Hc) as (Hd & Ho & He).
  rewrite menuEvent_cases.
  destruct (isDown ev); [reflexivity|]. destruct (isUp ev); [reflexivity|].
  destruct (isCancel ev); [reflexivity|]. destruct (isActivate ev); [|reflexivity].
  rewrite (bind_step _ _ _ _ _ (getProvider_Ok m)). rewrite Hi.
  apply isPanic_bind; [destruct (command item); assumption|]. reflexivity.
Qed.

Lemma detailEvent_noPanic ev : neverPanics (detailEvent ev).
Proof. unfold detailEvent. np. Qed.

(** X7. No nil dereference: in every reachable state in which the
    cursor is on a row of the listing and the menu cursor on an item,
    no key makes a turn of the loop panic.  The navigator, the parent
    that [loadPrev] moves to and the child that [moveNext] moves to are
    never nil, in particular on the [..] entry and on the go-back key. *)
Theorem no_nil_dereference e ev m :
  reachable m ->
  is_Some (cursorObject (listView (prov m))) ->
  is_Some (getCursorItem (menuView (prov m))) ->
  isPanic (turn e ev m) = false.
Proof.
  intros Hr Hc Hi. pose proof (reachable_wf m Hr) as Hwf.
  unfold turn. apply isPanic_bind.
  - unfold Handle. rewrite (bind_step _ _ _ _ _ (getProvider_Ok m)).
    destruct (status (prov m)).
    + now apply listEvent_noPanic.
    + now apply menuEvent_noPanic.
    + apply detailEvent_noPanic.
  - intros [] m1 H1.
    destruct (Handle_goodStep e ev m tt m1 H1 Hwf) as [[_ (i & n & Hn & Hi1 & _)] _].
    unfold Update. rewrite (bind_step _ _ _ _ _ (getProvider_Ok m1)). rewrite Hn.
    now rewrite (bind_step _ _ _ _ _ (load_Ok _ _ _ Hi1)).
Qed.

Lemma no_nil_dereference_witness :
  isPanic (turn env_down enter m_alpha) = false /\
  isPanic (turn env_down enter m_menu) = false.
Proof.
  split.
  - apply (no_nil_dereference env_down enter m_alpha m_alpha_reachable);
      vm_compute; eauto.
  - apply (no_nil_dereference env_down enter m_menu m_menu_reachable);
      vm_compute; eauto.
Defined.

(** ** The actions when everything succeeds *)

Lemma DownloadObject_fetch e bkt k m n :
  Create e (Join (Getwd e) k) = true ->
  DownloadWithContext e bkt k = Success n ->
  DownloadObject e bkt k m =
    Ok tt (mkMachine (prov m) (heap m) (trace m ++ fetchTrace e bkt k)).
Proof.
  intros Hc Hd. rewrite (DownloadObject_Success e bkt k m n Hc Hd).
  unfold fetchTrace. now rewrite <- !app_assoc.
Qed.

(** X8. On a Leaf, when the files can be created and the transfer
    succeeds: download fetches the object under the cursor from the
    current bucket exactly once and reports
    [download complate. s3://bucket/key] on the status line; open then
    hands the temporary file to the viewer, and ends the process if the
    viewer fails; edit closes termbox before it starts the editor on
    the temporary file and initialises termbox again after it.
    Nothing but the status line and the trace changes. *)
Theorem actions_on_success e m obj n :
  cursorObject (listView (prov m)) = Some obj -> ObjType obj = Object ->
  Create e (Join (Getwd e) (Name obj)) = true ->
  DownloadWithContext e (bucket (prov m)) (Name obj) = Success n ->
  (Create e (Join (Getwd e) (Filename e (Name obj))) = true ->
   download e m =
     Ok tt (mkMachine
              (set_msg ("download complate. " +:+ s3path (bucket (prov m)) (Name obj)) (prov m))
              (heap m)
              ((trace m ++ [OsCreate (Join (Getwd e) (Filename e (Name obj)))])
                 ++ fetchTrace e (bucket (prov m)) (Name obj)))) /\
  (Create e (Join (TempDir e) (Filename e (Name obj))) = true ->
   (Open e (Join (TempDir e) (Filename e (Name obj))) = true ->
    open e m =
      Ok tt (mkMachine
               (set_msg ("open. " +:+ s3path (bucket (prov m)) (Name obj)) (prov m))
               (heap m)
               (((trace m ++ [OsCreate (Join (TempDir e) (Filename e (Name obj)))])
                   ++ fetchTrace e (bucket (prov m)) (Name obj))
                  ++ [ExecOpen (Join (TempDir e) (Filename e (Name obj)))]))) /\
   (Open e (Join (TempDir e) (Filename e (Name obj))) = false ->
    exitCode (open e m) = Some 1 /\
    prov (outcomeMachine (open e m)) = prov m) /\
   edit e m =
     Ok tt (mkMachine
              (set_msg ("edit. " +:+ s3path (bucket (prov m)) (Name obj)) (prov m))
              (heap m)
              (((trace m ++ [OsCreate (Join (TempDir e) (Filename e (Name obj)))])
                  ++ fetchTrace e (bucket (prov m)) (Name obj))
                 ++ [TermboxClose; ExecEditor (Join (TempDir e) (Filename e (Name obj)));
                     TermboxInit]))).
Proof.
  intros Hc Ht Hc2 Hd. split.
  - intros Hc1. unfold download.
    rewrite (bind_step _ _ _ _ _ (getCursorObject_Ok _ _ Hc)).
    rewrite (bind_step _ _ _ _ _ (getProvider_Ok m)). cbv zeta. rewrite Ht.
    rewrite (bind_step _ _ _ _ _ (osCreate_Ok _ _ _)). rewrite Hc1.
    change (negb true) with false. cbv iota.
    rewrite (bind_step _ _ _ _ _ (DownloadObject_fetch _ _ _ _ n Hc2 Hd)). reflexivity.
  - intros Hc1. unfold open, edit.
    rewrite !(bind_step _ _ _ _ _ (getCursorObject_Ok _ _ Hc)).
    rewrite !(bind_step _ _ _ _ _ (getProvider_Ok m)). cbv zeta. rewrite Ht.
    rewrite !(bind_step _ _ _ _ _ (osCreate_Ok _ _ _)). rewrite Hc1.
    change (negb true) with false. cbv iota.
    rewrite !(bind_step _ _ _ _ _ (DownloadObject_fetch _ _ _ _ n Hc2 Hd)).
    split; [|split].
    + intros Ho. rewrite (bind_step _ _ _ _ _ (emit_Ok _ _)). rewrite Ho. reflexivity.
    + intros Ho. rewrite (bind_step _ _ _ _ _ (emit_Ok _ _)). rewrite Ho.
      split; reflexivity.
    + unfold bind, emit, modifyProvider. simpl. rewrite <- !app_assoc. reflexivity.
Qed.

Lemma actions_on_success_witness :
  msg (statusView (prov (outcomeMachine (download env0 m_leaf))))
    = "download complate. s3://alpha/readme.txt" /\
  List.filter isFetch (trace (outcomeMachine (download env0 m_leaf)))
    = [CallDownload "alpha" "readme.txt"] /\
  isOk (edit env0 m_leaf) = true.
Proof.
  destruct (actions_on_success env0 m_leaf
              (NewS3Object Object "readme.txt" (Some 3) (Some 42)) 42)
    as (H1 & H2); try (vm_compute; reflexivity).
  destruct (H2 eq_refl) as (_ & _ & H3).
  rewrite (H1 eq_refl), H3. vm_compute. repeat split.
Defined.

(** ** Going back *)

(** X9. The go-back keys ([h] and the left arrow) in List mode, from a
    reachable state: at the root they return with the session as it
    was, where an unguarded [loadPrev] would dereference the nil
    parent; below the root they return with the navigator on the
    parent, the list view showing the parent's listing at the cursor
    the parent remembers, and the tree and the bucket as they were. *)
Theorem go_back_is_guarded e m (i : nat) n :
  reachable m -> status (prov m) = StateList ->
  navigator (prov m) = Some i -> heap m !! i = Some n ->
  Handle e (mkEvent KeyArrowLeft 0) m = Handle e (press "h") m /\
  (parent n = None ->
   Handle e (press "h") m = Ok tt m /\ isOk (loadPrev m) = false) /\
  (forall q : nat, parent n = Some q ->
   exists m' qn,
     Handle e (press "h") m = Ok tt m' /\ heap m !! q = Some qn /\
     navigator (prov m') = Some q /\
     listView (prov m') = mkListView (objects qn) (key qn) (position qn) /\
     heap m' = heap m /\ bucket (prov m') = bucket (prov m) /\
     status (prov m') = StateList).
Proof.
  intros Hr Hs Hn Hi. pose proof (reachable_wf m Hr) as Hwf.
  rewrite !(Handle_List _ _ _ Hs).
  assert (E : listEvent e (press "h") m = if IsRoot n then Ok tt m else loadPrev m).
  { change (listEvent e (press "h"))
      with (bind getProvider (fun p => bind (load (navigator p))
              (fun n => if negb (IsRoot n) then loadPrev else ret tt))).
    rewrite (bind_step _ _ _ _ _ (getProvider_Ok m)). rewrite Hn.
    rewrite (bind_step _ _ _ _ _ (load_Ok _ _ _ Hi)). now destruct (IsRoot n). }
  split; [reflexivity|]. rewrite E. unfold IsRoot. split.
  - intros Hp. rewrite Hp. split; [reflexivity|]. now apply (loadPrev_root m i n).
  - intros q Hp. rewrite Hp.
    destruct (loadPrev_below_root m i n Hwf Hn Hi) as (q' & qn & Hq' & Hqn & El);
      [congruence|].
    rewrite Hp in Hq'. inversion Hq'; subst q'.
    eexists _, qn. split; [exact El|]. split; [exact Hqn|]. simpl. auto 10.
Qed.

Lemma go_back_is_guarded_witness :
  Handle env0 (press "h") m_root = Ok tt m_root /\
  isOk (loadPrev m_root) = false /\
  exists m', Handle env0 (press "h") m_leaf = Ok tt m' /\ navigator (prov m') = Some 0%nat.
Proof.
  destruct (go_back_is_guarded env0 m_root 0 (nodeAt m_root 0) m_root_reachable)
    as (_ & H1 & _); try (vm_compute; reflexivity).
  destruct (go_back_is_guarded env0 m_leaf 1 (nodeAt m_leaf 1) m_leaf_reachable)
    as (_ & _ & H2); try (vm_compute; reflexivity).
  destruct (H1 eq_refl) as [E1 E2].
  destruct (H2 0%nat eq_refl) as (m' & qn & E & _ & Hq & _).
  split; [exact E1|]. split; [exact E2|]. exists m'. auto.
Defined.

(** ** The breadcrumb *)

Lemma Update_inv m1 m :
  Update m1 = Ok tt m ->
  exists (i : nat) n,
    navigator (prov m1) = Some i /\ heap m1 !! i = Some n /\
    m = mkMachine (set_navigationView (mkNavigationView (bucket (prov m1)) (key n)) (prov m1))
          (heap m1) (trace m1).
Proof.
  unfold Update. intros H. mstep H as p Hp. mstep H as n Hn.
  apply load_inv in Hn as (-> & i & Hn & Hi). apply modifyProvider_inv in H as ->. eauto.
Qed.

(** X10. In every reachable state the navigation view shows the
    current bucket and the key of the node the navigator is on:
    [Update] has run after the last handler, and nothing else writes
    the view. *)
Theorem breadcrumb_shows_position m :
  reachable m ->
  exists (i : nat) n,
    navigator (prov m) = Some i /\ heap m !! i = Some n /\
    navigationView (prov m) = mkNavigationView (bucket (prov m)) (key n).
Proof.
  intros Hr.
  assert (H : exists m1, Update m1 = Ok tt m).
  { destruct Hr as [e m H|e ev m m' _ H].
    - unfold NewProvider in H. mstep H as u Hu. eauto.
    - unfold turn in H. mstep H as u Hu. eauto. }
  destruct H as (m1 & H). apply Update_inv in H as (i & n & Hn & Hi & ->).
  exists i, n. simpl. auto.
Qed.

Lemma breadcrumb_shows_position_witness :
  navigationView (prov m_leaf) = mkNavigationView "alpha" "alpha" /\
  navigationView (prov m_back) = mkNavigationView "alpha" "".
Proof.
  destruct (breadcrumb_shows_position m_leaf m_leaf_reachable) as (i & n & Hn & Hi & E).
  destruct (breadcrumb_shows_position m_back m_back_reachable) as (j & x & Hj & Hx & E').
  split.
  - rewrite E. vm_compute in Hn. inversion Hn; subst i.
    assert (Hi' : heap m_leaf !! 1%nat = Some (nodeAt m_leaf 1)) by (vm_compute; reflexivity).
    rewrite Hi' in Hi. inversion Hi; subst n. vm_compute. reflexivity.
  - rewrite E'. vm_compute in Hj. inversion Hj; subst j.
    assert (Hx' : heap m_back !! 0%nat = Some (nodeAt m_back 0)) by (vm_compute; reflexivity).
    rewrite Hx' in Hx. inversion Hx; subst x. vm_compute. reflexivity.
Defined.

(** ** The loop *)

Lemma Loop_after_interrupt pre e rest :
  Loop (pre ++ (e, EventInterrupt) :: rest) = Loop (pre ++ [(e, EventInterrupt)]).
Proof.
  induction pre as [|[e' [ev| | |]] pre IH]; simpl; try reflexivity.
  - now rewrite IH.
  - exact IH.
Qed.

Lemma Loop_Ok evs : forall m b m',
  Loop evs m = Ok b m' ->
  turns m m' /\ (b = true <-> In EventInterrupt (map snd evs)).
Proof.
  induction evs as [|[e [ev| | |]] rest IH]; intros m b m' H; simpl in *.
  - apply ret_inv in H as [-> ->]. split; [apply turns_refl|]. split; [discriminate|tauto].
  - mstep H as u Hu. destruct u. destruct (IH _ _ _ H) as (Ht & Hb).
    split; [eapply turns_step; eauto|]. rewrite Hb. split; [auto|].
    intros [E|E]; [discriminate|exact E].
  - discriminate.
  - apply ret_inv in H as [-> ->]. split; [apply turns_refl|]. split; auto.
  - destruct (IH _ _ _ H) as (Ht & Hb). split; [exact Ht|]. rewrite Hb. split; [auto|].
    intros [E|E]; [discriminate|exact E].
Qed.

(** What [Loop] does with the polled events, whatever the outcome: one
    turn for each key event before the first interrupt or error, in
    order, and then the ending the events give. *)
Lemma Loop_turnsOf evs : forall m,
  Loop evs m = bind (turnsOf (handled evs)) (fun _ => finish (ending evs)) m.
Proof.
  induction evs as [|[e [ev| | |]] rest IH]; intros m; simpl; try reflexivity.
  - unfold bind. destruct (turn e ev m) as [[] m1|c m1|m1]; [|reflexivity..].
    rewrite IH. reflexivity.
  - apply IH.
Qed.

Lemma handled_keys kevs e rest :
  handled (map (fun x => (fst x, EventKey (snd x))) kevs ++ (e, EventInterrupt) :: rest) = kevs /\
  ending (map (fun x => (fst x, EventKey (snd x))) kevs ++ (e, EventInterrupt) :: rest) = Returned.
Proof.
  induction kevs as [|[e' ev] kevs [IH1 IH2]]; simpl; [split; reflexivity|].
  rewrite IH1. split; [reflexivity|exact IH2].
Qed.

(** X11. The loop returns on the interrupt event and on nothing else.
    If a run of [Loop] over the events polled so far ends without exit
    or panic, every key event before the first interrupt was handled in
    order, each by a turn that returned: the final state is the one
    that the turns on exactly those key events, in that order, produce;
    so from a reachable state the run ends in a reachable state.  The
    loop has returned exactly when an interrupt was among the events,
    and what was polled after that interrupt plays no part.  The quit
    key by itself only raises the interrupt: until the interrupt event
    arrives, keys are still handled. *)
Theorem Loop_returns_on_interrupt evs m b m' :
  reachable m -> Loop evs m = Ok b m' ->
  reachable m' /\ turns m m' /\
  (b = true <-> In EventInterrupt (map snd evs)) /\
  (forall pre e rest, evs = pre ++ (e, EventInterrupt) :: rest ->
     Loop (pre ++ [(e, EventInterrupt)]) m = Ok b m') /\
  turnsOf (handled evs) m = Ok tt m' /\
  (b = true <-> ending evs = Returned) /\
  (b = false <-> ending evs = Waiting) /\
  (forall kevs e rest,
     evs = map (fun x => (fst x, EventKey (snd x))) kevs ++ (e, EventInterrupt) :: rest ->
     b = true /\ turnsOf kevs m = Ok tt m') /\
  (forall e ev rest, evs = (e, EventKey ev) :: rest ->
     exists m1, turn e ev m = Ok tt m1 /\ Loop rest m1 = Ok b m').
Proof.
  intros Hr H. destruct (Loop_Ok evs m b m' H) as (Ht & Hb).
  split; [eapply turns_reachable; eauto|]. split; [exact Ht|]. split; [exact Hb|].
  split; [intros pre e rest E; subst evs; now rewrite Loop_after_interrupt in H|].
  assert (G : turnsOf (handled evs) m = Ok tt m' /\
              (b = true <-> ending evs = Returned) /\ (b = false <-> ending evs = Waiting)).
  { pose proof H as H'. rewrite Loop_turnsOf in H'. unfold bind in H'.
    destruct (turnsOf (handled evs) m) as [[] m1|c m1|m1]; try discriminate.
    destruct (ending evs); simpl in H'; try discriminate;
      apply ret_inv in H' as [-> ->]; (split; [reflexivity|]); split; split; congruence. }
  destruct G as (G1 & G2 & G3).
  split; [exact G1|]. split; [exact G2|]. split; [exact G3|]. split.
  - intros kevs e rest E. destruct (handled_keys kevs e rest) as [E1 E2].
    rewrite <- E in E1, E2. split; [now apply G2|]. now rewrite <- E1.
  - intros e ev rest E. subst evs. simpl in H. mstep H as u Hu. destruct u. eauto.
Qed.

Lemma Loop_returns_on_interrupt_witness :
  exists m',
    Loop [(env0, EventKey (press "q")); (env0, EventKey (press "j"));
          (env0, EventInterrupt); (env_down, EventKey enter)] m_alpha = Ok true m' /\
    reachable m' /\ cursorPos (listView (prov m')) = 1 /\
    Loop [(env0, EventKey (press "q")); (env0, EventKey (press "j"));
          (env0, EventInterrupt)] m_alpha = Ok true m' /\
    turnsOf [(env0, press "q"); (env0, press "j")] m_alpha = Ok tt m'.
Proof.
  eexists. split; [vm_compute; reflexivity|].
  match goal with
  | |- reachable ?mm /\ _ =>
      destruct (Loop_returns_on_interrupt
                  [(env0, EventKey (press "q")); (env0, EventKey (press "j"));
                   (env0, EventInterrupt); (env_down, EventKey enter)]
                  m_alpha true mm m_alpha_reachable) as (H1 & _ & _ & H2 & _ & _ & _ & H3 & _);
        [vm_compute; reflexivity|]
  end.
  split; [exact H1|]. split; [vm_compute; reflexivity|]. split.
  - apply (H2 [(env0, EventKey (press "q")); (env0, EventKey (press "j"))] env0
              [(env_down, EventKey enter)]). reflexivity.
  - apply (H3 [(env0, press "q"); (env0, press "j")] env0 [(env_down, EventKey enter)]).
    reflexivity.
Defined.

(** ** At most one remote call per turn *)

Lemma remoteCalls_silent t : forallb notRemote t = true -> remoteCalls t = [].
Proof.
  unfold remoteCalls, notRemote. induction t as [|x t IH]; simpl; [reflexivity|].
  intros H. apply andb_prop in H as [Hx Ht]. destruct (isRemoteCall x); [discriminate|auto].
Qed.

Lemma remoteCalls_app t1 t2 : remoteCalls (t1 ++ t2) = remoteCalls t1 ++ remoteCalls t2.
Proof. unfold remoteCalls. apply List.filter_app. Qed.

Lemma silent_atMostOne {A} (c : M A) : silent c -> atMostOne c.
Proof.
  intros H m. destruct (H m) as (t & E & Ht). exists t. split; [exact E|].
  rewrite (remoteCalls_silent _ Ht). simpl. lia.
Qed.

Lemma atMostOne_emit x : atMostOne (emit x).
Proof.
  intros m. exists [x]. split; [reflexivity|].
  unfold remoteCalls. simpl. destruct (isRemoteCall x); simpl; lia.
Qed.

Lemma atMostOne_bind_l {A B} (c : M A) (k : A -> M B) :
  silent c -> (forall a, atMostOne (k a)) -> atMostOne (bind c k).
Proof.
  intros Hc Hk m. destruct (Hc m) as (t1 & E1 & H1). unfold bind.
  destruct (c m) as [a m1|code m1|m1]; simpl in *.
  - destruct (Hk a m1) as (t2 & E2 & H2). exists (t1 ++ t2). split.
    + rewrite E2, E1. now rewrite app_assoc.
    + rewrite remoteCalls_app, (remoteCalls_silent _ H1). exact H2.
  - exists t1. split; [exact E1|]. rewrite (remoteCalls_silent _ H1). simpl. lia.
  - exists t1. split; [exact E1|]. rewrite (remoteCalls_silent _ H1). simpl. lia.
Qed.

Lemma atMostOne_bind_r {A B} (c : M A) (k : A -> M B) :
  atMostOne c -> (forall a, silent (k a)) -> atMostOne (bind c k).
Proof.
  intros Hc Hk m. destruct (Hc m) as (t1 & E1 & H1). unfold bind.
  destruct (c m) as [a m1|code m1|m1]; simpl in *.
  - destruct (Hk a m1) as (t2 & E2 & H2). exists (t1 ++ t2). split.
    + rewrite E2, E1. now rewrite app_assoc.
    + rewrite remoteCalls_app, (remoteCalls_silent _ H2), app_nil_r. exact H1.
  - exists t1. auto.
  - exists t1. auto.
Qed.

Lemma atMostOne_if {A} (b : bool) (c1 c2 : M A) :
  atMostOne c1 -> atMostOne c2 -> atMostOne (if b then c1 else c2).
Proof. now destruct b. Qed.

Ltac quiet := solve [unfold silent; alw].

Ltac amo :=
  cbv zeta;
  first
    [ apply silent_atMostOne; quiet
    | apply atMostOne_emit
    | apply atMostOne_if; amo
    | match goal with
      | |- atMostOne (match ?x with _ => _ end) => destruct x; amo
      end
    | apply atMostOne_bind_l; [quiet | intros ?; amo]
    | apply atMostOne_bind_r; [amo | intros ?; quiet] ].

Lemma turn_atMostOne e ev : atMostOne (turn e ev).
Proof. unfold turn, Handle. unfold_handlers. amo. Qed.

Lemma detail_mode_silent ev : silent (bind (detailEvent ev) (fun _ => Update)).
Proof. unfold silent, detailEvent, Update. alw. Qed.

Lemma menu_move_silent e ev :
  isActivate ev = false -> silent (bind (menuEvent e ev) (fun _ => Update)).
Proof.
  intros Ha. rewrite menuEvent_cases, Ha. unfold silent, Update.
  destruct (isDown ev), (isUp ev), (isCancel ev); alw.
Qed.

(** X12. A turn of the loop makes at most one remote call, whatever
    its outcome (return, exit or panic): no key lists twice, fetches
    twice, or lists and fetches.  In Detail mode no key makes any
    remote call, and in Menu mode only activate can make one. *)
Theorem one_remote_call_per_turn e ev m :
  exists t,
    trace (outcomeMachine (turn e ev m)) = trace m ++ t /\
    (length (remoteCalls t) <= 1)%nat /\
    (status (prov m) = StateDetail -> remoteCalls t = []) /\
    (status (prov m) = StateMenu -> isActivate ev = false -> remoteCalls t = []).
Proof.
  destruct (turn_atMostOne e ev m) as (t & E & Ht). exists t.
  split; [exact E|]. split; [exact Ht|].
  assert (Hturn : forall c, Handle e ev m = c m ->
            turn e ev m = bind c (fun _ => Update) m).
  { intros c Hc. unfold turn, bind. now rewrite Hc. }
  split.
  - intros Hs.
    assert (Hh : Handle e ev m = detailEvent ev m).
    { unfold Handle. rewrite (bind_step _ _ _ _ _ (getProvider_Ok m)). now rewrite Hs. }
    rewrite (Hturn _ Hh) in E.
    destruct (detail_mode_silent ev m) as (t' & E' & Ht'). rewrite E' in E.
    apply app_inv_head in E. subst t'. now apply remoteCalls_silent.
  - intros Hs Ha. rewrite (Hturn _ (Handle_Menu e ev m Hs)) in E.
    destruct (menu_move_silent e ev Ha m) as (t' & E' & Ht'). rewrite E' in E.
    apply app_inv_head in E. subst t'. now apply remoteCalls_silent.
Qed.

Lemma one_remote_call_per_turn_witness :
  (length (remoteCalls (drop (length (trace m_root))
                          (trace (outcomeMachine (turn env0 enter m_root))))) <= 1)%nat /\
  remoteCalls (drop (length (trace m_menu))
                 (trace (outcomeMachine (turn env0 (press "j") m_menu)))) = [].
Proof.
  destruct (one_remote_call_per_turn env0 enter m_root) as (t & E & H & _).
  destruct (one_remote_call_per_turn env0 (press "j") m_menu) as (t' & E' & _ & _ & H').
  rewrite E, E', !drop_app_length. split; [exact H|].
  apply H'; vm_compute; reflexivity.
Defined.

(** ** Reloading twice *)

Lemma IsBucketRoot_setObjects (h : list Node) (i : nat) n objs x :
  h !! i = Some n ->
  IsBucketRoot (<[i := setObjects objs n]> h) (setObjects objs x) = IsBucketRoot h x.
Proof.
  intros Hi. unfold IsBucketRoot. simpl. destruct (parent x) as [q|]; [|reflexivity].
  assert (Hlt : (i < length h)%nat) by (eapply lookup_lt_Some; eauto).
  destruct (decide (q = i)) as [E|Hne]; [subst q|].
  - rewrite list_lookup_insert_eq by done. now rewrite Hi.
  - now rewrite list_lookup_insert_ne by done.
Qed.

(** X13. Reload touches the current node's entries and nothing else in
    the tree: every other node is as it was, and the current node keeps
    its key, parent, children and cursor.  Reloading a second time
    while the store answers the same leaves the provider and the tree
    exactly as the first reload left them. *)
Theorem reload_twice e m (i : nat) n fresh :
  navigator (prov m) = Some i -> heap m !! i = Some n ->
  freshEntries e m n = Success fresh ->
  exists m1 m2,
    reload e m = Ok tt m1 /\ reload e m1 = Ok tt m2 /\
    prov m2 = prov m1 /\ heap m2 = heap m1 /\
    heap m1 !! i = Some (mkNode (key n) (parent n) fresh (position n) (children n)) /\
    (forall j : nat, j <> i -> heap m1 !! j = heap m !! j) /\
    length (heap m1) = length (heap m).
Proof.
  intros Hn Hi Hf.
  assert (Hlt : (i < length (heap m))%nat) by (eapply lookup_lt_Some; eauto).
  destruct (reload_Success e m i n fresh Hn Hi Hf) as (t & E1 & _).
  set (m1 := mkMachine (set_listView (lv_setObjects fresh (listView (prov m))) (prov m))
               (<[i := setObjects fresh n]> (heap m)) (trace m ++ [t])) in *.
  assert (Hn1 : navigator (prov m1) = Some i) by exact Hn.
  assert (Hi1 : heap m1 !! i = Some (setObjects fresh n)).
  { simpl. now apply list_lookup_insert_eq. }
  assert (Hf1 : freshEntries e m1 (setObjects fresh n) = Success fresh).
  { unfold freshEntries in *. simpl heap. simpl bucket.
    rewrite (IsBucketRoot_setObjects _ _ _ _ _ Hi). exact Hf. }
  destruct (reload_Success e m1 i _ fresh Hn1 Hi1 Hf1) as (t' & E2 & _).
  eexists m1, _. split; [exact E1|]. split; [exact E2|]. simpl.
  split; [reflexivity|]. split.
  - rewrite list_insert_insert_eq. reflexivity.
  - split; [now apply list_lookup_insert_eq|]. split.
    + intros j Hj. now apply list_lookup_insert_ne.
    + apply length_insert.
Qed.

Lemma reload_twice_witness :
  exists m1 m2, reload env0 m_leaf = Ok tt m1 /\ reload env0 m1 = Ok tt m2 /\
                heap m2 = heap m1 /\ heap m1 !! 0%nat = heap m_leaf !! 0%nat.
Proof.
  destruct (reload_twice env0 m_leaf 1 (nodeAt m_leaf 1)
              [upDir; group "logs/"; NewS3Object Object "readme.txt" (Some 3) (Some 42)])
    as (m1 & m2 & E1 & E2 & _ & Hh & _ & Ho & _);
    try (vm_compute; reflexivity).
  exists m1, m2. split; [exact E1|]. split; [exact E2|]. split; [exact Hh|].
  apply Ho. discriminate.
Defined.
